(** * randstr: a shallow embedding of [crypto_random.c]

    The development follows the source file top to bottom: the C data the
    program works on (bytes, NUL-terminated strings, malloc'ed blocks), the
    three character-set constants, the operating-system interface the
    program talks to, then [get_random_bytes], [generate_random_string],
    [calculate_shannon_entropy], [print_usage] and [main].  Theorems come
    after all definitions. *)

From Stdlib Require Import ZArith Lia Ascii String DecimalString Reals Lra.
From stdpp Require Import base numbers list strings.

Local Open Scope Z_scope.

(** ** C data *)

(** A [char] and an [unsigned char] are both one byte; [uchar c] is the
    value of the cast [(unsigned char)c], a number in [0, 255]. *)
Definition uchar (c : ascii) : Z := Z.of_N (N_of_ascii c).

Definition NUL : ascii := Ascii.zero.

Definition is_nul (c : ascii) : bool := uchar c =? 0.

(** A [const char *] is modelled by the bytes found from the pointer
    onwards.  The string it denotes ends before the first NUL byte (or at
    the end of the modelled bytes). *)
Fixpoint c_str (p : list ascii) : list ascii :=
  match p with
  | [] => []
  | c :: p' => if is_nul c then [] else c :: c_str p'
  end.

(** [strlen]: the number of bytes before the terminator, as a [size_t]. *)
Definition strlen (p : list ascii) : Z := Z.of_nat (length (c_str p)).

(** A string literal: its characters followed by the terminating NUL. *)
Definition literal (s : string) : list ascii :=
  list_ascii_of_string s ++ [NUL].

(** [strcmp(a, b) == 0] *)
Definition streq (a b : list ascii) : bool :=
  bool_decide (c_str a = c_str b).

(** Widths of the integer types the program uses.  [size_t] and [ssize_t]
    are 64 bits wide; [int] is 32 bits wide. *)
Definition SIZE_MOD : Z := 2 ^ 64.
Definition SSIZE_MAX : Z := 2 ^ 63 - 1.
Definition INT_MAX : Z := 2 ^ 31 - 1.

(** The cast [(ssize_t)n] of a [size_t]. *)
Definition to_ssize (n : Z) : Z := if n <=? SSIZE_MAX then n else n - SIZE_MOD.

(** ** Character sets (crypto_random.c, lines 44-46) *)

Definition CHARSET_FULL : list ascii :=
  literal "ABCDEFGHIJKLMNOPQRSTUVWXYZabcdefghijklmnopqrstuvwxyz0123456789!@#$%^&*()-_=+[]{}|;:,.<>?".
Definition CHARSET_ALNUM : list ascii :=
  literal "ABCDEFGHIJKLMNOPQRSTUVWXYZabcdefghijklmnopqrstuvwxyz0123456789".
Definition CHARSET_NUM : list ascii :=
  literal "0123456789".

(** ** The environment of the process

    Everything the program obtains from outside is read from a [world]:
    the replies of the allocator and of the operating system, in call
    order, and the two output streams it appends to.  When the replies of
    a facility are used up, the allocator refuses, [BCryptGenRandom],
    [getrandom] and [open] fail, and [read] blocks for ever. *)

(** The three build targets selected by the [#ifdef]s of the source. *)
Inductive platform : Type := Win32 | Linux | Unix.

Inductive open_reply : Type :=
| OpenOk                      (* a descriptor is returned *)
| OpenErr (e : Z).            (* -1, with errno e *)

Inductive read_reply : Type :=
| ReadData (bs : list ascii)  (* the device has bs ready; read hands over at most the requested count *)
| ReadErr (e : Z).            (* -1, with errno e *)

Definition EINTR : Z := 4.

Record world : Type := World {
  heap : list bool;                       (* malloc: true = a block is granted, false = NULL *)
  junk : ascii;                           (* what a fresh block holds *)
  bcrypt : list (option (nat → ascii));   (* BCryptGenRandom: None = error status *)
  getrandoms : list (option (list ascii));(* getrandom: None = -1 *)
  opens : list open_reply;                (* open of /dev/urandom *)
  reads : list read_reply;                (* read on the descriptor *)
  errno : Z;
  strerror : Z → list ascii;
  fds : nat;                              (* descriptors currently open *)
  stdout : list ascii;
  stderr : list ascii
}.

Definition set_heap (h : list bool) (w : world) : world :=
  World h (junk w) (bcrypt w) (getrandoms w) (opens w) (reads w) (errno w)
        (strerror w) (fds w) (stdout w) (stderr w).
Definition set_bcrypt (b : list (option (nat → ascii))) (w : world) : world :=
  World (heap w) (junk w) b (getrandoms w) (opens w) (reads w) (errno w)
        (strerror w) (fds w) (stdout w) (stderr w).
Definition set_getrandoms (g : list (option (list ascii))) (w : world) : world :=
  World (heap w) (junk w) (bcrypt w) g (opens w) (reads w) (errno w)
        (strerror w) (fds w) (stdout w) (stderr w).
Definition set_opens (o : list open_reply) (w : world) : world :=
  World (heap w) (junk w) (bcrypt w) (getrandoms w) o (reads w) (errno w)
        (strerror w) (fds w) (stdout w) (stderr w).
Definition set_reads (r : list read_reply) (w : world) : world :=
  World (heap w) (junk w) (bcrypt w) (getrandoms w) (opens w) r (errno w)
        (strerror w) (fds w) (stdout w) (stderr w).
Definition set_errno (e : Z) (w : world) : world :=
  World (heap w) (junk w) (bcrypt w) (getrandoms w) (opens w) (reads w) e
        (strerror w) (fds w) (stdout w) (stderr w).
Definition set_fds (n : nat) (w : world) : world :=
  World (heap w) (junk w) (bcrypt w) (getrandoms w) (opens w) (reads w) (errno w)
        (strerror w) n (stdout w) (stderr w).
Definition set_stdout (s : list ascii) (w : world) : world :=
  World (heap w) (junk w) (bcrypt w) (getrandoms w) (opens w) (reads w) (errno w)
        (strerror w) (fds w) s (stderr w).
Definition set_stderr (s : list ascii) (w : world) : world :=
  World (heap w) (junk w) (bcrypt w) (getrandoms w) (opens w) (reads w) (errno w)
        (strerror w) (fds w) (stdout w) s.

(** How a call ends: it returns a value and leaves a world behind, or it
    never returns (the process is blocked in [read]), or its behaviour is
    undefined by the C standard (a store outside a block, a division by
    zero, a signed overflow). *)
Inductive outcome (A : Type) : Type :=
| Done (a : A) (w : world)
| Hang (w : world)
| Undef.
Arguments Done {A} a w.
Arguments Hang {A} w.
Arguments Undef {A}.

Definition M (A : Type) : Type := world → outcome A.

Definition ret {A} (a : A) : M A := λ w, Done a w.

Definition bind {A B} (m : M A) (k : A → M B) : M B :=
  λ w, match m w with
       | Done a w' => k a w'
       | Hang w' => Hang w'
       | Undef => Undef
       end.

Notation "x <- m ;; k" := (bind m (λ x, k))
  (at level 100, m at next level, right associativity).
Notation "m ;; k" := (bind m (λ _, k))
  (at level 100, right associativity).

(** A computation without effects whose behaviour may be undefined. *)
Definition defined {A} (o : option A) : M A :=
  λ w, match o with Some a => Done a w | None => Undef end.

(** *** Standard library and system calls *)

Definition LF : ascii := "010"%char.

(** A format string without conversions that ends in a newline. *)
Definition line (s : string) : list ascii := list_ascii_of_string s ++ [LF].

(** [printf] / [fprintf(stderr, ...)] of already formatted text. *)
Definition print (text : list ascii) : M unit :=
  λ w, Done () (set_stdout (stdout w ++ text) w).
Definition eprint (text : list ascii) : M unit :=
  λ w, Done () (set_stderr (stderr w ++ text) w).

Definition perror (msg : string) : M unit :=
  λ w, eprint (list_ascii_of_string msg ++ list_ascii_of_string ": "
               ++ strerror w (errno w) ++ [LF]) w.

(** [malloc(n)]: a block of [n] bytes with indeterminate contents, or NULL. *)
Definition malloc (n : Z) : M (option (list ascii)) :=
  λ w, match heap w with
       | true :: h => Done (Some (replicate (Z.to_nat n) (junk w))) (set_heap h w)
       | false :: h => Done None (set_heap h w)
       | [] => Done None w
       end.

(** [p[i]] as an rvalue and [p[i] = c]; both are undefined outside the block. *)
Definition load (p : list ascii) (i : Z) : option ascii :=
  if 0 <=? i then p !! Z.to_nat i else None.
Definition store (p : list ascii) (i : Z) (c : ascii) : option (list ascii) :=
  if (0 <=? i) && (i <? Z.of_nat (length p)) then Some (<[Z.to_nat i := c]> p) else None.

(** [BCryptGenRandom(NULL, buffer, n, BCRYPT_USE_SYSTEM_PREFERRED_RNG)]:
    the status and the buffer afterwards. *)
Definition BCryptGenRandom (buffer : list ascii) (n : Z) : M (Z * list ascii) :=
  λ w, match bcrypt w with
       | Some g :: b => Done (0, list_inserts 0 (g <$> seq 0 (Z.to_nat n)) buffer) (set_bcrypt b w)
       | None :: b => Done (-1073741823, buffer) (set_bcrypt b w)
       | [] => Done (-1073741823, buffer) w
       end.

(** [getrandom(buffer, n, 0)]: the number of bytes written (at most [n]),
    or -1, and the buffer afterwards. *)
Definition getrandom (buffer : list ascii) (n : Z) : M (Z * list ascii) :=
  λ w, match getrandoms w with
       | Some bs :: g =>
           let got := take (Z.to_nat n) bs in
           Done (Z.of_nat (length got), list_inserts 0 got buffer) (set_getrandoms g w)
       | None :: g => Done (-1, buffer) (set_getrandoms g w)
       | [] => Done (-1, buffer) w
       end.

(** [open("/dev/urandom", O_RDONLY)] *)
Definition open_urandom : M Z :=
  λ w, match opens w with
       | OpenOk :: o => Done 3 (set_fds (S (fds w)) (set_opens o w))
       | OpenErr e :: o => Done (-1) (set_errno e (set_opens o w))
       | [] => Done (-1) w
       end.

(** [read(fd, buffer + pos, n)]: the number of bytes stored at offset
    [pos] (at most [n]), or -1 with [errno] set.  When the device never
    answers the call does not return. *)
Definition read (fd : Z) (buffer : list ascii) (pos n : Z) : M (Z * list ascii) :=
  λ w, match reads w with
       | ReadData bs :: r =>
           let got := take (Z.to_nat n) bs in
           Done (Z.of_nat (length got), list_inserts (Z.to_nat pos) got buffer) (set_reads r w)
       | ReadErr e :: r => Done (-1, buffer) (set_errno e (set_reads r w))
       | [] => Hang w
       end.

Definition close (fd : Z) : M unit :=
  λ w, Done () (set_fds (pred (fds w)) w).

(** [for (i = start; ...; i++) body], run for [n] iterations over a state
    [S]; an iteration may have undefined behaviour. *)
Fixpoint for_loop {S : Type} (n : nat) (i : Z) (body : Z → S → option S) (s : S)
  : option S :=
  match n with
  | O => Some s
  | S n' => s' ← body i s; for_loop n' (i + 1) body s'
  end.

(** ** get_random_bytes (crypto_random.c, lines 49-86) *)

(** How the [while] loop of lines 72-81 is left: through the [return -1]
    inside it, or by its condition becoming false. *)
Inductive loop_exit : Type :=
| Returned (rc : Z)
| Completed (bytes_read : Z).

(** The loop of lines 72-81.  Every iteration performs one [read], so the
    number of replies the device still has bounds the iterations. *)
Fixpoint read_loop (fuel : nat) (fd : Z) (buffer : list ascii) (bytes_read len : Z)
  : M (loop_exit * list ascii) :=
  if bytes_read <? len then
    match fuel with
    | O => λ w, Hang w
    | S fuel' =>
        r <- read fd buffer bytes_read (len - bytes_read) ;;
        let (result, buffer) := r in
        if result <? 0 then
          e <- (λ w, Done (errno w) w) ;;
          if e =? EINTR then read_loop fuel' fd buffer bytes_read len
          else
            close fd ;;
            perror "Failed to read from /dev/urandom" ;;
            ret (Returned (-1), buffer)
        else read_loop fuel' fd buffer (bytes_read + result) len
    end
  else ret (Completed bytes_read, buffer).

(** Lines 64-84: the fallback to /dev/urandom. *)
Definition urandom_fallback (buffer : list ascii) (len : Z) : M (Z * list ascii) :=
  fd <- open_urandom ;;
  if fd <? 0 then
    perror "Failed to open /dev/urandom" ;;
    ret (-1, buffer)
  else
    r <- (λ w, read_loop (length (reads w)) fd buffer 0 len w) ;;
    match r with
    | (Returned rc, buffer) => ret (rc, buffer)
    | (Completed _, buffer) => close fd ;; ret (0, buffer)
    end.

(** The status returned and the buffer afterwards.  On Windows the count
    is passed as [(ULONG)length], a 32-bit value. *)
Definition get_random_bytes (plat : platform) (buffer : list ascii) (len : Z)
  : M (Z * list ascii) :=
  match plat with
  | Win32 =>
      r <- BCryptGenRandom buffer (len mod 2 ^ 32) ;;
      let (status, buffer) := r in
      ret (if status =? 0 then 0 else -1, buffer)
  | Linux =>
      r <- getrandom buffer len ;;
      let (result, buffer) := r in
      if result =? to_ssize len then ret (0, buffer)
      else urandom_fallback buffer len
  | Unix => urandom_fallback buffer len
  end.

(** ** generate_random_string (crypto_random.c, lines 89-125) *)

(** The body of the conversion loop, line 119:
    [result[i] = charset[random_bytes[i] % charset_size]]. *)
Definition convert_byte (charset random_bytes : list ascii) (charset_size : Z)
    (i : Z) (result : list ascii) : option (list ascii) :=
  b ← load random_bytes i;
  if charset_size =? 0 then None
  else c ← load charset (uchar b mod charset_size); store result i c.

(** [None] is the NULL pointer; [Some p] is the block returned, holding
    [len + 1] bytes.  Blocks are values here, so the calls of [free] leave
    no trace. *)
Definition generate_random_string (plat : platform) (len : Z) (charset : list ascii)
  : M (option (list ascii)) :=
  let charset_size := strlen charset in
  result <- malloc ((len + 1) mod SIZE_MOD) ;;
  match result with
  | None => eprint (line "Memory allocation failed") ;; ret None
  | Some result =>
      random_bytes <- malloc len ;;
      match random_bytes with
      | None => eprint (line "Memory allocation failed") ;; ret None
      | Some random_bytes =>
          r <- get_random_bytes plat random_bytes len ;;
          let (rc, random_bytes) := r in
          if negb (rc =? 0) then
            eprint (line "Failed to generate random bytes") ;; ret None
          else
            result <- defined (for_loop (Z.to_nat len) 0
                                 (convert_byte charset random_bytes charset_size)
                                 result) ;;
            result <- defined (store result len NUL) ;;
            ret (Some result)
      end
  end.

(** ** Arithmetic on [double]

    The program computes with [double] in [calculate_shannon_entropy] and
    in the report of [main].  The operations it uses form an interface;
    the literals [0.0], [2.0] and [100] are [of_Z 0], [of_Z 2] and
    [of_Z 100]. *)
Class Double (F : Type) : Type := {
  of_Z : Z → F;          (* conversion of int, long or size_t to double *)
  fsub : F → F → F;
  fmul : F → F → F;
  fdiv : F → F → F;
  flog : F → F           (* log of math.h *)
}.

(** [printf] conversion [%.Nf] *)
Class DoublePrint (F : Type) : Type := {
  fmt_f : nat → F → list ascii
}.

(** Exact real arithmetic as an instance of the interface: the arithmetic
    in which no operation rounds.  It is not the arithmetic of the program,
    whose [double] rounds every result; it is the reference that the
    results of a rounded arithmetic are compared with. *)
Definition Real : Double R :=
  {| of_Z := IZR; fsub := Rminus; fmul := Rmult; fdiv := Rdiv; flog := ln |}.

(** [printf] conversions [%ld] and [%zu] *)
Definition fmt_d (n : Z) : list ascii :=
  list_ascii_of_string (DecimalString.NilZero.string_of_int (Z.to_int n)).

Section Entropy.
Context {F : Type} {D : Double F}.

(** ** calculate_shannon_entropy (crypto_random.c, lines 128-147) *)

(** Line 134: [freq[(unsigned char)str[i]]++] on an [int] counter. *)
Definition count_byte (str : list ascii) (i : Z) (freq : list Z) : option (list Z) :=
  c ← load str i;
  n ← freq !! Z.to_nat (uchar c);
  if n <? INT_MAX then Some (<[Z.to_nat (uchar c) := n + 1]> freq) else None.

(** Lines 140-143: the contribution of byte value [i]. *)
Definition add_term (freq : list Z) (len : Z) (i : Z) (entropy : F) : option F :=
  n ← freq !! Z.to_nat i;
  if 0 <? n then
    let p := fdiv (of_Z n) (of_Z len) in
    Some (fsub entropy (fmul p (fdiv (flog p) (flog (of_Z 2)))))
  else Some entropy.

(** [None]: a counter overflowed, the behaviour is undefined. *)
Definition calculate_shannon_entropy (str : list ascii) : option F :=
  let freq := replicate 256 0 in
  let len := strlen str in
  freq ← for_loop (Z.to_nat len) 0 (count_byte str) freq;
  for_loop 256 0 (add_term freq len) (of_Z 0).
End Entropy.

(** ** print_usage (crypto_random.c, lines 149-157) *)

Definition print_usage (program_name : list ascii) : M unit :=
  print (list_ascii_of_string "Usage: " ++ c_str program_name
         ++ line " <length> [mode]") ;;
  print (line "  length: Length of the random string to generate") ;;
  print (line "  mode (optional):") ;;
  print (line "    full   - All printable ASCII including special chars (default)") ;;
  print (line "    alnum  - Alphanumeric only (A-Z, a-z, 0-9)") ;;
  print (line "    num    - Numbers only (0-9)") ;;
  print ([LF] ++ list_ascii_of_string "Example: " ++ c_str program_name
         ++ line " 32 full").

(** ** strtol, as the C standard describes it for base 10 *)

Definition isspace (c : ascii) : bool :=
  (uchar c =? 32) || ((9 <=? uchar c) && (uchar c <=? 13)).
Definition isdigit (c : ascii) : bool :=
  (48 <=? uchar c) && (uchar c <=? 57).

Fixpoint skip_space (p : list ascii) : list ascii :=
  match p with
  | c :: p' => if isspace c then skip_space p' else p
  | [] => []
  end.

Fixpoint scan_digits (acc : Z) (p : list ascii) : Z * list ascii :=
  match p with
  | c :: p' => if isdigit c then scan_digits (10 * acc + (uchar c - 48)) p' else (acc, p)
  | [] => (acc, [])
  end.

(** [long] is 32 bits wide on Windows and 64 bits wide on the other targets. *)
Definition LONG_MAX (plat : platform) : Z :=
  match plat with Win32 => 2 ^ 31 - 1 | _ => 2 ^ 63 - 1 end.
Definition LONG_MIN (plat : platform) : Z := - LONG_MAX plat - 1.
Definition ERANGE : Z := 34.

(** The sign of the subject sequence and what follows it. *)
Definition scan_sign (p : list ascii) : bool * list ascii :=
  match p with
  | c :: p' =>
      if uchar c =? 45 then (true, p')
      else if uchar c =? 43 then (false, p')
      else (false, p)
  | [] => (false, [])
  end.

(** The value returned and [endptr], as the bytes it points to. *)
Definition strtol (plat : platform) (nptr : list ascii) : M (Z * list ascii) :=
  let (neg, p) := scan_sign (skip_space nptr) in
  match p with
  | c :: _ =>
      if isdigit c then
        let (v, endptr) := scan_digits 0 p in
        let v := if neg then - v else v in
        if LONG_MAX plat <? v then
          λ w, Done (LONG_MAX plat, endptr) (set_errno ERANGE w)
        else if v <? LONG_MIN plat then
          λ w, Done (LONG_MIN plat, endptr) (set_errno ERANGE w)
        else ret (v, endptr)
      else ret (0, nptr)
  | [] => ret (0, nptr)
  end.

(** [*p] for a pointer into a string. *)
Definition deref (p : list ascii) : ascii :=
  match p with c :: _ => c | [] => NUL end.

(** ** main (crypto_random.c, lines 159-213) *)

Section Main.
Context {F : Type} {D : Double F} {P : DoublePrint F}.

Definition text (s : string) : list ascii := list_ascii_of_string s.

(** [argv] holds the [argc] argument strings; the value returned is the
    exit status.  With [argc = 0] the pointer [argv[0]] is null and
    handing it to [%s] is undefined. *)
Definition main (plat : platform) (argv : list (list ascii)) : M Z :=
  let argc := Z.of_nat (length argv) in
  let arg (i : nat) := default [] (argv !! i) in
  if argc <? 2 then
    match argv with
    | [] => λ _, Undef
    | program_name :: _ => print_usage program_name ;; ret 1
    end
  else
    r <- strtol plat (arg 1%nat) ;;
    let (len, endptr) := r in
    if negb (is_nul (deref endptr)) || (len <=? 0) || (1000000 <? len) then
      eprint (line "Error: Invalid length. Must be a positive integer (max 1000000)") ;;
      ret 1
    else
      let mode :=
        if 3 <=? argc then
          if streq (arg 2%nat) (literal "alnum") then
            Some (CHARSET_ALNUM, "alphanumeric"%string)
          else if streq (arg 2%nat) (literal "num") then
            Some (CHARSET_NUM, "numeric"%string)
          else if negb (streq (arg 2%nat) (literal "full")) then None
          else Some (CHARSET_FULL, "full"%string)
        else Some (CHARSET_FULL, "full"%string) in
      match mode with
      | None =>
          eprint (line "Error: Invalid mode. Use 'full', 'alnum', or 'num'") ;;
          ret 1
      | Some (charset, mode_name) =>
          random_string <- generate_random_string plat (len mod SIZE_MOD) charset ;;
          match random_string with
          | None => ret 1
          | Some random_string =>
              print (c_str random_string ++ [LF]) ;;
              entropy <- defined (calculate_shannon_entropy random_string) ;;
              let max_entropy := fdiv (flog (of_Z (strlen charset))) (flog (of_Z 2)) in
              eprint ([LF] ++ line "--- Entropy Information ---") ;;
              eprint (text "Mode: " ++ text mode_name ++ text " ("
                      ++ fmt_d (strlen charset) ++ line " characters)") ;;
              eprint (text "String length: " ++ fmt_d len ++ [LF]) ;;
              eprint (text "Shannon entropy: " ++ fmt_f 2 entropy ++ line " bits/char") ;;
              eprint (text "Maximum possible: " ++ fmt_f 2 max_entropy
                      ++ line " bits/char") ;;
              eprint (text "Total entropy: " ++ fmt_f 2 (fmul entropy (of_Z len))
                      ++ line " bits") ;;
              eprint (text "Efficiency: "
                      ++ fmt_f 1 (fmul (fdiv entropy max_entropy) (of_Z 100))
                      ++ line "%") ;;
              ret 0
          end
      end.
End Main.

(** ** Vocabulary for the statements about the read loop *)

(** A reply that is a failure other than an interruption. *)
Definition read_failed (r : read_reply) : bool :=
  match r with
  | ReadErr e => negb (e =? EINTR)
  | ReadData _ => false
  end.

(** The bytes a sequence of replies offers, in order. *)
Definition delivered (script : list read_reply) : list ascii :=
  script ≫= λ r, match r with ReadData bs => bs | ReadErr _ => [] end.

(** ** Vocabulary for the statements about the entropy *)

(** The increment of line 134, for the byte [c] itself. *)
Definition incr_count (c : ascii) (freq : list Z) : option (list Z) :=
  n ← freq !! Z.to_nat (uchar c);
  if n <? INT_MAX then Some (<[Z.to_nat (uchar c) := n + 1]> freq) else None.

(** The counting loop as a recursion over the characters of the string. *)
Fixpoint count_all (s : list ascii) (freq : list Z) : option (list Z) :=
  match s with
  | [] => Some freq
  | c :: s' => freq' ← incr_count c freq; count_all s' freq'
  end.

(** How often the byte value [k] occurs in [s]. *)
Fixpoint occurrences (k : Z) (s : list ascii) : Z :=
  match s with
  | [] => 0
  | c :: s' => (if uchar c =? k then 1 else 0) + occurrences k s'
  end.

(** The number of distinct byte values that occur in [s]. *)
Definition distinct (s : list ascii) : nat := length (remove_dups s).

(** [log2 x] in exact arithmetic. *)
Definition log2 (x : R) : R := (ln x / ln 2)%R.

(** What the loop of lines 139-144 subtracts for a counter [n], in exact
    arithmetic, and the sum of these terms over the counters. *)
Definition term (len n : Z) : R :=
  if 0 <? n then (IZR n / IZR len * (ln (IZR n / IZR len) / ln 2))%R else 0%R.

Fixpoint sum_terms (len : Z) (freq : list Z) : R :=
  match freq with
  | [] => 0%R
  | n :: freq' => (term len n + sum_terms len freq')%R
  end.

(** The sum of the counters and the number of counters that are not zero. *)
Definition total (freq : list Z) : Z := foldr Z.add 0 freq.
Definition positives (freq : list Z) : nat := length (filter (λ n, 0 < n) freq).

(** The counters after the counting loop, as a function of the string. *)
Definition counters (s : list ascii) : list Z :=
  (λ k, occurrences k s) <$> seqZ 0 256.

(** [e ≤ log2 k] for a count [k], read so that it also has a meaning for
    [k = 0], where [log2 0] is minus infinity: [2^e ≤ k]. *)
Definition at_most_log2 (e : R) (k : nat) : Prop := (exp (e * ln 2) <= INR k)%R.

(** The bounds the specification states for the entropy of the string at
    [p], in exact arithmetic. *)
Definition entropy_bounds_as_specified (p : list ascii) : Prop :=
  ∀ e : R, calculate_shannon_entropy (D := Real) p = Some e →
    (0 <= e)%R ∧ at_most_log2 e (distinct (c_str p)) ∧ (e <= 8)%R.

(** ** Vocabulary for the statements about the command line *)

(** The number a sequence of decimal digits denotes. *)
Definition digits_value (ds : list ascii) : Z :=
  foldl (λ acc c, 10 * acc + (uchar c - 48)) 0 ds.

(** The length arguments the boundary lets through: optional white space,
    an optional plus sign, then decimal digits that denote a number [v] in
    (0, 1000000], and nothing after them. *)
Definition denotes_length (s : list ascii) (v : Z) : Prop :=
  ∃ ws sign ds,
    s = ws ++ sign ++ ds ∧
    Forall (λ c, isspace c = true) ws ∧
    (sign = [] ∨ sign = ["+"%char]) ∧
    ds ≠ [] ∧ Forall (λ c, isdigit c = true) ds ∧
    v = digits_value ds ∧ 0 < v ≤ 1000000.

(** The mode arguments the boundary lets through, with the character set
    each selects. *)
Definition selects (mode : list ascii) (charset : list ascii) : Prop :=
  (mode = list_ascii_of_string "alnum" ∧ charset = CHARSET_ALNUM) ∨
  (mode = list_ascii_of_string "num" ∧ charset = CHARSET_NUM) ∨
  (mode = list_ascii_of_string "full" ∧ charset = CHARSET_FULL).

(** Between [w] and [w'] neither the allocator nor the operating system
    was called and nothing was written to the primary output stream. *)
Definition untouched (w w' : world) : Prop :=
  heap w' = heap w ∧ bcrypt w' = bcrypt w ∧ getrandoms w' = getrandoms w ∧
  opens w' = opens w ∧ reads w' = reads w ∧ fds w' = fds w ∧
  stdout w' = stdout w.

(** The character set the arguments after the length select: the full set
    when there is none, else the one the mode argument names. *)
Definition mode_selects (rest : list (list ascii)) (charset : list ascii) : Prop :=
  match rest with
  | [] => charset = CHARSET_FULL
  | mode :: _ => selects (c_str mode) charset
  end.

(** ** Vocabulary for the statements about the output streams *)

(** A call that has defined behaviour in every world, writes nothing to
    the primary output stream, and whose result, if it returns, satisfies
    [P]. *)
Definition tame {A} (P : A → Prop) (m : M A) : Prop :=
  ∀ w, match m w with
       | Done a w' => P a ∧ stdout w' = stdout w
       | Hang w' => stdout w' = stdout w
       | Undef => False
       end.

(** What [print_usage] writes for the program name [program_name]. *)
Definition usage (program_name : list ascii) : list ascii :=
  (list_ascii_of_string "Usage: " ++ c_str program_name ++ line " <length> [mode]")
  ++ line "  length: Length of the random string to generate"
  ++ line "  mode (optional):"
  ++ line "    full   - All printable ASCII including special chars (default)"
  ++ line "    alnum  - Alphanumeric only (A-Z, a-z, 0-9)"
  ++ line "    num    - Numbers only (0-9)"
  ++ ([LF] ++ list_ascii_of_string "Example: " ++ c_str program_name
      ++ line " 32 full").

(** The length the command line [argv] requests. *)
Definition requested (argv : list (list ascii)) (v : Z) : Prop :=
  ∃ arg, argv !! 1%nat = Some arg ∧ denotes_length (c_str arg) v.

(** No partial success, in the words of the specification: a run started
    in [w] with the command line [argv] that ends as [o] has either written
    a complete string of the requested length to the primary output stream
    (and a newline), or it has written nothing there and exits with
    failure.  A run that never returns has written nothing. *)
Definition all_or_nothing (argv : list (list ascii)) (w : world) (o : outcome Z)
  : Prop :=
  match o with
  | Done status w' =>
      (status = 0 ∧ ∃ v s, requested argv v ∧ Z.of_nat (length s) = v ∧
                           stdout w' = stdout w ++ s ++ [LF]) ∨
      (status ≠ 0 ∧ stdout w' = stdout w)
  | Hang w' => stdout w' = stdout w
  | Undef => False
  end.

(** One of the two allocations of [generate_random_string] is refused. *)
Definition allocation_fails (w : world) : Prop :=
  match heap w with
  | true :: true :: _ => False
  | _ => True
  end.

(** Both allocations are granted and [get_random_bytes] reports failure. *)
Definition random_source_fails (plat : platform) (len : Z) (w : world) : Prop :=
  ∃ h rc bytes w',
    heap w = true :: true :: h ∧
    get_random_bytes plat (replicate (Z.to_nat len) (junk w)) len (set_heap h w)
      = Done (rc, bytes) w' ∧
    rc ≠ 0.

(** ** Running the program

    Uninterpreted [double] expressions: an instance of the interface that
    records the operations applied, to run the program on concrete inputs. *)
Inductive dexpr : Type :=
| DConst (z : Z)
| DSub (a b : dexpr)
| DMul (a b : dexpr)
| DDiv (a b : dexpr)
| DLog (a : dexpr).

Definition Symbolic : Double dexpr :=
  {| of_Z := DConst; fsub := DSub; fmul := DMul; fdiv := DDiv; flog := DLog |}.
Definition SymbolicPrint : DoublePrint dexpr :=
  {| fmt_f := λ _ _, list_ascii_of_string "<double>" |}.

(** A world to run the program in: both allocations are granted, getrandom
    is not available, /dev/urandom opens, and the first read is
    interrupted, the second is short, the third hands over nothing. *)
Definition demo_world : world :=
  {| heap := [true; true]; junk := "z"%char; bcrypt := [];
     getrandoms := [None]; opens := [OpenOk];
     reads := [ReadErr EINTR; ReadData (list_ascii_of_string "ab"); ReadData [];
               ReadData (list_ascii_of_string "0123456")];
     errno := 0; strerror := λ _, []; fds := 0; stdout := []; stderr := [] |}.

(** ** Vocabulary for the further properties *)

(** The character line 119 selects for the byte [b]. *)
Definition pick (charset : list ascii) (b : ascii) : ascii :=
  default NUL (load charset (uchar b mod strlen charset)).

(** The number of byte values for which line 119 selects the character
    [c]. *)
Definition byte_values_for (charset : list ascii) (c : ascii) : nat :=
  length (filter (λ b, load charset (b mod strlen charset) = Some c) (seqZ 0 256)).

(** A world for the Windows build: the generator answers once, with the
    letters from A onwards. *)
Definition windows_world : world :=
  {| heap := [true; true]; junk := "z"%char;
     bcrypt := [Some (λ i, ascii_of_nat (65 + i))];
     getrandoms := []; opens := []; reads := [];
     errno := 0; strerror := λ _, []; fds := 0; stdout := []; stderr := [] |}.

(** ** Rounded arithmetic

    [double] is a floating-point format, and the operations of lines
    141-142 and 201 round their results.  A [Rounding] relates an
    arithmetic on [double] to the real numbers: [finite a] says that [a]
    is neither an infinity nor a NaN, [val a] is the real number a finite
    [a] stands for, [rnd x] is the [double] next to the real number [x] in
    the rounding mode in force, [u_rel] bounds the relative error of a
    result, [u_abs] the error of a result in the underflow range, and
    [huge] is the magnitude up to which results do not overflow. *)
Class Rounding (F : Type) : Type := {
  finite : F → Prop;
  val : F → R;
  rnd : R → R;
  u_rel : R;
  u_abs : R;
  huge : R
}.

(** The laws of a rounded arithmetic.  Subtraction, multiplication and
    division are correctly rounded: their result is the rounding of the
    exact result (IEEE 754).  Rounding is monotone, keeps every [double] as
    it is, and is off by at most [u_rel |x| + u_abs].  Integers up to 2^53
    are converted exactly.  [log] is a library function and need not be
    correctly rounded: it is required to be as accurate as one rounding,
    and not to be positive for arguments up to 1.

    For binary64 with rounding to nearest, every operation rounded to
    [double] on its own, the errors of rounding are bounded by
    [u_rel = 2^-53] and [u_abs = 2^-1075]; a [log] that is accurate to one
    unit in the last place is covered by [u_rel = 2^-52]. *)
Record Rounded {F : Type} (D : Double F) (N : Rounding F) : Prop := {
  u_rel_range : (0 <= u_rel ∧ 2 ^ 20 * u_rel <= 1)%R;
  u_abs_range : (0 <= u_abs ∧ 2 ^ 53 * u_abs <= u_rel)%R;
  huge_range : (2 ^ 10 <= huge)%R;
  rnd_mono : ∀ x y : R, (x <= y)%R → (rnd x <= rnd y)%R;
  rnd_val : ∀ a : F, finite a → rnd (val a) = val a;
  rnd_err : ∀ x : R,
    (Rabs x <= huge)%R → (Rabs (rnd x - x) <= u_rel * Rabs x + u_abs)%R;
  of_Z_val : ∀ z : Z, 0 ≤ z ≤ 2 ^ 53 → finite (of_Z z) ∧ val (of_Z z) = IZR z;
  fsub_val : ∀ a b : F,
    finite a → finite b → (Rabs (val a - val b) <= huge)%R →
    finite (fsub a b) ∧ val (fsub a b) = rnd (val a - val b);
  fmul_val : ∀ a b : F,
    finite a → finite b → (Rabs (val a * val b) <= huge)%R →
    finite (fmul a b) ∧ val (fmul a b) = rnd (val a * val b);
  fdiv_val : ∀ a b : F,
    finite a → finite b → val b ≠ 0%R → (Rabs (val a / val b) <= huge)%R →
    finite (fdiv a b) ∧ val (fdiv a b) = rnd (val a / val b);
  flog_val : ∀ a : F,
    finite a → (0 < val a)%R →
    finite (flog a) ∧
    (Rabs (val (flog a) - ln (val a)) <= u_rel * Rabs (ln (val a)) + u_abs)%R;
  flog_sign : ∀ a : F, finite a → (0 < val a <= 1)%R → (val (flog a) <= 0)%R
}.

(** The Shannon entropy of the byte frequencies of [s] in exact
    arithmetic: what lines 139-144 compute when no operation rounds. *)
Definition exact_entropy (s : list ascii) : R :=
  (- sum_terms (Z.of_nat (length s)) (counters s))%R.

(** The error that the statements below allow for the entropy computed in
    a rounded arithmetic: 256 terms, each within [2^11 u_rel]. *)
Definition entropy_tolerance {F : Type} (N : Rounding F) : R := (2 ^ 19 * u_rel)%R.

(** An arithmetic that rounds: fixed point with 100 binary digits after
    the point, every result rounded down. *)
Definition round_down (x : R) : R := (IZR (Zfloor (x * 2 ^ 100)) / 2 ^ 100)%R.

Definition FixedPoint : Double R :=
  {| of_Z := IZR;
     fsub := λ a b, round_down (a - b);
     fmul := λ a b, round_down (a * b);
     fdiv := λ a b, round_down (a / b);
     flog := λ a, round_down (ln a) |}.

Definition FixedPointRounding : Rounding R :=
  {| finite := λ a, round_down a = a;
     val := λ a, a;
     rnd := round_down;
     u_rel := (/ 2 ^ 47)%R;
     u_abs := (/ 2 ^ 100)%R;
     huge := (2 ^ 10)%R |}.

(** Exact arithmetic, which does not round at all. *)
Definition RealRounding : Rounding R :=
  {| finite := λ _, True;
     val := λ a, a;
     rnd := λ x, x;
     u_rel := 0%R;
     u_abs := 0%R;
     huge := (2 ^ 10)%R |}.

(** * Properties *)

(** Turn the boolean comparisons among the hypotheses into propositions. *)
Ltac zbool :=
  repeat match goal with
    | H : (_ <=? _) = true |- _ => apply Z.leb_le in H
    | H : (_ <=? _) = false |- _ => apply Z.leb_gt in H
    | H : (_ <? _) = true |- _ => apply Z.ltb_lt in H
    | H : (_ <? _) = false |- _ => apply Z.ltb_ge in H
    | H : (_ =? _) = true |- _ => apply Z.eqb_eq in H
    | H : (_ =? _) = false |- _ => apply Z.eqb_neq in H
    end.

(** ** C strings *)

Lemma uchar_range c : 0 ≤ uchar c < 256.
Proof.
  unfold uchar. pose proof (N_ascii_bounded c) as Hb. lia.
Qed.

Lemma uchar_inj c d : uchar c = uchar d → c = d.
Proof.
  unfold uchar. intros Heq. apply N2Z.inj in Heq.
  rewrite <- (ascii_N_embedding c), <- (ascii_N_embedding d). by rewrite Heq.
Qed.

Lemma is_nul_true c : is_nul c = true ↔ c = NUL.
Proof.
  unfold is_nul. rewrite Z.eqb_eq. split.
  - intros Hz. by apply uchar_inj.
  - by intros ->.
Qed.

Lemma c_str_no_nul p : Forall (λ c, is_nul c = false) (c_str p).
Proof.
  induction p as [|c p IH]; simpl; [constructor|].
  destruct (is_nul c) eqn:Hc; [constructor|]. by constructor.
Qed.

Lemma c_str_length_le p : (length (c_str p) ≤ length p)%nat.
Proof.
  induction p as [|c p IH]; simpl; [lia|]. destruct (is_nul c); simpl; lia.
Qed.

Lemma lookup_c_str p i :
  (i < length (c_str p))%nat → p !! i = c_str p !! i.
Proof.
  revert i. induction p as [|c p IH]; intros i; simpl; [lia|].
  destruct (is_nul c); simpl; [lia|]. destruct i; simpl; [done|].
  intros Hi. apply IH. lia.
Qed.

(** The string denoted by [s] followed by a terminator is [s]. *)
Lemma c_str_terminated s rest :
  Forall (λ c, is_nul c = false) s → is_nul (deref rest) = true →
  c_str (s ++ rest) = s.
Proof.
  intros Hs Hrest. induction Hs as [|c s Hc _ IH]; simpl.
  - destruct rest as [|r rest]; simpl in *; [done|]. by rewrite Hrest.
  - by rewrite Hc, IH.
Qed.

Lemma strlen_nonneg p : 0 ≤ strlen p.
Proof. unfold strlen. lia. Qed.

(** A byte read at an index below [strlen] belongs to the string. *)
Lemma load_in_c_str p i c :
  i < strlen p → load p i = Some c → c ∈ c_str p.
Proof.
  unfold load, strlen. intros Hi Hl. destruct (0 <=? i) eqn:H0; [|done].
  zbool. rewrite lookup_c_str in Hl by lia.
  by eapply list_elem_of_lookup_2.
Qed.

Lemma load_below_strlen p i :
  0 ≤ i < strlen p → is_Some (load p i).
Proof.
  unfold load, strlen. intros Hi. destruct (0 <=? i) eqn:H0; zbool; [|lia].
  rewrite lookup_c_str by lia. apply lookup_lt_is_Some. lia.
Qed.

(** ** C3 *)

(** C3, as amended: the three character-set constants hold 88, 62 and 10
    characters; each is non-empty and has no duplicate character. *)
Theorem charset_sizes :
  strlen CHARSET_FULL = 88 ∧ strlen CHARSET_ALNUM = 62 ∧ strlen CHARSET_NUM = 10 ∧
  Forall (λ C, 1 ≤ strlen C ∧ NoDup (c_str C))
         [CHARSET_FULL; CHARSET_ALNUM; CHARSET_NUM].
Proof.
  repeat split; try reflexivity.
  repeat constructor; try (by vm_compute);
    apply (bool_decide_unpack _); vm_compute; exact I.
Qed.

(** C3 as the specification states it fails: [CHARSET_FULL] does not hold
    90 characters. *)
Lemma charset_full_not_90 :
  ¬ (strlen CHARSET_FULL = 90 ∧ strlen CHARSET_ALNUM = 62 ∧ strlen CHARSET_NUM = 10).
Proof. intros [Hfull _]. vm_compute in Hfull. discriminate. Qed.

(** ** The conversion loop of generate_random_string *)

Lemma store_Some p i c p' :
  store p i c = Some p' →
  0 ≤ i < Z.of_nat (length p) ∧ p' = <[Z.to_nat i := c]> p.
Proof.
  unfold store. destruct (0 <=? i) eqn:H0; simpl; [|done].
  destruct (i <? Z.of_nat (length p)) eqn:H1; [|done].
  zbool. by intros [= <-].
Qed.

Lemma load_nat p (j : nat) : load p (Z.of_nat j) = p !! j.
Proof.
  unfold load. destruct (0 <=? Z.of_nat j) eqn:H0; zbool; [|lia].
  by rewrite Nat2Z.id.
Qed.

Lemma convert_byte_Some charset rb size i result r :
  convert_byte charset rb size i result = Some r →
  ∃ b c, load rb i = Some b ∧ size ≠ 0 ∧
         load charset (uchar b mod size) = Some c ∧ store result i c = Some r.
Proof.
  unfold convert_byte. destruct (load rb i) as [b|]; [|done]. cbn [mbind option_bind].
  destruct (size =? 0) eqn:Hsz; [done|]. zbool.
  destruct (load charset (uchar b mod size)) as [c|] eqn:Hc; [|done].
  cbn [mbind option_bind]. intros Hst. by exists b, c.
Qed.

(** After [n] iterations from index [i], the [n] positions from [i] hold
    the mapped bytes and every other position is as before. *)
Lemma convert_loop_spec charset rb size n : ∀ (i : nat) result result',
  for_loop n (Z.of_nat i) (convert_byte charset rb size) result = Some result' →
  length result' = length result ∧
  (∀ j, (j < i ∨ i + n ≤ j)%nat → result' !! j = result !! j) ∧
  (∀ j, (i ≤ j < i + n)%nat →
     ∃ b c, rb !! j = Some b ∧ size ≠ 0 ∧
            load charset (uchar b mod size) = Some c ∧ result' !! j = Some c).
Proof.
  induction n as [|n IH]; intros i result result'; cbn [for_loop].
  - intros [= <-]. repeat split; intros; try done; lia.
  - destruct (convert_byte charset rb size (Z.of_nat i) result) as [r1|] eqn:Hbody;
      simpl; [|done].
    apply convert_byte_Some in Hbody as (b & c & Hb & Hsz & Hc & Hst).
    rewrite load_nat in Hb.
    apply store_Some in Hst as [Hi ->]. rewrite Nat2Z.id.
    replace (Z.of_nat i + 1) with (Z.of_nat (S i)) by lia.
    intros Hloop. apply IH in Hloop as (Hlen & Hout & Hin).
    rewrite length_insert in Hlen. repeat split; [done| |].
    + intros j Hj. rewrite Hout by lia. apply list_lookup_insert_ne. lia.
    + intros j Hj. destruct (decide (j = i)) as [->|Hne].
      * exists b, c. rewrite Hout by lia.
        rewrite list_lookup_insert_eq by lia. done.
      * apply Hin. lia.
Qed.

(** ** generate_random_string *)

Lemma bind_Done {A B} (m : M A) (k : A → M B) w b w' :
  bind m k w = Done b w' → ∃ a w1, m w = Done a w1 ∧ k a w1 = Done b w'.
Proof.
  unfold bind. destruct (m w) as [a w1| |]; [|done|done]. intros Hk. by exists a, w1.
Qed.

Lemma malloc_Done n w r w' :
  malloc n w = Done r w' →
  (∃ h, heap w = true :: h ∧ r = Some (replicate (Z.to_nat n) (junk w)) ∧ w' = set_heap h w)
  ∨ (r = None ∧ stdout w' = stdout w).
Proof.
  unfold malloc. destruct (heap w) as [|[] h] eqn:Hh; intros [= <- <-].
  - by right.
  - left. by exists h.
  - by right.
Qed.

Lemma defined_Done {A} (o : option A) w a w' :
  defined o w = Done a w' → o = Some a ∧ w' = w.
Proof. unfold defined. destruct o; [|done]. by intros [= <- <-]. Qed.

(** What a successful call has done: both allocations were granted, the
    random source reported success, and the block returned holds the
    mapped bytes followed by the terminator. *)
Lemma generate_random_string_success plat len charset w p w' :
  generate_random_string plat len charset w = Done (Some p) w' →
  ∃ h bytes,
    heap w = true :: true :: h ∧
    get_random_bytes plat (replicate (Z.to_nat len) (junk w)) len (set_heap h w)
      = Done (0, bytes) w' ∧
    0 ≤ len < SIZE_MOD - 1 ∧
    length p = S (Z.to_nat len) ∧
    p !! Z.to_nat len = Some NUL ∧
    ∀ j, (j < Z.to_nat len)%nat →
      ∃ b c, bytes !! j = Some b ∧ strlen charset ≠ 0 ∧
             load charset (uchar b mod strlen charset) = Some c ∧ p !! j = Some c.
Proof.
  unfold generate_random_string. intros Hrun.
  apply bind_Done in Hrun as (r1 & w1 & Hm1 & Hrun).
  apply malloc_Done in Hm1 as [(h1 & Hh1 & -> & ->)|[-> _]]; [|done].
  apply bind_Done in Hrun as (r2 & w2 & Hm2 & Hrun).
  apply malloc_Done in Hm2 as [(h & Hh & -> & ->)|[-> _]]; [|done].
  simpl in Hh. subst h1.
  apply bind_Done in Hrun as ([rc bytes] & w3 & Hrand & Hrun).
  destruct (rc =? 0) eqn:Hrc; simpl in Hrun; [|done]. zbool. subst rc.
  apply bind_Done in Hrun as (r3 & w4 & Hloop & Hrun).
  apply defined_Done in Hloop as [Hloop ->].
  apply bind_Done in Hrun as (r4 & w5 & Hst & Hrun).
  apply defined_Done in Hst as [Hst ->].
  injection Hrun as -> ->.
  apply (convert_loop_spec _ _ _ _ 0%nat) in Hloop as (Hlen & Hout & Hin).
  apply store_Some in Hst as [Hi ->].
  rewrite Hlen, length_replicate in Hi.
  assert (0 ≤ len < SIZE_MOD - 1) as Hrange.
  { assert (0 < SIZE_MOD) by done.
    pose proof (Z.mod_pos_bound (len + 1) SIZE_MOD ltac:(done)).
    destruct (decide (len + 1 < SIZE_MOD)) as [|Hge]; [lia|].
    pose proof (Z.mod_le (len + 1) SIZE_MOD). 
    assert ((len + 1) mod SIZE_MOD = (len + 1 - SIZE_MOD) mod SIZE_MOD) as Heq.
    { replace (len + 1) with ((len + 1 - SIZE_MOD) + 1 * SIZE_MOD) at 1 by lia.
      by rewrite Z.mod_add. }
    pose proof (Z.mod_le (len + 1 - SIZE_MOD) SIZE_MOD). lia. }
  rewrite Z.mod_small in Hlen, Hi by lia.
  exists h, bytes. repeat split; try done; try lia.
  - rewrite length_insert, Hlen, length_replicate. lia.
  - apply list_lookup_insert_eq. rewrite Hlen, length_replicate. lia.
  - intros j Hj. destruct (Hin j) as (b & c & Hb & Hsz & Hc & Hp); [lia|].
    exists b, c. repeat split; try done.
    rewrite list_lookup_insert_ne by lia. done.
Qed.

(** A block whose first [n] bytes are not NUL and whose byte [n] is NUL
    denotes the string made of its first [n] bytes. *)
Lemma c_str_take n : ∀ p,
  p !! n = Some NUL →
  (∀ j c, (j < n)%nat → p !! j = Some c → is_nul c = false) →
  c_str p = take n p.
Proof.
  induction n as [|n IH]; intros [|c p] Hn Hpre; simpl in *; try done.
  - injection Hn as ->. done.
  - rewrite (Hpre 0%nat c) by (done || lia). f_equal. apply IH; [done|].
    intros j d Hj Hd. apply (Hpre (S j)); [lia|done].
Qed.

Lemma mod_index b size : 0 < size → 0 ≤ uchar b mod size < size.
Proof. intros. by apply Z.mod_pos_bound. Qed.

(** Every byte of the result before the terminator is a character of the
    character set. *)
Lemma generate_random_string_chars plat len charset w p w' :
  generate_random_string plat len charset w = Done (Some p) w' →
  ∀ j c, (j < Z.to_nat len)%nat → p !! j = Some c → c ∈ c_str charset.
Proof.
  intros Hrun j c Hj Hc.
  apply generate_random_string_success in Hrun as (h & bytes & _ & _ & _ & _ & _ & Hchars).
  destruct (Hchars j Hj) as (b & c' & _ & Hsz & Hload & Hp).
  assert (c' = c) as -> by congruence.
  pose proof (strlen_nonneg charset).
  eapply load_in_c_str; [|done]. apply mod_index. lia.
Qed.

(** The block a successful call returns denotes the string made of its
    first [len] bytes. *)
Lemma generate_random_string_shape plat len charset w p w' :
  generate_random_string plat len charset w = Done (Some p) w' →
  0 ≤ len ∧ c_str p = take (Z.to_nat len) p ∧ length p = S (Z.to_nat len).
Proof.
  intros Hrun. pose proof (generate_random_string_chars _ _ _ _ _ _ Hrun) as Hmem.
  apply generate_random_string_success in Hrun
    as (h & bytes & _ & _ & Hlen & Hsize & Hnul & _).
  repeat split; [lia| |done].
  apply c_str_take; [done|]. intros j c Hj Hc.
  pose proof (c_str_no_nul charset) as Hnn. rewrite Forall_forall in Hnn.
  apply Hnn. by eapply Hmem.
Qed.

(** C1: when [generate_random_string] succeeds, the string it returns has
    exactly [len] characters and each of them is a character of the
    character set.  This holds for every character set, in particular for
    the three constants. *)
Theorem generate_random_string_length_and_members plat len charset w p w' :
  generate_random_string plat len charset w = Done (Some p) w' →
  strlen p = len ∧ ∀ c, c ∈ c_str p → c ∈ c_str charset.
Proof.
  intros Hrun.
  pose proof (generate_random_string_chars _ _ _ _ _ _ Hrun) as Hmem.
  apply generate_random_string_shape in Hrun as (Hlen & Hstr & Hsize).
  split.
  - unfold strlen. rewrite Hstr, length_take. lia.
  - intros c Hc. rewrite Hstr in Hc.
    apply list_elem_of_lookup in Hc as [j Hj].
    apply lookup_take_Some in Hj as [Hj Hlt]. by eapply Hmem.
Qed.

(** C2: when [generate_random_string] succeeds, the bytes [bytes] that
    [get_random_bytes] left in the buffer determine the result position by
    position: the character at index [i] is
    [charset[bytes[i] % strlen(charset)]], for every [i] below [len]. *)
Theorem generate_random_string_positionwise plat len charset w p w' :
  generate_random_string plat len charset w = Done (Some p) w' →
  ∃ h bytes,
    heap w = true :: true :: h ∧
    get_random_bytes plat (replicate (Z.to_nat len) (junk w)) len (set_heap h w)
      = Done (0, bytes) w' ∧
    ∀ i, 0 ≤ i < len →
      ∃ b c, load bytes i = Some b ∧
             load charset (uchar b mod strlen charset) = Some c ∧
             load p i = Some c.
Proof.
  intros Hrun.
  apply generate_random_string_success in Hrun
    as (h & bytes & Hheap & Hrand & Hlen & Hsize & Hnul & Hchars).
  exists h, bytes. repeat split; [done..|].
  intros i Hi. destruct (Hchars (Z.to_nat i)) as (b & c & Hb & _ & Hc & Hp); [lia|].
  assert (∀ q, load q i = q !! Z.to_nat i) as Hload.
  { intros q. rewrite <- load_nat. f_equal. lia. }
  exists b, c. by rewrite !Hload.
Qed.

(** On Linux, when [getrandom] supplies the whole count, the buffer holds
    the bytes it supplied, in order. *)
Lemma get_random_bytes_getrandom buf bs g w :
  getrandoms w = Some bs :: g →
  (length buf ≤ length bs)%nat → Z.of_nat (length buf) ≤ SSIZE_MAX →
  get_random_bytes Linux buf (Z.of_nat (length buf)) w
  = Done (0, take (length buf) bs) (set_getrandoms g w).
Proof.
  intros Hg Hlen Hmax. unfold get_random_bytes, bind, getrandom. rewrite Hg.
  rewrite Nat2Z.id, length_take, Nat.min_l by done.
  unfold to_ssize. rewrite (proj2 (Z.leb_le _ _) Hmax), Z.eqb_refl.
  unfold ret. do 2 f_equal.
  rewrite <- (app_nil_r buf) at 2. rewrite list_inserts_0_r.
  - apply app_nil_r.
  - rewrite length_take. lia.
Qed.

(** ** The read loop of get_random_bytes *)

Lemma list_inserts_splice {A} (k l : list A) i :
  (i + length k ≤ length l)%nat →
  list_inserts i k l = take i l ++ k ++ drop (i + length k) l.
Proof.
  intros Hlen.
  rewrite <- (take_drop i l) at 1.
  rewrite <- (take_drop (length k) (drop i l)).
  replace i with (length (take i l) + 0)%nat at 1 by (rewrite length_take; lia).
  rewrite list_inserts_app_r, list_inserts_0_r, drop_drop.
  - done.
  - rewrite length_take, length_drop. lia.
Qed.

(** One partial read: the buffer prefix grows by what was handed over. *)
Lemma splice_step (buf bs D : list ascii) (br : nat) :
  (br ≤ length buf)%nat →
  let got := take (length buf - br) bs in
  take (br + length got) (list_inserts br got buf)
    ++ take (length buf - (br + length got)) D
  = take br buf ++ take (length buf - br) (bs ++ D).
Proof.
  intros Hbr got.
  assert (length got ≤ length buf - br)%nat as Hgot
    by (unfold got; rewrite length_take; lia).
  rewrite list_inserts_splice by lia.
  rewrite take_app_ge by (rewrite length_take; lia).
  rewrite length_take, Nat.min_l by lia.
  replace (br + length got - br)%nat with (length got) by lia.
  rewrite take_app_le by lia. rewrite firstn_all.
  rewrite <- app_assoc. f_equal.
  rewrite take_app. f_equal.
  destruct (decide (length bs ≤ length buf - br)%nat) as [Hle|Hgt].
  - subst got. rewrite (take_ge bs) by lia. f_equal. lia.
  - assert (length got = length buf - br)%nat
      by (unfold got; rewrite length_take; lia).
    replace (length buf - (br + length got))%nat with 0%nat by lia.
    replace (length buf - br - length bs)%nat with 0%nat by lia. done.
Qed.

Lemma delivered_cons_data bs s : delivered (ReadData bs :: s) = bs ++ delivered s.
Proof. done. Qed.
Lemma delivered_cons_err e s : delivered (ReadErr e :: s) = delivered s.
Proof. done. Qed.

(** What one iteration of the loop does, by the reply it receives. *)
Lemma read_loop_done fuel fd buf len :
  read_loop fuel fd buf len len = ret (Completed len, buf).
Proof. destruct fuel; simpl; by rewrite Z.ltb_irrefl. Qed.

Lemma read_loop_data fuel fd buf br len bs r w :
  br < len → reads w = ReadData bs :: r →
  read_loop (S fuel) fd buf br len w =
  let got := take (Z.to_nat (len - br)) bs in
  read_loop fuel fd (list_inserts (Z.to_nat br) got buf)
            (br + Z.of_nat (length got)) len (set_reads r w).
Proof.
  intros Hlt Hr. cbn [read_loop]. rewrite (proj2 (Z.ltb_lt _ _) Hlt).
  unfold bind at 1, read. rewrite Hr. cbn zeta.
  destruct (Z.of_nat _ <? 0) eqn:Hneg; [zbool; lia|done].
Qed.

Lemma read_loop_eintr fuel fd buf br len r w :
  br < len → reads w = ReadErr EINTR :: r →
  read_loop (S fuel) fd buf br len w =
  read_loop fuel fd buf br len (set_errno EINTR (set_reads r w)).
Proof.
  intros Hlt Hr. cbn [read_loop]. rewrite (proj2 (Z.ltb_lt _ _) Hlt).
  unfold bind at 1, read. rewrite Hr. done.
Qed.

Lemma read_loop_error fuel fd buf br len e r w :
  br < len → reads w = ReadErr e :: r → e ≠ EINTR →
  ∃ w', read_loop (S fuel) fd buf br len w = Done (Returned (-1), buf) w' ∧
        reads w' = r ∧ stdout w' = stdout w ∧ heap w' = heap w ∧
        fds w' = pred (fds w).
Proof.
  intros Hlt Hr He. cbn [read_loop]. rewrite (proj2 (Z.ltb_lt _ _) Hlt).
  unfold bind at 1, read. rewrite Hr. cbn.
  rewrite (proj2 (Z.eqb_neq _ _) He). eexists. split; [reflexivity|]. done.
Qed.

Ltac nat_index :=
  repeat match goal with
    | |- context [Z.to_nat (Z.of_nat ?a - Z.of_nat ?b)] =>
        replace (Z.to_nat (Z.of_nat a - Z.of_nat b)) with (a - b)%nat by lia
    | |- context [Z.to_nat (Z.of_nat ?a)] => rewrite (Nat2Z.id a)
    | |- context [Z.of_nat ?a + Z.of_nat ?b] =>
        replace (Z.of_nat a + Z.of_nat b) with (Z.of_nat (a + b)) by lia
    end.

(** Replies without failure that offer enough bytes let the loop run to
    completion; the buffer then holds the first bytes offered, in order. *)
Lemma read_loop_collects used : ∀ fuel rest fd buf (b : nat) w,
  reads w = used ++ rest →
  Forall (λ r, read_failed r = false) used →
  (length buf - b ≤ length (delivered used))%nat →
  (b ≤ length buf)%nat → (length used ≤ fuel)%nat →
  ∃ w', read_loop fuel fd buf (Z.of_nat b) (Z.of_nat (length buf)) w
        = Done (Completed (Z.of_nat (length buf)),
                take b buf ++ take (length buf - b) (delivered used)) w' ∧
        stdout w' = stdout w ∧ heap w' = heap w ∧ fds w' = fds w.
Proof.
  induction used as [|r used IH]; intros fuel rest fd buf b w Hr Hok Hneed Hb Hfuel.
  - simpl in Hneed. assert (b = length buf) as -> by lia.
    rewrite read_loop_done. exists w. rewrite take_ge by lia.
    by rewrite Nat.sub_diag, take_0, app_nil_r.
  - destruct (decide (b = length buf)) as [->|Hne].
    { rewrite read_loop_done. exists w. rewrite take_ge by lia.
      by rewrite Nat.sub_diag, take_0, app_nil_r. }
    destruct fuel as [|fuel]; [simpl in Hfuel; lia|].
    apply Forall_cons in Hok as [Hr0 Hok]. simpl in Hr, Hfuel.
    destruct r as [bs|e].
    + rewrite (read_loop_data _ _ _ _ _ bs (used ++ rest)) by (done || lia).
      cbn zeta. nat_index.
      set (got := take (length buf - b) bs).
      set (buf1 := list_inserts b got buf).
      assert (length buf1 = length buf) as Hlen1 by apply length_inserts.
      assert (length got ≤ length buf - b)%nat
        by (unfold got; rewrite length_take; lia).
      rewrite <- Hlen1.
      destruct (IH fuel rest fd buf1 (b + length got)%nat (set_reads (used ++ rest) w))
        as (w' & Hrun & Hout); [done|done| |lia|lia|].
      { rewrite Hlen1. rewrite delivered_cons_data, length_app in Hneed.
        unfold got. rewrite length_take. lia. }
      exists w'. split; [|done]. rewrite Hrun. do 2 f_equal.
      rewrite Hlen1. unfold buf1, got. apply splice_step. lia.
    + simpl in Hr0. apply negb_false_iff in Hr0. zbool. subst e.
      rewrite (read_loop_eintr _ _ _ _ _ (used ++ rest)) by (done || lia).
      destruct (IH fuel rest fd buf b (set_errno EINTR (set_reads (used ++ rest) w)))
        as (w' & Hrun & Hout); [done|done|done|lia|lia|].
      exists w'. by split.
Qed.

(** A failure that is not an interruption, met before enough bytes have
    been collected, ends the loop through its [return -1]. *)
Lemma read_loop_fails pre : ∀ fuel e rest fd buf (b : nat) w,
  reads w = pre ++ ReadErr e :: rest → e ≠ EINTR →
  Forall (λ r, read_failed r = false) pre →
  (length (delivered pre) < length buf - b)%nat →
  (length pre < fuel)%nat →
  ∃ buf' w', read_loop fuel fd buf (Z.of_nat b) (Z.of_nat (length buf)) w
             = Done (Returned (-1), buf') w' ∧
             stdout w' = stdout w ∧ heap w' = heap w ∧ fds w' = pred (fds w).
Proof.
  induction pre as [|r pre IH]; intros fuel e rest fd buf b w Hr He Hok Hneed Hfuel;
    (destruct fuel as [|fuel]; [simpl in Hfuel; lia|]); simpl in Hr, Hfuel.
  - destruct (read_loop_error fuel fd buf (Z.of_nat b) (Z.of_nat (length buf)) e rest w)
      as (w' & Hrun & _ & Hout); [lia|done|done|].
    by exists buf, w'.
  - apply Forall_cons in Hok as [Hr0 Hok]. destruct r as [bs|e0].
    + rewrite delivered_cons_data, length_app in Hneed.
      rewrite (read_loop_data _ _ _ _ _ bs (pre ++ ReadErr e :: rest)) by (done || lia).
      cbn zeta. nat_index.
      rewrite (take_ge bs) by lia.
      set (buf1 := list_inserts b bs buf).
      assert (length buf1 = length buf) as Hlen1 by apply length_inserts.
      rewrite <- Hlen1.
      destruct (IH fuel e rest fd buf1 (b + length bs)%nat
                  (set_reads (pre ++ ReadErr e :: rest) w))
        as (buf' & w' & Hrun & Hout); [done|done|done|lia|lia|].
      by exists buf', w'.
    + simpl in Hr0. apply negb_false_iff in Hr0. zbool. subst e0.
      rewrite delivered_cons_err in Hneed.
      rewrite (read_loop_eintr _ _ _ _ _ (pre ++ ReadErr e :: rest)) by (done || lia).
      destruct (IH fuel e rest fd buf b
                  (set_errno EINTR (set_reads (pre ++ ReadErr e :: rest) w)))
        as (buf' & w' & Hrun & Hout); [done|done|done|lia|lia|].
      by exists buf', w'.
Qed.

(** Conversely, however the loop ends, the replies it consumed explain it. *)
Lemma read_loop_inv fuel : ∀ fd buf (b : nat) w ex buf' w',
  read_loop fuel fd buf (Z.of_nat b) (Z.of_nat (length buf)) w = Done (ex, buf') w' →
  (b ≤ length buf)%nat →
  ∃ used, reads w = used ++ reads w' ∧
    match ex with
    | Completed n =>
        n = Z.of_nat (length buf) ∧
        Forall (λ r, read_failed r = false) used ∧
        (length buf - b ≤ length (delivered used))%nat ∧
        buf' = take b buf ++ take (length buf - b) (delivered used)
    | Returned rc =>
        rc = -1 ∧
        ∃ pre e, used = pre ++ [ReadErr e] ∧ e ≠ EINTR ∧
                 Forall (λ r, read_failed r = false) pre ∧
                 (length (delivered pre) < length buf - b)%nat
    end.
Proof.
  induction fuel as [|fuel IH]; intros fd buf b w ex buf' w' Hrun Hb.
  - simpl in Hrun. destruct (Z.of_nat b <? Z.of_nat (length buf)) eqn:Hlt; [done|].
    zbool. injection Hrun as <- <- <-. exists []. repeat split; try done; try lia.
    assert (b = length buf) as -> by lia.
    by rewrite take_ge, Nat.sub_diag, take_0, app_nil_r by lia.
  - destruct (decide (b = length buf)) as [->|Hne].
    { rewrite read_loop_done in Hrun. injection Hrun as <- <- <-.
      exists []. repeat split; try done; try lia.
      by rewrite take_ge, Nat.sub_diag, take_0, app_nil_r by lia. }
    destruct (reads w) as [|[bs|e] r] eqn:Hr.
    + cbn [read_loop] in Hrun.
      rewrite (proj2 (Z.ltb_lt (Z.of_nat b) (Z.of_nat (length buf)))) in Hrun by lia.
      unfold bind at 1, read in Hrun. by rewrite Hr in Hrun.
    + rewrite (read_loop_data _ _ _ _ _ bs r) in Hrun by (done || lia).
      cbn zeta in Hrun. revert Hrun. nat_index. intros Hrun.
      set (got := take (length buf - b) bs) in *.
      set (buf1 := list_inserts b got buf) in *.
      assert (length buf1 = length buf) as Hlen1 by apply length_inserts.
      assert (length got ≤ length buf - b)%nat
        by (unfold got; rewrite length_take; lia).
      rewrite <- Hlen1 in Hrun.
      apply IH in Hrun as (used & Hused & Hex); [|lia]. simpl in Hused.
      exists (ReadData bs :: used). split; [by rewrite Hused|].
      destruct ex as [rc|n].
      * destruct Hex as (-> & pre & e & -> & He & Hok & Hshort).
        split; [done|]. exists (ReadData bs :: pre), e.
        repeat split; try done; [by constructor|].
        rewrite delivered_cons_data, length_app.
        assert (length got = length bs); [|lia].
        unfold got. rewrite length_take. unfold got in *.
        rewrite length_take in Hshort. lia.
      * destruct Hex as (-> & Hok & Hneed & ->).
        repeat split; [lia|by constructor| |].
        -- rewrite delivered_cons_data, length_app.
           unfold got in Hneed. rewrite length_take in Hneed. lia.
        -- rewrite Hlen1. unfold buf1, got. rewrite delivered_cons_data.
           apply splice_step. lia.
    + destruct (decide (e = EINTR)) as [->|He].
      * rewrite (read_loop_eintr _ _ _ _ _ r) in Hrun by (done || lia).
        apply IH in Hrun as (used & Hused & Hex); [|lia]. simpl in Hused.
        exists (ReadErr EINTR :: used). split; [by rewrite Hused|].
        destruct ex as [rc|n].
        -- destruct Hex as (-> & pre & e & -> & He & Hok & Hshort).
           split; [done|]. exists (ReadErr EINTR :: pre), e.
           repeat split; try done. by constructor.
        -- destruct Hex as (-> & Hok & Hneed & ->).
           repeat split; try done. by constructor.
      * destruct (read_loop_error fuel fd buf (Z.of_nat b) (Z.of_nat (length buf)) e r w)
          as (w1 & Hrun1 & Hr1 & _); [lia|done|done|].
        rewrite Hrun1 in Hrun. injection Hrun as <- <- <-.
        exists [ReadErr e]. split; [by rewrite Hr1|]. split; [done|].
        exists [], e. repeat split; try done. simpl. lia.
Qed.

Lemma urandom_fallback_opened buf len w o :
  opens w = OpenOk :: o →
  urandom_fallback buf len w =
  let w1 := set_fds (S (fds w)) (set_opens o w) in
  match read_loop (length (reads w)) 3 buf 0 len w1 with
  | Done (Returned rc, buffer) w2 => Done (rc, buffer) w2
  | Done (Completed _, buffer) w2 => Done (0, buffer) (set_fds (pred (fds w2)) w2)
  | Hang w2 => Hang w2
  | Undef => Undef
  end.
Proof.
  intros Ho. unfold urandom_fallback, bind at 1, open_urandom. rewrite Ho.
  cbn zeta. change (3 <? 0) with false. cbn iota. unfold bind at 1.
  change (reads (set_fds _ (set_opens o w))) with (reads w).
  destruct (read_loop _ _ _ _ _ _) as [[[rc|n] buffer] w2|w2|]; done.
Qed.

(** C4: the fallback path of [get_random_bytes] (the whole function on a
    Unix other than Linux), once /dev/urandom is open, for a buffer of
    [count] bytes.  (1) Replies that are data or
    interruptions and that together offer at least [count] bytes make the
    call succeed, the buffer holding the first [count] bytes offered, in
    order: an interruption is retried and partial reads accumulate.
    (2) Whenever the call reports success, the replies it consumed contain
    no failure other than interruptions and the buffer holds exactly
    [count] bytes, the first [count] they offered.  (3) A failure other
    than an interruption met before [count] bytes were collected makes the
    call return -1. *)
Theorem get_random_bytes_fallback buf w o :
  opens w = OpenOk :: o →
  let count := length buf in
  (∀ used rest,
     reads w = used ++ rest →
     Forall (λ r, read_failed r = false) used →
     (count ≤ length (delivered used))%nat →
     ∃ w', get_random_bytes Unix buf (Z.of_nat count) w
           = Done (0, take count (delivered used)) w') ∧
  (∀ buf' w',
     get_random_bytes Unix buf (Z.of_nat count) w = Done (0, buf') w' →
     ∃ used, reads w = used ++ reads w' ∧
             Forall (λ r, read_failed r = false) used ∧
             (count ≤ length (delivered used))%nat ∧
             buf' = take count (delivered used) ∧ length buf' = count) ∧
  (∀ pre e rest,
     reads w = pre ++ ReadErr e :: rest → e ≠ EINTR →
     Forall (λ r, read_failed r = false) pre →
     (length (delivered pre) < count)%nat →
     ∃ buf' w', get_random_bytes Unix buf (Z.of_nat count) w = Done (-1, buf') w').
Proof.
  intros Ho count.
  change (get_random_bytes Unix buf (Z.of_nat count))
    with (urandom_fallback buf (Z.of_nat count)).
  rewrite (urandom_fallback_opened _ _ _ o Ho). cbn zeta.
  set (w1 := set_fds (S (fds w)) (set_opens o w)).
  change 0 with (Z.of_nat 0). subst count.
  split; [|split].
  - intros used rest Hr Hok Hneed.
    destruct (read_loop_collects used (length (reads w)) rest 3 buf 0%nat w1)
      as (w' & Hrun & _); [done|done|lia|lia|rewrite Hr, length_app; lia|].
    rewrite Hrun. rewrite take_0, Nat.sub_0_r. simpl. by eexists.
  - intros buf' w' Hrun.
    destruct (read_loop _ _ _ _ _ _) as [[[rc|n] buffer] w2|w2|] eqn:Hloop; try done.
    + injection Hrun as -> -> ->.
      apply read_loop_inv in Hloop as (used & _ & Hrc & _); [|lia]. done.
    + injection Hrun as -> <-.
      apply read_loop_inv in Hloop as (used & Hused & _ & Hok & Hneed & ->); [|lia].
      rewrite take_0, Nat.sub_0_r in *. simpl.
      exists used. repeat split; try done. rewrite length_take. lia.
  - intros pre e rest Hr He Hok Hshort.
    destruct (read_loop_fails pre (length (reads w)) e rest 3 buf 0%nat w1)
      as (buf' & w' & Hrun & _); [done|done|done|lia| |].
    { rewrite Hr, length_app. simpl. lia. }
    rewrite Hrun. by exists buf', w'.
Qed.

(** On Linux the same path is taken whenever [getrandom] does not supply the
    whole count. *)
Lemma get_random_bytes_linux_fallback buf len g w :
  getrandoms w = None :: g → to_ssize len ≠ -1 →
  get_random_bytes Linux buf len w = urandom_fallback buf len (set_getrandoms g w).
Proof.
  intros Hg Hlen. unfold get_random_bytes, bind at 1, getrandom. rewrite Hg.
  by rewrite (proj2 (Z.eqb_neq (-1) (to_ssize len))).
Qed.

(** ** The degenerate request of length 0 *)

Lemma urandom_fallback_zero w :
  ∃ rc w', urandom_fallback [] 0 w = Done (rc, []) w'.
Proof.
  unfold urandom_fallback, bind at 1, open_urandom.
  destruct (opens w) as [|[|e] o]; cbn -[read_loop].
  - by eexists _, _.
  - unfold bind at 1. rewrite read_loop_done. cbn. by eexists _, _.
  - by eexists _, _.
Qed.

Lemma get_random_bytes_zero plat w :
  ∃ rc w', get_random_bytes plat [] 0 w = Done (rc, []) w'.
Proof.
  destruct plat; unfold get_random_bytes.
  - unfold bind, BCryptGenRandom. destruct (bcrypt w) as [|[g|] b]; cbn; by eexists _, _.
  - unfold bind at 1, getrandom. destruct (getrandoms w) as [|[bs|] g]; cbn -[urandom_fallback].
    + apply urandom_fallback_zero.
    + rewrite take_0. cbn. by eexists _, _.
    + apply urandom_fallback_zero.
  - apply urandom_fallback_zero.
Qed.

Lemma generate_random_string_zero_granted plat charset w h rc w' :
  heap w = true :: true :: h →
  get_random_bytes plat [] 0 (set_heap h w) = Done (rc, []) w' →
  ∃ w'', generate_random_string plat 0 charset w
         = Done (if rc =? 0 then Some [NUL] else None) w''.
Proof.
  intros Hh Hrand. unfold generate_random_string.
  unfold bind at 1, malloc at 1. rewrite Hh.
  unfold bind at 1, malloc at 1. cbn [heap set_heap].
  unfold bind at 1.
  change (replicate (Z.to_nat 0) _) with (@nil ascii).
  change (set_heap h (set_heap (true :: h) w)) with (set_heap h w).
  rewrite Hrand. destruct (rc =? 0); cbn; by eexists.
Qed.

Section EmptyString.
Context {F : Type} {D : Double F}.

Lemma entropy_of_empty (p : list ascii) :
  strlen p = 0 → calculate_shannon_entropy p = Some (of_Z 0).
Proof.
  intros Hlen. unfold calculate_shannon_entropy. rewrite Hlen. reflexivity.
Qed.

(** C6: for every character set, a request of length 0 never hangs and
    has no undefined behaviour; it returns NULL or the empty string, and
    it returns the empty string whenever both allocations are granted and
    the random source reports success.  The entropy of the empty string
    is [0.0], whatever the arithmetic of [double]. *)
Theorem empty_string_cases plat charset w :
  (∃ r w', generate_random_string plat 0 charset w = Done r w' ∧
           (r = None ∨ r = Some [NUL])) ∧
  (∀ h bytes w1,
     heap w = true :: true :: h →
     get_random_bytes plat [] 0 (set_heap h w) = Done (0, bytes) w1 →
     ∃ w', generate_random_string plat 0 charset w = Done (Some [NUL]) w') ∧
  c_str [NUL] = [] ∧
  calculate_shannon_entropy [NUL] = Some (of_Z 0).
Proof.
  split; [|split; [|split; [done|by apply entropy_of_empty]]].
  - destruct (heap w) as [|[] [|[] h]] eqn:Hh.
    1,2,4-7: unfold generate_random_string, bind, malloc; rewrite Hh; cbn;
      try rewrite Hh; cbn; eexists _, _; split; [reflexivity|by left].
    destruct (get_random_bytes_zero plat (set_heap h w)) as (rc & w' & Hrand).
    destruct (generate_random_string_zero_granted plat charset w h rc w' Hh Hrand)
      as (w'' & ->).
    eexists _, _. split; [reflexivity|]. destruct (rc =? 0); auto.
  - intros h bytes w1 Hh Hrand.
    destruct (get_random_bytes_zero plat (set_heap h w)) as (rc & w' & Hrand').
    rewrite Hrand in Hrand'. injection Hrand' as <- -> <-.
    by apply (generate_random_string_zero_granted plat charset w h 0 w1).
Qed.
End EmptyString.

(** ** The counting loop of calculate_shannon_entropy *)

Lemma count_byte_at p pre c suf freq :
  c_str p = pre ++ c :: suf →
  count_byte p (Z.of_nat (length pre)) freq = incr_count c freq.
Proof.
  intros Hp. unfold count_byte. rewrite load_nat, lookup_c_str.
  - rewrite Hp. by rewrite list_lookup_middle.
  - rewrite Hp, length_app. simpl. lia.
Qed.

Lemma count_loop_suffix p suf : ∀ pre freq,
  c_str p = pre ++ suf →
  for_loop (length suf) (Z.of_nat (length pre)) (count_byte p) freq
  = count_all suf freq.
Proof.
  induction suf as [|c suf IH]; intros pre freq Hp; [done|].
  cbn [length for_loop count_all].
  rewrite (count_byte_at p pre c suf) by done.
  destruct (incr_count c freq) as [freq'|]; [|done]. cbn [mbind option_bind].
  replace (Z.of_nat (length pre) + 1) with (Z.of_nat (length (pre ++ [c])))
    by (rewrite length_app; simpl; lia).
  apply IH. by rewrite <- app_assoc.
Qed.

(** The loop of lines 133-135 counts the characters of the string. *)
Lemma count_loop_is_count_all p freq :
  for_loop (Z.to_nat (strlen p)) 0 (count_byte p) freq = count_all (c_str p) freq.
Proof.
  unfold strlen. rewrite Nat2Z.id. by apply (count_loop_suffix p (c_str p) []).
Qed.

Lemma incr_count_Some c freq freq' :
  incr_count c freq = Some freq' →
  ∃ n, freq !! Z.to_nat (uchar c) = Some n ∧ n < INT_MAX ∧
       freq' = <[Z.to_nat (uchar c) := n + 1]> freq.
Proof.
  unfold incr_count. destruct (freq !! _) as [n|]; [|done]. cbn [mbind option_bind].
  destruct (n <? INT_MAX) eqn:Hn; [|done]. zbool. intros [= <-]. by exists n.
Qed.

(** Two increments can be exchanged. *)
Lemma incr_count_comm x y freq :
  (incr_count x freq ≫= incr_count y) = (incr_count y freq ≫= incr_count x).
Proof.
  destruct (decide (x = y)) as [->|Hxy]; [done|].
  assert (Z.to_nat (uchar x) ≠ Z.to_nat (uchar y)) as Hk.
  { intros Heq. apply Hxy, uchar_inj.
    pose proof (uchar_range x). pose proof (uchar_range y). lia. }
  unfold incr_count.
  destruct (freq !! Z.to_nat (uchar x)) as [n|] eqn:Hx;
    destruct (freq !! Z.to_nat (uchar y)) as [m|] eqn:Hy; cbn [mbind option_bind].
  - destruct (n <? INT_MAX) eqn:Hn; destruct (m <? INT_MAX) eqn:Hm;
      cbn [mbind option_bind];
      rewrite ?list_lookup_insert_ne, ?Hx, ?Hy by done; cbn [mbind option_bind];
      rewrite ?Hn, ?Hm; try done.
    f_equal. by apply list_insert_insert_ne.
  - destruct (n <? INT_MAX); cbn [mbind option_bind]; [|done].
    by rewrite list_lookup_insert_ne, Hy by done.
  - destruct (m <? INT_MAX); cbn [mbind option_bind]; [|done].
    by rewrite list_lookup_insert_ne, Hx by done.
  - done.
Qed.

(** The counters do not depend on the order of the characters. *)
Lemma count_all_perm s s' :
  s ≡ₚ s' → ∀ freq, count_all s freq = count_all s' freq.
Proof.
  induction 1 as [|c s s' _ IH|x y s|s1 s2 s3 _ IH1 _ IH2]; intros freq.
  - done.
  - simpl. destruct (incr_count c freq); [|done]. apply IH.
  - pose proof (incr_count_comm x y freq) as Hc. cbn [count_all].
    destruct (incr_count x freq) as [fx|]; destruct (incr_count y freq) as [fy|];
      cbn [mbind option_bind] in *.
    + by rewrite Hc.
    + by rewrite Hc.
    + by rewrite <- Hc.
    + done.
  - by rewrite IH1.
Qed.

Section Permutations.
Context {F : Type} {D : Double F}.

(** C7: two strings with the same characters in a different order have
    the same entropy (and the same undefined behaviour, if a counter
    overflows), whatever the arithmetic of [double]: the result depends
    on the counters only. *)
Theorem calculate_shannon_entropy_permutation (p p' : list ascii) :
  c_str p ≡ₚ c_str p' →
  calculate_shannon_entropy p = calculate_shannon_entropy p'.
Proof.
  intros Hperm. unfold calculate_shannon_entropy.
  rewrite !count_loop_is_count_all.
  rewrite (count_all_perm _ _ Hperm).
  assert (strlen p = strlen p') as ->; [|done].
  unfold strlen. by rewrite (Permutation_length Hperm).
Qed.
End Permutations.

Lemma occurrences_nonneg k s : 0 ≤ occurrences k s.
Proof. induction s as [|c s IH]; simpl; [done|]. destruct (uchar c =? k); lia. Qed.

Lemma occurrences_le_length k s : occurrences k s ≤ Z.of_nat (length s).
Proof. induction s as [|c s IH]; simpl; [done|]. destruct (uchar c =? k); lia. Qed.

(** When the counting succeeds every counter has grown by the number of
    occurrences of its byte value. *)
Lemma count_all_Some s : ∀ freq freq',
  count_all s freq = Some freq' →
  length freq' = length freq ∧
  ∀ k : nat, freq' !! k = (λ n, n + occurrences (Z.of_nat k) s) <$> freq !! k.
Proof.
  induction s as [|c s IH]; intros freq freq'; simpl.
  - intros [= <-]. split; [done|]. intros k. destruct (freq !! k); simpl; f_equal; lia.
  - destruct (incr_count c freq) as [f1|] eqn:Hinc; [|done]. cbn [mbind option_bind].
    apply incr_count_Some in Hinc as (n & Hn & _ & ->).
    intros Hrun. apply IH in Hrun as [Hlen Hk]. rewrite length_insert in Hlen.
    split; [done|]. intros k. rewrite Hk.
    pose proof (uchar_range c).
    destruct (decide (k = Z.to_nat (uchar c))) as [->|Hne].
    + rewrite list_lookup_insert_eq by (by eapply lookup_lt_Some). rewrite Hn. simpl.
      rewrite Z2Nat.id, Z.eqb_refl by lia. f_equal. lia.
    + rewrite list_lookup_insert_ne by done.
      destruct (uchar c =? Z.of_nat k) eqn:Heq; zbool; [lia|].
      destruct (freq !! k); simpl; f_equal; lia.
Qed.

(** The counting has defined behaviour as long as no counter can pass
    [INT_MAX]. *)
Lemma count_all_defined s : ∀ freq,
  length freq = 256%nat →
  (∀ k n, freq !! k = Some n → n + Z.of_nat (length s) ≤ INT_MAX) →
  is_Some (count_all s freq).
Proof.
  induction s as [|c s IH]; intros freq Hlen Hroom; simpl; [done|].
  pose proof (uchar_range c).
  destruct (lookup_lt_is_Some_2 freq (Z.to_nat (uchar c))) as [n Hn]; [lia|].
  unfold incr_count. rewrite Hn. cbn [mbind option_bind].
  pose proof (Hroom _ _ Hn) as Hr. simpl in Hr.
  rewrite (proj2 (Z.ltb_lt n INT_MAX)) by lia. cbn [mbind option_bind].
  apply IH; [by rewrite length_insert|].
  intros k m Hm. destruct (decide (k = Z.to_nat (uchar c))) as [->|Hne].
  - rewrite list_lookup_insert_eq in Hm by lia. injection Hm as <-. lia.
  - rewrite list_lookup_insert_ne in Hm by done. apply Hroom in Hm. simpl in Hm. lia.
Qed.

Section SumLoop.
Context {F : Type} {D : Double F}.

Lemma add_term_defined freq len i (e : F) :
  (Z.to_nat i < length freq)%nat → is_Some (add_term freq len i e).
Proof.
  intros Hi. unfold add_term.
  destruct (lookup_lt_is_Some_2 freq (Z.to_nat i)) as [m ->]; [lia|].
  cbn [mbind option_bind]. by destruct (0 <? m).
Qed.

(** The loop of lines 139-144 has defined behaviour. *)
Lemma sum_loop_defined freq len n : ∀ i (e : F),
  (Z.to_nat i + n ≤ length freq)%nat → 0 ≤ i →
  is_Some (for_loop n i (add_term freq len) e).
Proof.
  induction n as [|n IH]; intros i e Hi H0; cbn [for_loop]; [done|].
  destruct (add_term_defined freq len i e) as [e' ->]; [lia|].
  cbn [mbind option_bind]. apply IH; lia.
Qed.

(** The entropy of a string of fewer than 2^31 characters is defined. *)
Lemma calculate_shannon_entropy_defined (p : list ascii) :
  strlen p ≤ INT_MAX → is_Some (calculate_shannon_entropy p).
Proof.
  intros Hlen. unfold calculate_shannon_entropy.
  rewrite count_loop_is_count_all.
  destruct (count_all_defined (c_str p) (replicate 256 0)) as [freq Hfreq].
  - done.
  - intros k n Hk. apply lookup_replicate in Hk as [-> _]. unfold strlen in Hlen. lia.
  - rewrite Hfreq. cbn [mbind option_bind].
    apply count_all_Some in Hfreq as [Hl _].
    apply sum_loop_defined; [|done]. rewrite Hl, length_replicate. simpl. lia.
Qed.
End SumLoop.

(** ** The entropy in exact arithmetic *)

Lemma ln_2_pos : (0 < ln 2)%R.
Proof. rewrite <- ln_1. apply ln_increasing; lra. Qed.

Lemma ln_le_0 (p : R) : (0 < p <= 1)%R → (ln p <= 0)%R.
Proof.
  intros [Hp [Hlt| ->]].
  - rewrite <- ln_1. left. by apply ln_increasing.
  - rewrite ln_1. lra.
Qed.

Lemma ln_le_pred (y : R) : (0 < y)%R → (ln y <= y - 1)%R.
Proof.
  intros Hy. pose proof (exp_ineq1_le (ln y)) as Hexp.
  rewrite exp_ln in Hexp by done. lra.
Qed.

Lemma ln_mono (x y : R) : (0 < x)%R → (x <= y)%R → (ln x <= ln y)%R.
Proof.
  intros Hx [Hlt| ->]; [|lra]. left. by apply ln_increasing.
Qed.

(** The inequality behind the bound: for a probability [p] and any [c > 0],
    [-p ln p ≤ p ln c + 1/c - p]. *)
Lemma plogp_bound (p c : R) :
  (0 < p)%R → (0 < c)%R → (- (p * ln p) <= p * ln c + / c - p)%R.
Proof.
  intros Hp Hc.
  assert (0 < p * c)%R as Hpc by (by apply Rmult_lt_0_compat).
  pose proof (ln_le_pred (/ (p * c)) (Rinv_0_lt_compat _ Hpc)) as Hln.
  rewrite ln_Rinv, ln_mult in Hln by done.
  assert (p * - (ln p + ln c) <= p * (/ (p * c) - 1))%R as Hmul
    by (apply Rmult_le_compat_l; lra).
  replace (p * (/ (p * c) - 1))%R with (/ c - p)%R in Hmul by (field; lra).
  lra.
Qed.

Lemma term_zero len n : n ≤ 0 → term len n = 0%R.
Proof. intros Hn. unfold term. destruct (0 <? n) eqn:H0; zbool; [lia|done]. Qed.

Lemma term_pos len n :
  0 < n → term len n = (IZR n / IZR len * (ln (IZR n / IZR len) / ln 2))%R.
Proof. intros Hn. unfold term. destruct (0 <? n) eqn:H0; zbool; [done|lia]. Qed.

Lemma probability len n : 0 < n ≤ len → (0 < IZR n / IZR len <= 1)%R.
Proof.
  intros [Hn Hle].
  assert (0 < IZR n)%R by (by apply IZR_lt).
  assert (IZR n <= IZR len)%R by (by apply IZR_le).
  split.
  - apply Rdiv_lt_0_compat; lra.
  - apply Rmult_le_reg_r with (IZR len); [lra|].
    replace (IZR n / IZR len * IZR len)%R with (IZR n) by (field; lra). lra.
Qed.

Lemma term_nonpos len n : 0 ≤ n ≤ len → (term len n <= 0)%R.
Proof.
  intros Hn. destruct (decide (n = 0)) as [->|Hne]; [by rewrite term_zero|].
  rewrite term_pos by lia.
  pose proof (probability len n ltac:(lia)) as Hp.
  pose proof (ln_le_0 _ Hp). pose proof ln_2_pos.
  assert (0 < / ln 2)%R by (by apply Rinv_0_lt_compat).
  assert (ln (IZR n / IZR len) / ln 2 <= 0)%R by (unfold Rdiv at 1; nra).
  nra.
Qed.

Lemma term_bound len n (c : R) :
  0 < n ≤ len → (0 < c)%R →
  (- (term len n * ln 2) <= IZR n / IZR len * ln c + / c - IZR n / IZR len)%R.
Proof.
  intros Hn Hc. rewrite term_pos by lia.
  pose proof (probability len n Hn) as Hp. pose proof ln_2_pos.
  pose proof (plogp_bound _ c (proj1 Hp) Hc) as Hb.
  assert (0 < IZR len)%R by (apply IZR_lt; lia).
  replace (IZR n / IZR len * (ln (IZR n / IZR len) / ln 2) * ln 2)%R
    with (IZR n / IZR len * ln (IZR n / IZR len))%R by (field; lra).
  done.
Qed.

Lemma positives_cons n freq :
  positives (n :: freq) = ((if (0 <? n)%Z then 1 else 0) + positives freq)%nat.
Proof.
  unfold positives. rewrite filter_cons.
  destruct (0 <? n) eqn:Hn; zbool; case_decide; simpl; lia.
Qed.

(** The two bounds on the sum of the terms, for counters between 0 and
    [len]. *)
Lemma sum_terms_bounds len freq (c : R) :
  0 < len → Forall (λ n, 0 ≤ n ≤ len) freq → (0 < c)%R →
  (sum_terms len freq <= 0)%R ∧
  (- (sum_terms len freq * ln 2)
   <= IZR (total freq) / IZR len * ln c + INR (positives freq) / c
     - IZR (total freq) / IZR len)%R.
Proof.
  intros Hlen Hall Hc.
  assert (0 < IZR len)%R by (by apply IZR_lt).
  induction Hall as [|n freq Hn _ [IH0 IH]].
  - simpl. unfold total, positives. simpl. split; [lra|]. field_simplify; lra.
  - cbn [sum_terms]. rewrite positives_cons.
    change (total (n :: freq)) with (n + total freq). rewrite plus_IZR.
    pose proof (term_nonpos len n Hn). split; [lra|].
    destruct (0 <? n) eqn:Hpos; zbool.
    + pose proof (term_bound len n c ltac:(lia) Hc) as Hb.
      rewrite plus_INR. simpl INR.
      replace ((IZR n + IZR (total freq)) / IZR len * ln c
               + (1 + INR (positives freq)) / c
               - (IZR n + IZR (total freq)) / IZR len)%R
        with ((IZR n / IZR len * ln c + / c - IZR n / IZR len)
              + (IZR (total freq) / IZR len * ln c + INR (positives freq) / c
                 - IZR (total freq) / IZR len))%R by (field; lra).
      lra.
    + assert (n = 0) as -> by lia. rewrite term_zero by lia.
      simpl (0 + _)%nat.
      replace ((0 + IZR (total freq)) / IZR len)%R
        with (IZR (total freq) / IZR len)%R by (field; lra).
      lra.
Qed.



Lemma count_all_counters s freq :
  count_all s (replicate 256 0) = Some freq → freq = counters s.
Proof.
  intros Hrun. apply count_all_Some in Hrun as [Hlen Hk].
  rewrite length_replicate in Hlen.
  apply list_eq. intros k. rewrite Hk. unfold counters. rewrite list_lookup_fmap.
  destruct (decide (k < 256)%nat) as [Hlt|Hge].
  - rewrite lookup_replicate_2 by done. rewrite lookup_seqZ_lt by lia. simpl.
    f_equal.
  - rewrite (proj1 (lookup_replicate_None 256 0 k)) by lia.
    by rewrite lookup_seqZ_ge by lia.
Qed.

Lemma total_fmap_add {A} (f g : A → Z) (l : list A) :
  total ((λ k, f k + g k) <$> l) = total (f <$> l) + total (g <$> l).
Proof.
  induction l as [|x l IH]; [done|]. rewrite !fmap_cons.
  unfold total in *. cbn [foldr]. rewrite IH. lia.
Qed.

Lemma total_indicator x (l : list Z) :
  NoDup l → total ((λ k, if x =? k then 1 else 0) <$> l) = if decide (x ∈ l) then 1 else 0.
Proof.
  induction 1 as [|k l Hk _ IH].
  - rewrite decide_False; [done|]. apply not_elem_of_nil.
  - rewrite fmap_cons. unfold total in *. cbn [foldr]. rewrite IH.
    destruct (x =? k) eqn:Hx; zbool.
    + subst k. rewrite (decide_False (P := x ∈ l)) by done.
      by rewrite (decide_True (P := x ∈ x :: l)) by left.
    + destruct (decide (x ∈ l)) as [Hin|Hnin].
      * by rewrite (decide_True (P := x ∈ k :: l)) by (by right).
      * rewrite (decide_False (P := x ∈ k :: l)); [done|].
        by intros [?|?]%elem_of_cons.
Qed.

Lemma total_counters s : total (counters s) = Z.of_nat (length s).
Proof.
  unfold counters. induction s as [|c s IH].
  - simpl. unfold total. by induction (seqZ 0 256).
  - cbn [occurrences]. rewrite total_fmap_add, IH, total_indicator by apply NoDup_seqZ.
    pose proof (uchar_range c).
    rewrite decide_True by (apply elem_of_seqZ; lia). simpl length. lia.
Qed.

Lemma occurrences_pos k s : 0 < occurrences k s ↔ ∃ c, c ∈ s ∧ uchar c = k.
Proof.
  induction s as [|c s IH]; simpl.
  - split; [lia|]. by intros (c & Hc%elem_of_nil & _).
  - pose proof (occurrences_nonneg k s). destruct (uchar c =? k) eqn:Hc; zbool.
    + split; [|lia]. intros _. exists c. split; [left|done].
    + rewrite Z.add_0_l, IH. split.
      * intros (d & Hd & Hk). exists d. split; [by right|done].
      * intros (d & [->|Hd]%elem_of_cons & Hk); [done|]. by exists d.
Qed.

Lemma positives_fmap {A} (f : A → Z) (l : list A) :
  positives (f <$> l) = length (filter (λ k, 0 < f k) l).
Proof.
  induction l as [|x l IH]; [done|]. rewrite fmap_cons, positives_cons, filter_cons, IH.
  destruct (0 <? f x) eqn:Hx; zbool; case_decide; simpl; lia.
Qed.

(** The number of counters that are not zero is the number of distinct
    byte values of the string. *)
Lemma positives_counters s : positives (counters s) = distinct s.
Proof.
  unfold counters, distinct. rewrite positives_fmap.
  rewrite <- (length_fmap uchar (remove_dups s)).
  apply Permutation_length, NoDup_Permutation.
  - apply NoDup_filter, NoDup_seqZ.
  - apply NoDup_fmap_2_strong; [|apply NoDup_remove_dups].
    intros x y _ _. apply uchar_inj.
  - intros k. rewrite list_elem_of_filter, occurrences_pos, list_elem_of_fmap.
    split.
    + intros [(c & Hc & Hk) _]. exists c. by rewrite elem_of_remove_dups.
    + intros (c & -> & Hc). apply (proj1 (elem_of_remove_dups _ _)) in Hc.
      split; [by exists c|].
      pose proof (uchar_range c). apply elem_of_seqZ. lia.
Qed.

Lemma counters_range s : Forall (λ n, 0 ≤ n ≤ Z.of_nat (length s)) (counters s).
Proof.
  unfold counters. apply Forall_fmap, Forall_forall. intros k _. simpl.
  split; [apply occurrences_nonneg|apply occurrences_le_length].
Qed.


Lemma exp_mono (x y : R) : (x <= y)%R → (exp x <= exp y)%R.
Proof. intros [Hlt| ->]; [|lra]. left. by apply exp_increasing. Qed.

Lemma ln_256 : ln 256 = (8 * ln 2)%R.
Proof.
  replace 256%R with (2 ^ 8)%R by (simpl; lra).
  rewrite ln_pow by lra. simpl INR. lra.
Qed.

Lemma distinct_pos s : s ≠ [] → (1 ≤ distinct s)%nat.
Proof.
  destruct s as [|c s]; [done|]. intros _. unfold distinct.
  assert (c ∈ remove_dups (c :: s)) as Hc by (apply elem_of_remove_dups; left).
  destruct (remove_dups (c :: s)); [by apply elem_of_nil in Hc|simpl; lia].
Qed.

Lemma distinct_le_256 s : (distinct s ≤ 256)%nat.
Proof.
  rewrite <- positives_counters. unfold positives, counters.
  etrans; [apply length_filter|]. by rewrite length_fmap, length_seqZ.
Qed.

(** The entropy of a non-empty string, in exact arithmetic, lies between 0
    and [log2] of the number of distinct byte values. *)
Lemma entropy_real_bounds s :
  s ≠ [] →
  let e := (- sum_terms (Z.of_nat (length s)) (counters s))%R in
  (0 <= e)%R ∧ (e * ln 2 <= ln (INR (distinct s)))%R.
Proof.
  intros Hs e.
  assert (0 < Z.of_nat (length s)) as Hlen by (destruct s; [done|simpl; lia]).
  pose proof (distinct_pos s Hs) as Hk.
  assert (1 <= INR (distinct s))%R as Hc by (change 1%R with (INR 1); by apply le_INR).
  destruct (sum_terms_bounds _ (counters s) (INR (distinct s)) Hlen (counters_range s))
    as [Hneg Hub]; [lra|].
  rewrite total_counters, positives_counters in Hub.
  assert (0 < IZR (Z.of_nat (length s)))%R by (by apply IZR_lt).
  replace (IZR (Z.of_nat (length s)) / IZR (Z.of_nat (length s)) * ln (INR (distinct s))
           + INR (distinct s) / INR (distinct s)
           - IZR (Z.of_nat (length s)) / IZR (Z.of_nat (length s)))%R
    with (ln (INR (distinct s))) in Hub by (field; lra).
  subst e. split; lra.
Qed.

(** C9 as the specification states it fails for the empty string: its
    entropy is 0 while no byte value occurs in it, and 0 is not at most
    [log2 0]. *)
Lemma entropy_bounds_fail_for_empty_string : ¬ entropy_bounds_as_specified [NUL].
Proof.
  intros Hspec. destruct (Hspec 0%R eq_refl) as (_ & Hlog & _).
  unfold at_most_log2 in Hlog. simpl in Hlog. rewrite Rmult_0_l, exp_0 in Hlog. lra.
Qed.

(** ** strtol *)

Lemma deref_nul_not_digit p : is_nul (deref p) = true → isdigit (deref p) = false.
Proof. intros ->%is_nul_true. done. Qed.

Lemma isspace_not_nul c : isspace c = true → is_nul c = false.
Proof.
  unfold isspace, is_nul. intros Hc. destruct (uchar c =? 0) eqn:H0; [|done].
  zbool. rewrite H0 in Hc. done.
Qed.

Lemma isdigit_not_nul c : isdigit c = true → is_nul c = false.
Proof.
  unfold isdigit, is_nul. intros Hc. destruct (uchar c =? 0) eqn:H0; [|done].
  zbool. rewrite H0 in Hc. done.
Qed.

Lemma isdigit_range c : isdigit c = true ↔ 48 ≤ uchar c ≤ 57.
Proof. unfold isdigit. rewrite andb_true_iff, !Z.leb_le. done. Qed.

(** A string is its characters followed by a terminator. *)
Lemma c_str_split p : ∃ tail, p = c_str p ++ tail ∧ is_nul (deref tail) = true.
Proof.
  induction p as [|c p (tail & Hp & Htail)]; simpl.
  - by exists [].
  - destruct (is_nul c) eqn:Hc.
    + by exists (c :: p).
    + exists tail. split; [|done]. simpl. by f_equal.
Qed.

Lemma skip_space_spec p :
  ∃ ws, p = ws ++ skip_space p ∧ Forall (λ c, isspace c = true) ws ∧
        isspace (deref (skip_space p)) = false.
Proof.
  induction p as [|c p (ws & Hp & Hws & Hq)]; simpl.
  - by exists [].
  - destruct (isspace c) eqn:Hc.
    + exists (c :: ws). repeat split; [by simpl; f_equal|by constructor|done].
    + by exists [].
Qed.

Lemma skip_space_app ws q :
  Forall (λ c, isspace c = true) ws → isspace (deref q) = false →
  skip_space (ws ++ q) = q.
Proof.
  intros Hws Hq. induction Hws as [|c ws Hc _ IH]; simpl.
  - destruct q as [|c q]; [done|]. simpl in *. by rewrite Hq.
  - by rewrite Hc.
Qed.

Lemma scan_digits_spec p : ∀ acc,
  ∃ ds, p = ds ++ (scan_digits acc p).2 ∧
        Forall (λ c, isdigit c = true) ds ∧
        (scan_digits acc p).1 = foldl (λ a c, 10 * a + (uchar c - 48)) acc ds ∧
        isdigit (deref (scan_digits acc p).2) = false.
Proof.
  induction p as [|c p IH]; intros acc; simpl.
  - by exists [].
  - destruct (isdigit c) eqn:Hc.
    + destruct (IH (10 * acc + (uchar c - 48))) as (ds & Hp & Hds & Hv & Hrest).
      exists (c :: ds). repeat split; [by simpl; f_equal|by constructor|done|done].
    + by exists [].
Qed.

Lemma scan_digits_app ds rest : ∀ acc,
  Forall (λ c, isdigit c = true) ds → isdigit (deref rest) = false →
  scan_digits acc (ds ++ rest) = (foldl (λ a c, 10 * a + (uchar c - 48)) acc ds, rest).
Proof.
  intros acc Hds Hrest. revert acc. induction Hds as [|c ds Hc _ IH]; intros acc; simpl.
  - destruct rest as [|c rest]; [done|]. simpl in *. by rewrite Hrest.
  - by rewrite Hc, IH.
Qed.

Lemma digits_nonneg ds : ∀ acc,
  Forall (λ c, isdigit c = true) ds → 0 ≤ acc →
  0 ≤ foldl (λ a c, 10 * a + (uchar c - 48)) acc ds.
Proof.
  intros acc Hds. revert acc. induction Hds as [|c ds Hc _ IH]; intros acc Hacc; simpl.
  - done.
  - apply IH. apply isdigit_range in Hc. lia.
Qed.

Lemma scan_sign_spec q :
  let (neg, p) := scan_sign q in
  (neg = true ∧ q = "-"%char :: p) ∨
  (neg = false ∧ (q = "+"%char :: p ∨
                  q = p ∧ uchar (deref q) ≠ 45 ∧ uchar (deref q) ≠ 43)).
Proof.
  destruct q as [|c q]; simpl.
  - right. split; [done|]. right. done.
  - destruct (uchar c =? 45) eqn:Hm; zbool.
    { left. split; [done|]. f_equal. by apply uchar_inj. }
    destruct (uchar c =? 43) eqn:Hp; zbool.
    { right. split; [done|]. left. f_equal. by apply uchar_inj. }
    right. split; [done|]. by right.
Qed.

Lemma strtol_total plat nptr w :
  ∃ v endptr w', strtol plat nptr w = Done (v, endptr) w' ∧
                 untouched w w' ∧ stderr w' = stderr w.
Proof.
  unfold strtol. destruct (scan_sign (skip_space nptr)) as [neg p].
  destruct p as [|c p]; [by eexists _, _, _|].
  destruct (isdigit c); [|by eexists _, _, _].
  destruct (scan_digits 0 (c :: p)) as [v endptr].
  destruct (LONG_MAX plat <? _); [by eexists _, _, _|].
  destruct (_ <? LONG_MIN plat); by eexists _, _, _.
Qed.

Lemma LONG_MAX_large plat : 1000000 < LONG_MAX plat.
Proof. by destruct plat. Qed.

(** A length argument of the accepted form is parsed to the number it
    denotes, up to the end of the string, and [errno] is left alone. *)
Lemma strtol_accepts plat nptr v w :
  denotes_length (c_str nptr) v →
  ∃ endptr, strtol plat nptr w = Done (v, endptr) w ∧ is_nul (deref endptr) = true.
Proof.
  intros (ws & sign & ds & Hs & Hws & Hsign & Hne & Hds & -> & Hv).
  destruct (c_str_split nptr) as (tail & Hp & Htail). rewrite Hs in Hp.
  destruct ds as [|d ds]; [done|]. apply Forall_cons in Hds as [Hd Hds].
  pose proof (proj1 (isdigit_range d) Hd) as Hdr.
  assert (scan_sign (skip_space nptr) = (false, (d :: ds) ++ tail)) as Hscan.
  { rewrite Hp, <- !app_assoc. rewrite skip_space_app; [| done |].
    - destruct Hsign as [-> | ->]; simpl; [|done].
      destruct (uchar d =? 45) eqn:H45; zbool; [lia|].
      destruct (uchar d =? 43) eqn:H43; zbool; [lia|]. done.
    - destruct Hsign as [-> | ->]; simpl; [|done].
      unfold isspace. destruct (uchar d =? 32) eqn:H32; zbool; [lia|]. simpl.
      destruct (uchar d <=? 13) eqn:H13; zbool; [lia|]. by rewrite andb_false_r. }
  unfold strtol. rewrite Hscan. cbn [app]. rewrite Hd.
  change (d :: ds ++ tail) with ((d :: ds) ++ tail).
  rewrite scan_digits_app; [|by constructor|by apply deref_nul_not_digit].
  fold (digits_value (d :: ds)). pose proof (LONG_MAX_large plat).
  destruct (LONG_MAX plat <? digits_value (d :: ds)) eqn:Hmax; zbool; [lia|].
  destruct (digits_value (d :: ds) <? LONG_MIN plat) eqn:Hmin; zbool.
  { unfold LONG_MIN in Hmin. lia. }
  by exists tail.
Qed.

(** Conversely, an argument parsed up to the end of the string to a number
    in (0, 1000000] has the accepted form. *)
Lemma strtol_accepted_form plat nptr w v endptr w' :
  strtol plat nptr w = Done (v, endptr) w' →
  is_nul (deref endptr) = true → 0 < v ≤ 1000000 →
  denotes_length (c_str nptr) v.
Proof.
  unfold strtol. intros Hrun Hend Hv.
  destruct (skip_space_spec nptr) as (ws & Hws & Hspace & _).
  pose proof (scan_sign_spec (skip_space nptr)) as Hsign.
  destruct (scan_sign (skip_space nptr)) as [neg p].
  destruct p as [|c p]; [injection Hrun as <- _ _; lia|].
  destruct (isdigit c) eqn:Hc; [|injection Hrun as <- _ _; lia].
  destruct (scan_digits_spec (c :: p) 0) as (ds & Hp & Hds & Hval & Hrest).
  destruct (scan_digits 0 (c :: p)) as [v0 rest]. simpl in Hp, Hval, Hrest.
  pose proof (digits_nonneg ds 0 Hds ltac:(done)) as Hnn. rewrite <- Hval in Hnn.
  pose proof (LONG_MAX_large plat) as Hmax.
  assert (ds ≠ []) as Hne.
  { intros ->. simpl in Hp. subst rest. simpl in Hrest. congruence. }
  assert (neg = false ∧ v = v0 ∧ endptr = rest) as (-> & -> & ->).
  { destruct neg.
    - destruct (LONG_MAX plat <? - v0) eqn:H1; zbool; [lia|].
      destruct (- v0 <? LONG_MIN plat) eqn:H2; zbool;
        injection Hrun as <- _ _; unfold LONG_MIN in *; lia.
    - destruct (LONG_MAX plat <? v0) eqn:H1; zbool; [injection Hrun as <- _ _; lia|].
      destruct (v0 <? LONG_MIN plat) eqn:H2; zbool;
        [unfold LONG_MIN in *; lia|]. by injection Hrun as <- <- _. }
  destruct Hsign as [[? _]|[_ Hsign]]; [done|].
  assert (∃ sign, skip_space nptr = sign ++ c :: p ∧ (sign = [] ∨ sign = ["+"%char]))
    as (sign & Hq & Hsg).
  { destruct Hsign as [Hq|[Hq _]].
    - exists ["+"%char]. split; [done|by right].
    - exists []. split; [done|by left]. }
  exists ws, sign, ds. repeat split; try done; try lia.
  rewrite Hws, Hq, Hp. rewrite !app_assoc.
  apply c_str_terminated; [|done].
  rewrite !Forall_app. repeat split.
  - eapply Forall_impl; [done|]. apply isspace_not_nul.
  - destruct Hsg as [-> | ->]; by repeat constructor.
  - eapply Forall_impl; [done|]. apply isdigit_not_nul.
Qed.

(** ** Calls that leave the primary output stream alone *)

Lemma tame_ret {A} (P : A → Prop) a : P a → tame P (ret a).
Proof. intros Ha w. by split. Qed.

Lemma tame_bind {A B} (P : A → Prop) (Q : B → Prop) (m : M A) (k : A → M B) :
  tame P m → (∀ a, P a → tame Q (k a)) → tame Q (bind m k).
Proof.
  intros Hm Hk w. unfold bind. specialize (Hm w).
  destruct (m w) as [a w1|w1|]; [|done|done]. destruct Hm as [Ha Hout].
  specialize (Hk a Ha w1). destruct (k a w1) as [b w2|w2|]; [|congruence|done].
  destruct Hk as [Hb Hout2]. split; [done|congruence].
Qed.

Lemma tame_defined {A} (P : A → Prop) (o : option A) :
  (∃ a, o = Some a ∧ P a) → tame P (defined o).
Proof. intros (a & -> & Ha) w. by split. Qed.

Lemma tame_eprint text : tame (λ _, True) (eprint text).
Proof. intros w. by split. Qed.

Lemma tame_perror msg : tame (λ _, True) (perror msg).
Proof. intros w. by split. Qed.

Lemma tame_close fd : tame (λ _, True) (close fd).
Proof. intros w. by split. Qed.

Lemma tame_malloc n :
  tame (λ r, ∀ b, r = Some b → length b = Z.to_nat n) (malloc n).
Proof.
  intros w. unfold malloc. destruct (heap w) as [|[] h]; (split; [|done]);
    intros b [= <-]. by rewrite length_replicate.
Qed.

Lemma tame_read_loop fuel : ∀ fd buf br len,
  tame (λ r, length r.2 = length buf) (read_loop fuel fd buf br len).
Proof.
  induction fuel as [|fuel IH]; intros fd buf br len w; cbn [read_loop].
  - destruct (br <? len); [done|]. by split.
  - destruct (br <? len); [|by split].
    unfold bind at 1, read. destruct (reads w) as [|[bs|e] r]; [done| |].
    + destruct (Z.of_nat _ <? 0).
      * unfold bind at 1. cbn [errno set_reads].
        destruct (errno w =? EINTR).
        -- specialize (IH fd (list_inserts (Z.to_nat br) (take (Z.to_nat (len - br)) bs) buf)
                          br len (set_reads r w)).
           rewrite length_inserts in IH. done.
        -- split; [|done]. simpl. by rewrite length_inserts.
      * specialize (IH fd (list_inserts (Z.to_nat br) (take (Z.to_nat (len - br)) bs) buf)
                          (br + Z.of_nat (length (take (Z.to_nat (len - br)) bs)))
                          len (set_reads r w)).
        rewrite length_inserts in IH. done.
    + change (-1 <? 0) with true. cbn iota. unfold bind at 1. cbn [errno set_errno].
      destruct (e =? EINTR).
      * apply (IH fd buf br len (set_errno e (set_reads r w))).
      * by split.
Qed.

Lemma tame_urandom_fallback buf len :
  tame (λ r, length r.2 = length buf) (urandom_fallback buf len).
Proof.
  unfold urandom_fallback.
  apply (tame_bind (λ _, True)).
  - intros w. unfold open_urandom. destruct (opens w) as [|[|e] o]; by split.
  - intros fd _. destruct (fd <? 0).
    + apply (tame_bind (λ _, True)); [apply tame_perror|]. intros _ _. by apply tame_ret.
    + apply (tame_bind (λ r, length r.2 = length buf)).
      * intros w. apply tame_read_loop.
      * intros [[rc|n] b] Hb; simpl in Hb.
        -- by apply tame_ret.
        -- apply (tame_bind (λ _, True)); [apply tame_close|]. intros _ _.
           by apply tame_ret.
Qed.

Lemma tame_get_random_bytes plat buf len :
  tame (λ r, length r.2 = length buf) (get_random_bytes plat buf len).
Proof.
  destruct plat; unfold get_random_bytes.
  - intros w. unfold bind, BCryptGenRandom. destruct (bcrypt w) as [|[g|] b]; cbn;
      (split; [|done]); by rewrite ?length_inserts.
  - apply (tame_bind (λ r, length r.2 = length buf)).
    + intros w. unfold getrandom. destruct (getrandoms w) as [|[bs|] g]; cbn;
        (split; [|done]); by rewrite ?length_inserts.
    + intros [result b] Hb. simpl in Hb. destruct (result =? to_ssize len).
      * by apply tame_ret.
      * rewrite <- Hb. apply tame_urandom_fallback.
  - apply tame_urandom_fallback.
Qed.

Lemma convert_loop_defined charset rb n : ∀ (i : nat) result,
  0 < strlen charset →
  (i + n ≤ length rb)%nat → (i + n ≤ length result)%nat →
  is_Some (for_loop n (Z.of_nat i) (convert_byte charset rb (strlen charset)) result).
Proof.
  induction n as [|n IH]; intros i result Hsize Hrb Hres; cbn [for_loop]; [done|].
  destruct (lookup_lt_is_Some_2 rb i) as [b Hb]; [lia|].
  destruct (load_below_strlen charset (uchar b mod strlen charset)) as [c Hc];
    [by apply mod_index|].
  assert (convert_byte charset rb (strlen charset) (Z.of_nat i) result
          = Some (<[i := c]> result)) as ->.
  { unfold convert_byte. rewrite load_nat, Hb. cbn [mbind option_bind].
    rewrite (proj2 (Z.eqb_neq (strlen charset) 0)) by lia.
    rewrite Hc. cbn [mbind option_bind]. unfold store.
    rewrite (proj2 (Z.leb_le 0 (Z.of_nat i))) by lia.
    rewrite (proj2 (Z.ltb_lt (Z.of_nat i) (Z.of_nat (length result)))) by lia.
    by rewrite Nat2Z.id. }
  cbn [mbind option_bind]. replace (Z.of_nat i + 1) with (Z.of_nat (S i)) by lia.
  apply IH; [done|lia|]. rewrite length_insert. lia.
Qed.

(** A request for fewer than [SIZE_MAX] characters over a non-empty
    character set has defined behaviour and writes nothing to the primary
    output stream. *)
Lemma tame_generate_random_string plat len charset :
  0 ≤ len < SIZE_MOD - 1 → 0 < strlen charset →
  tame (λ _, True) (generate_random_string plat len charset).
Proof.
  intros Hlen Hsize. unfold generate_random_string.
  eapply tame_bind; [apply tame_malloc|]. intros [result|] Hres.
  2: { eapply tame_bind; [apply tame_eprint|]. intros _ _. by apply tame_ret. }
  specialize (Hres _ eq_refl). rewrite Z.mod_small in Hres by lia.
  eapply tame_bind; [apply tame_malloc|]. intros [random_bytes|] Hrb.
  2: { eapply tame_bind; [apply tame_eprint|]. intros _ _. by apply tame_ret. }
  specialize (Hrb _ eq_refl).
  eapply tame_bind; [apply tame_get_random_bytes|]. intros [rc bytes] Hbytes.
  simpl in Hbytes. destruct (negb (rc =? 0)).
  { eapply tame_bind; [apply tame_eprint|]. intros _ _. by apply tame_ret. }
  apply (tame_bind (λ r, length r = length result)).
  - apply tame_defined.
    destruct (convert_loop_defined charset bytes (Z.to_nat len) 0%nat result)
      as [r Hr]; [done|lia|lia|].
    exists r. split; [done|].
    by apply (convert_loop_spec _ _ _ _ 0%nat) in Hr as [? _].
  - intros r Hr. apply (tame_bind (λ _, True)); [|intros; by apply tame_ret].
    apply tame_defined. eexists. split; [|done]. unfold store.
    rewrite (proj2 (Z.leb_le 0 len)) by lia.
    by rewrite (proj2 (Z.ltb_lt len (Z.of_nat (length r)))) by lia.
Qed.

(** ** main *)

Lemma charset_nonempty rest C : mode_selects rest C → 0 < strlen C.
Proof.
  destruct rest as [|mode rest]; simpl.
  - by intros ->.
  - by intros [[_ ->]|[[_ ->]|[_ ->]]].
Qed.

Section MainProperties.
Context {F : Type} {D : Double F} {P : DoublePrint F}.

Lemma argc_ge_2 {A} (a b : A) (l : list A) :
  (Z.of_nat (length (a :: b :: l)) <? 2) = false.
Proof. apply Z.ltb_ge. simpl length. lia. Qed.

(** A length argument that is not of the accepted form ends the program
    with status 1 before anything else happens. *)
Lemma main_rejects_length plat prog arg rest w :
  (∀ v, ¬ denotes_length (c_str arg) v) →
  ∃ w', main plat (prog :: arg :: rest) w = Done 1 w' ∧ untouched w w' ∧
        stderr w' = stderr w ++
          line "Error: Invalid length. Must be a positive integer (max 1000000)".
Proof.
  intros Hbad. unfold main. rewrite argc_ge_2.
  change (default [] ((prog :: arg :: rest) !! 1%nat)) with arg.
  destruct (strtol_total plat arg w) as (v & endptr & w1 & Hparse & Hsame & Herr).
  unfold bind at 1. rewrite Hparse.
  destruct (negb (is_nul (deref endptr)) || (v <=? 0) || (1000000 <? v)) eqn:Hcheck.
  - eexists. split; [reflexivity|]. split; [apply Hsame|].
    cbn [stderr set_stderr]. by rewrite Herr.
  - apply orb_false_iff in Hcheck as [Hcheck Hhi].
    apply orb_false_iff in Hcheck as [Hnul Hlo].
    apply negb_false_iff in Hnul. zbool.
    destruct (Hbad v). by apply (strtol_accepted_form plat arg w v endptr w1).
Qed.

(** With a length argument of the accepted form, a mode argument that
    names no character set ends the program with status 1 before
    anything else happens. *)
Lemma main_rejects_mode plat prog arg mode rest v w :
  denotes_length (c_str arg) v → (∀ C, ¬ selects (c_str mode) C) →
  ∃ w', main plat (prog :: arg :: mode :: rest) w = Done 1 w' ∧ untouched w w'.
Proof.
  intros Hlen Hbad. unfold main. rewrite argc_ge_2.
  change (default [] ((prog :: arg :: mode :: rest) !! 1%nat)) with arg.
  change (default [] ((prog :: arg :: mode :: rest) !! 2%nat)) with mode.
  destruct (strtol_accepts plat arg v w Hlen) as (endptr & Hparse & Hend).
  assert (0 < v ≤ 1000000) as Hv by (by destruct Hlen as (?&?&?&?&?&?&?&?&?&?)).
  unfold bind at 1. rewrite Hparse, Hend.
  rewrite (proj2 (Z.leb_gt v 0)), (proj2 (Z.ltb_ge 1000000 v)) by lia.
  cbn [negb orb].
  rewrite (proj2 (Z.leb_le 3 (Z.of_nat (length (prog :: arg :: mode :: rest)))))
    by (simpl length; lia).
  unfold streq.
  destruct (bool_decide (c_str mode = c_str (literal "alnum"))) eqn:Ha.
  { apply bool_decide_eq_true in Ha. destruct (Hbad CHARSET_ALNUM). by left. }
  destruct (bool_decide (c_str mode = c_str (literal "num"))) eqn:Hn.
  { apply bool_decide_eq_true in Hn. destruct (Hbad CHARSET_NUM). right. by left. }
  destruct (bool_decide (c_str mode = c_str (literal "full"))) eqn:Hf.
  { apply bool_decide_eq_true in Hf. destruct (Hbad CHARSET_FULL). right. by right. }
  cbn [negb]. eexists. split; [reflexivity|]. by repeat split.
Qed.

(** With arguments of the accepted form the program calls
    [generate_random_string] once, in the world it was started in, and
    its exit status and primary output follow from the result. *)
Lemma main_runs plat prog arg rest v C w :
  denotes_length (c_str arg) v → mode_selects rest C →
  match generate_random_string plat v C w with
  | Done None w1 => main plat (prog :: arg :: rest) w = Done 1 w1
  | Done (Some p) w1 =>
      ∃ w', main plat (prog :: arg :: rest) w = Done 0 w' ∧
            stdout w' = stdout w1 ++ c_str p ++ [LF]
  | Hang w1 => main plat (prog :: arg :: rest) w = Hang w1
  | Undef => main plat (prog :: arg :: rest) w = Undef
  end.
Proof.
  intros Hlen Hmode.
  remember (main plat (prog :: arg :: rest) w) as out eqn:Hout.
  unfold main in Hout. rewrite argc_ge_2 in Hout.
  change (default [] ((prog :: arg :: rest) !! 1%nat)) with arg in Hout.
  destruct (strtol_accepts plat arg v w Hlen) as (endptr & Hparse & Hend).
  assert (0 < v ≤ 1000000) as Hv by (by destruct Hlen as (?&?&?&?&?&?&?&?&?&?)).
  unfold bind at 1 in Hout. rewrite Hparse, Hend in Hout.
  rewrite (proj2 (Z.leb_gt v 0)), (proj2 (Z.ltb_ge 1000000 v)) in Hout by lia.
  cbn [negb orb] in Hout.
  assert ((if 3 <=? Z.of_nat (length (prog :: arg :: rest))
           then
             if streq (default [] ((prog :: arg :: rest) !! 2%nat)) (literal "alnum")
             then Some (CHARSET_ALNUM, "alphanumeric"%string)
             else if streq (default [] ((prog :: arg :: rest) !! 2%nat)) (literal "num")
             then Some (CHARSET_NUM, "numeric"%string)
             else if negb (streq (default [] ((prog :: arg :: rest) !! 2%nat))
                                 (literal "full"))
             then None
             else Some (CHARSET_FULL, "full"%string)
           else Some (CHARSET_FULL, "full"%string))
          = Some (C, if bool_decide (C = CHARSET_ALNUM) then "alphanumeric"%string
                     else if bool_decide (C = CHARSET_NUM) then "numeric"%string
                     else "full"%string)) as Hsel.
  { destruct rest as [|mode rest]; simpl in Hmode.
    - subst C. reflexivity.
    - rewrite (proj2 (Z.leb_le 3 (Z.of_nat (length (prog :: arg :: mode :: rest)))))
        by (simpl length; lia).
      change (default [] ((prog :: arg :: mode :: rest) !! 2%nat)) with mode.
      unfold streq.
      destruct Hmode as [[-> ->]|[[-> ->]|[-> ->]]]; reflexivity. }
  rewrite Hsel in Hout. clear Hsel.
  rewrite Z.mod_small in Hout by (unfold SIZE_MOD; lia).
  unfold bind at 1 in Hout.
  destruct (generate_random_string plat v C w) as [[p|] w1|w1|] eqn:Hgen.
  - apply generate_random_string_shape in Hgen as (_ & Hstr & Hsize).
    destruct (calculate_shannon_entropy_defined p) as [e He].
    { unfold strlen, INT_MAX. rewrite Hstr, length_take. lia. }
    unfold bind at 1, print at 1 in Hout. unfold bind at 1 in Hout.
    rewrite He in Hout. unfold defined, bind, eprint, ret in Hout.
    eexists. split; [exact Hout|]. reflexivity.
  - exact Hout.
  - exact Hout.
  - exact Hout.
Qed.
End MainProperties.

Lemma print_bind {B} a (k : unit → M B) w :
  bind (print a) k w = k () (set_stdout (stdout w ++ a) w).
Proof. done. Qed.

Lemma set_stdout_twice s s' w : set_stdout s (set_stdout s' w) = set_stdout s w.
Proof. done. Qed.

Lemma stdout_set_stdout s w : stdout (set_stdout s w) = s.
Proof. done. Qed.

Lemma print_seven a b c d e f g w :
  (print a ;; print b ;; print c ;; print d ;; print e ;; print f ;; print g) w
  = Done () (set_stdout (stdout w ++ a ++ b ++ c ++ d ++ e ++ f ++ g) w).
Proof.
  rewrite !print_bind. unfold print.
  rewrite !stdout_set_stdout, !set_stdout_twice. by rewrite <- !app_assoc.
Qed.

Lemma print_usage_writes prog w :
  print_usage prog w = Done () (set_stdout (stdout w ++ usage prog) w).
Proof. apply print_seven. Qed.

(** The length argument is of the accepted form or it is not. *)
Lemma denotes_length_decided arg :
  (∃ v, denotes_length (c_str arg) v) ∨ (∀ v, ¬ denotes_length (c_str arg) v).
Proof.
  set (w := demo_world).
  destruct (strtol_total Linux arg w) as (v & endptr & w1 & Hparse & _).
  destruct (negb (is_nul (deref endptr)) || (v <=? 0) || (1000000 <? v)) eqn:Hcheck.
  - right. intros v' Hv'.
    assert (0 < v' ≤ 1000000) as Hr by (by destruct Hv' as (?&?&?&?&?&?&?&?&?&?)).
    destruct (strtol_accepts Linux arg v' w Hv') as (endptr' & Hparse' & Hend).
    rewrite Hparse in Hparse'. injection Hparse' as -> -> _.
    rewrite Hend in Hcheck. simpl in Hcheck.
    apply orb_true_iff in Hcheck as [?|?]; zbool; lia.
  - left. exists v.
    apply orb_false_iff in Hcheck as [Hcheck Hhi].
    apply orb_false_iff in Hcheck as [Hnul Hlo].
    apply negb_false_iff in Hnul. zbool.
    by apply (strtol_accepted_form Linux arg w v endptr w1).
Qed.

Lemma selects_decided mode :
  (∃ C, selects mode C) ∨ (∀ C, ¬ selects mode C).
Proof.
  destruct (decide (mode = list_ascii_of_string "alnum")) as [Ha|Ha];
    [left; exists CHARSET_ALNUM; by left|].
  destruct (decide (mode = list_ascii_of_string "num")) as [Hn|Hn];
    [left; exists CHARSET_NUM; right; by left|].
  destruct (decide (mode = list_ascii_of_string "full")) as [Hf|Hf];
    [left; exists CHARSET_FULL; right; by right|].
  right. intros C [[? _]|[[? _]|[? _]]]; done.
Qed.

(** A numeral, with or without a minus sign, that denotes a number outside
    (0, 1000000] is not of the accepted form. *)
Lemma numeral_out_of_range sign ds n :
  Forall (λ c, isdigit c = true) ds →
  sign = [] ∧ n = digits_value ds ∨ sign = ["-"%char] ∧ n = - digits_value ds →
  ¬ (0 < n ≤ 1000000) →
  ∀ v, ¬ denotes_length (sign ++ ds) v.
Proof.
  intros Hds Hsign Hout v (ws & sg & ds' & Heq & Hws & Hsg & Hne & Hds' & -> & Hv).
  assert (∀ c, isdigit c = true → isspace c = false) as Hdigit_space.
  { intros c [? ?]%isdigit_range. unfold isspace.
    rewrite (proj2 (Z.eqb_neq (uchar c) 32)) by lia.
    by rewrite (proj2 (Z.leb_gt (uchar c) 13)), andb_false_r by lia. }
  assert (∀ c, isdigit c = true → c ≠ "+"%char) as Hdigit_plus.
  { intros c [? ?]%isdigit_range ->. vm_compute in *. congruence. }
  destruct Hsign as [[-> ->]|[-> ->]].
  - simpl in Heq. destruct ws as [|s ws].
    + destruct Hsg as [-> | ->]; simpl in Heq; [subst ds'; lia|].
      subst ds. apply Forall_cons in Hds as [Hplus _]. by destruct (Hdigit_plus _ Hplus).
    + subst ds. apply Forall_cons in Hds as [Hd _]. apply Forall_cons in Hws as [Hs _].
      apply Hdigit_space in Hd. congruence.
  - pose proof (digits_nonneg ds' 0 Hds' ltac:(done)) as Hnn.
    destruct ws as [|s ws].
    + destruct Hsg as [-> | ->]; simpl in Heq.
      * destruct ds' as [|d ds']; [done|]. injection Heq as <- _.
        apply Forall_cons in Hds' as [Hd _]. vm_compute in Hd. congruence.
      * injection Heq as Heq _. vm_compute in Heq. congruence.
    + injection Heq as <- _. apply Forall_cons in Hws as [Hs _].
      vm_compute in Hs. congruence.
Qed.

Lemma generate_random_string_fails plat len C w :
  allocation_fails w ∨ random_source_fails plat len w →
  ∃ w1, generate_random_string plat len C w = Done None w1.
Proof.
  unfold allocation_fails, random_source_fails, generate_random_string.
  intros [Halloc|(h & rc & bytes & w' & Hh & Hrand & Hrc)].
  - unfold bind at 1, malloc at 1.
    destruct (heap w) as [|[] [|[] h]] eqn:Hh; try done;
      try (by eexists); unfold bind at 1, malloc at 1; cbn [heap set_heap];
      by eexists.
  - unfold bind at 1, malloc at 1. rewrite Hh.
    unfold bind at 1, malloc at 1. cbn [heap set_heap junk]. unfold bind at 1.
    change (set_heap h (set_heap (true :: h) w)) with (set_heap h w).
    rewrite Hrand. rewrite (proj2 (Z.eqb_neq rc 0) Hrc). by eexists.
Qed.

Section Boundary.
Context {F : Type} {D : Double F} {P : DoublePrint F}.

(** The runs of the program with a length argument. *)
Lemma main_cases plat prog arg rest w :
  (∃ w', main plat (prog :: arg :: rest) w = Done 1 w' ∧ untouched w w') ∨
  (∃ v C, denotes_length (c_str arg) v ∧ mode_selects rest C ∧
     match generate_random_string plat v C w with
     | Done None w1 =>
         main plat (prog :: arg :: rest) w = Done 1 w1 ∧ stdout w1 = stdout w
     | Done (Some p) w1 =>
         ∃ w', main plat (prog :: arg :: rest) w = Done 0 w' ∧
               stdout w' = stdout w ++ c_str p ++ [LF] ∧
               Z.of_nat (length (c_str p)) = v
     | Hang w1 =>
         main plat (prog :: arg :: rest) w = Hang w1 ∧ stdout w1 = stdout w
     | Undef => False
     end).
Proof.
  destruct (denotes_length_decided arg) as [[v Hv]|Hbad].
  2: { left. destruct (main_rejects_length plat prog arg rest w Hbad)
         as (w' & Hrun & Hsame & _). by exists w'. }
  assert (∀ C, mode_selects rest C →
    match generate_random_string plat v C w with
    | Done None w1 =>
        main plat (prog :: arg :: rest) w = Done 1 w1 ∧ stdout w1 = stdout w
    | Done (Some p) w1 =>
        ∃ w', main plat (prog :: arg :: rest) w = Done 0 w' ∧
              stdout w' = stdout w ++ c_str p ++ [LF] ∧
              Z.of_nat (length (c_str p)) = v
    | Hang w1 =>
        main plat (prog :: arg :: rest) w = Hang w1 ∧ stdout w1 = stdout w
    | Undef => False
    end) as Hrun.
  { intros C HC. pose proof (main_runs plat prog arg rest v C w Hv HC) as Hmain.
    assert (0 < v ≤ 1000000) as Hr by (by destruct Hv as (?&?&?&?&?&?&?&?&?&?)).
    pose proof (tame_generate_random_string plat v C
                  ltac:(unfold SIZE_MOD; lia) (charset_nonempty _ _ HC) w) as Htame.
    destruct (generate_random_string plat v C w) as [[p|] w1|w1|] eqn:Hgen.
    - destruct Hmain as (w' & Hmain & Hout). destruct Htame as [_ Hsame].
      apply generate_random_string_shape in Hgen as (_ & Hstr & Hsize).
      exists w'. rewrite Hout, Hsame, Hstr, length_take. repeat split; [done|lia].
    - by destruct Htame.
    - done.
    - done. }
  destruct rest as [|mode rest].
  - right. exists v, CHARSET_FULL. repeat split; [done|]. by apply Hrun.
  - destruct (selects_decided (c_str mode)) as [[C HC]|Hbad].
    + right. exists v, C. repeat split; [done..|]. by apply Hrun.
    + left. by apply (main_rejects_mode plat prog arg mode rest v w).
Qed.
End Boundary.

Section CommandLine.
Context {F : Type} {D : Double F} {P : DoublePrint F}.

(** C10: the length check of [main] lets through exactly the arguments
    made of optional white space, an optional plus sign and decimal
    digits denoting a number in (0, 1000000], with nothing after the
    digits; so it lets through "+42" and " 42".  An argument of this form
    reaches [generate_random_string] as the number it denotes; every
    other argument ends the program with the message for an invalid
    length. *)
Theorem length_argument_accepted_forms plat prog arg rest w :
  denotes_length (c_str (literal "+42")) 42 ∧
  denotes_length (c_str (literal " 42")) 42 ∧
  (∀ v C, denotes_length (c_str arg) v → mode_selects rest C →
     match generate_random_string plat v C w with
     | Done None w1 => main plat (prog :: arg :: rest) w = Done 1 w1
     | Done (Some p) w1 =>
         ∃ w', main plat (prog :: arg :: rest) w = Done 0 w' ∧
               stdout w' = stdout w1 ++ c_str p ++ [LF]
     | Hang w1 => main plat (prog :: arg :: rest) w = Hang w1
     | Undef => main plat (prog :: arg :: rest) w = Undef
     end) ∧
  ((∀ v, ¬ denotes_length (c_str arg) v) →
     ∃ w', main plat (prog :: arg :: rest) w = Done 1 w' ∧ untouched w w' ∧
           stderr w' = stderr w ++
             line "Error: Invalid length. Must be a positive integer (max 1000000)").
Proof.
  split; [|split; [|split]].
  - exists [], ["+"%char], (list_ascii_of_string "42").
    repeat split; try done; by repeat constructor.
  - exists [" "%char], [], (list_ascii_of_string "42").
    repeat split; try done; try (by left); by repeat constructor.
  - intros v C. apply main_runs.
  - apply main_rejects_length.
Qed.

(** C8: with a length argument that is not of the accepted form, in
    particular a numeral denoting a number outside (0, 1000000], or with a
    mode argument other than "full", "alnum" and "num", [main] returns 1
    without having called the allocator or the operating system and
    without primary output.  With accepted arguments it returns 1 when an
    allocation or the random source fails and 0 when
    [generate_random_string] succeeds.  It returns 1 when there is no
    length argument, and no other status than 0 and 1. *)
Theorem main_exit_status plat prog arg rest w :
  ((∀ v, ¬ denotes_length (c_str arg) v) →
     ∃ w', main plat (prog :: arg :: rest) w = Done 1 w' ∧ untouched w w') ∧
  (∀ sign ds n,
     c_str arg = sign ++ ds → Forall (λ c, isdigit c = true) ds →
     sign = [] ∧ n = digits_value ds ∨ sign = ["-"%char] ∧ n = - digits_value ds →
     ¬ (0 < n ≤ 1000000) →
     ∃ w', main plat (prog :: arg :: rest) w = Done 1 w' ∧ untouched w w') ∧
  (∀ mode rest',
     rest = mode :: rest' → (∀ C, ¬ selects (c_str mode) C) →
     ∃ w', main plat (prog :: arg :: rest) w = Done 1 w' ∧ untouched w w') ∧
  (∀ v C, denotes_length (c_str arg) v → mode_selects rest C →
     (allocation_fails w ∨ random_source_fails plat v w →
        ∃ w', main plat (prog :: arg :: rest) w = Done 1 w' ∧ stdout w' = stdout w) ∧
     (∀ p w1, generate_random_string plat v C w = Done (Some p) w1 →
        ∃ w', main plat (prog :: arg :: rest) w = Done 0 w')) ∧
  (∀ status w',
     main plat (prog :: arg :: rest) w = Done status w' → status = 0 ∨ status = 1) ∧
  (∃ w', main plat [prog] w = Done 1 w').
Proof.
  assert ((∀ v, ¬ denotes_length (c_str arg) v) →
          ∃ w', main plat (prog :: arg :: rest) w = Done 1 w' ∧ untouched w w')
    as Hlength.
  { intros Hbad. destruct (main_rejects_length plat prog arg rest w Hbad)
      as (w' & Hrun & Hsame & _). by exists w'. }
  split; [done|]. split; [|split; [|split; [|split]]].
  - intros sign ds n Harg Hds Hsign Hout. apply Hlength. rewrite Harg.
    by apply (numeral_out_of_range sign ds n).
  - intros mode rest' -> Hbad.
    destruct (denotes_length_decided arg) as [[v Hv]|Hnone]; [|by apply Hlength].
    by apply (main_rejects_mode plat prog arg mode rest' v w).
  - intros v C Hv HC. pose proof (main_runs plat prog arg rest v C w Hv HC) as Hmain.
    split.
    + intros Hfail.
      destruct (generate_random_string_fails plat v C w Hfail) as [w1 Hgen].
      assert (0 < v ≤ 1000000) as Hr by (by destruct Hv as (?&?&?&?&?&?&?&?&?&?)).
      pose proof (tame_generate_random_string plat v C
                    ltac:(unfold SIZE_MOD; lia) (charset_nonempty _ _ HC) w) as Htame.
      rewrite Hgen in Hmain, Htame. exists w1. by destruct Htame.
    + intros p w1 Hgen. rewrite Hgen in Hmain. destruct Hmain as (w' & Hmain & _).
      by exists w'.
  - intros status w' Hrun.
    destruct (main_cases plat prog arg rest w) as [(w1 & Hrej & _)|(v & C & _ & _ & Hgen)].
    + rewrite Hrej in Hrun. injection Hrun as <- _. by right.
    + destruct (generate_random_string plat v C w) as [[p|] w1|w1|]; [| | |done].
      * destruct Hgen as (w2 & Hmain & _). rewrite Hmain in Hrun.
        injection Hrun as <- _. by left.
      * destruct Hgen as [Hmain _]. rewrite Hmain in Hrun.
        injection Hrun as <- _. by right.
      * destruct Hgen as [Hmain _]. by rewrite Hmain in Hrun.
  - unfold main. change (Z.of_nat (length [prog]) <? 2) with true. cbn iota.
    unfold bind. rewrite print_usage_writes. by eexists.
Qed.

(** C5, as amended: a run with at least a length argument has defined
    behaviour; if it returns, it has written to the primary output stream
    either a complete string of the requested length and a newline, with
    status 0, or nothing, with status 1; a run blocked in [read] has
    written nothing.  In particular a failure of an allocation or of the
    random source inside [generate_random_string] ends the run with
    status 1 and no primary output.  A run without a length argument
    writes the usage text to the primary output stream and returns 1. *)
Theorem main_all_or_nothing plat prog arg rest w :
  all_or_nothing (prog :: arg :: rest) w (main plat (prog :: arg :: rest) w) ∧
  (∀ v C, denotes_length (c_str arg) v → mode_selects rest C →
     allocation_fails w ∨ random_source_fails plat v w →
     ∃ w', main plat (prog :: arg :: rest) w = Done 1 w' ∧ stdout w' = stdout w) ∧
  (∃ w', main plat [prog] w = Done 1 w' ∧ stdout w' = stdout w ++ usage prog).
Proof.
  split; [|split].
  - destruct (main_cases plat prog arg rest w) as [(w1 & Hrej & Hsame)|(v & C & Hv & _ & Hgen)].
    + rewrite Hrej. right. split; [done|]. apply Hsame.
    + destruct (generate_random_string plat v C w) as [[p|] w1|w1|]; [| | |done].
      * destruct Hgen as (w2 & -> & Hout & Hlen). left. split; [done|].
        exists v, (c_str p). repeat split; [|done..]. by exists arg.
      * destruct Hgen as [-> Hout]. by right.
      * by destruct Hgen as [-> Hout].
  - intros v C Hv HC Hfail.
    pose proof (main_runs plat prog arg rest v C w Hv HC) as Hmain.
    destruct (generate_random_string_fails plat v C w Hfail) as [w1 Hgen].
    assert (0 < v ≤ 1000000) as Hr by (by destruct Hv as (?&?&?&?&?&?&?&?&?&?)).
    pose proof (tame_generate_random_string plat v C
                  ltac:(unfold SIZE_MOD; lia) (charset_nonempty _ _ HC) w) as Htame.
    rewrite Hgen in Hmain, Htame. exists w1. by destruct Htame.
  - unfold main. change (Z.of_nat (length [prog]) <? 2) with true. cbn iota.
    unfold bind. rewrite print_usage_writes. by eexists.
Qed.
End CommandLine.

(** ** The theorems at concrete inputs *)

(** Five digits from [demo_world]: the bytes "ab012" are mapped to "78890". *)
Lemma generate_random_string_length_and_members_witness :
  ∃ w', generate_random_string Linux 5 CHARSET_NUM demo_world
        = Done (Some (literal "78890")) w' ∧
        strlen (literal "78890") = 5 ∧
        ∀ c, c ∈ c_str (literal "78890") → c ∈ c_str CHARSET_NUM.
Proof.
  eexists. split; [vm_compute; reflexivity|].
  eapply (generate_random_string_length_and_members Linux 5 CHARSET_NUM demo_world).
  vm_compute. reflexivity.
Defined.

Lemma generate_random_string_positionwise_witness :
  ∃ h bytes w',
    heap demo_world = true :: true :: h ∧
    get_random_bytes Linux (replicate (Z.to_nat 5) (junk demo_world)) 5
      (set_heap h demo_world) = Done (0, bytes) w' ∧
    ∀ i, 0 ≤ i < 5 →
      ∃ b c, load bytes i = Some b ∧
             load CHARSET_NUM (uchar b mod strlen CHARSET_NUM) = Some c ∧
             load (literal "78890") i = Some c.
Proof.
  destruct (generate_random_string_positionwise Linux 5 CHARSET_NUM demo_world
              (literal "78890")
              (set_errno EINTR (set_reads [] (set_opens [] (set_getrandoms []
                 (set_heap [] demo_world))))))
    as (h & bytes & Hh & Hrand & Hpos); [vm_compute; reflexivity|].
  by exists h, bytes, (set_errno EINTR (set_reads [] (set_opens [] (set_getrandoms []
                         (set_heap [] demo_world))))).
Defined.

Lemma get_random_bytes_fallback_witness :
  ∃ w', get_random_bytes Unix (replicate 5 "z"%char) 5 demo_world
        = Done (0, list_ascii_of_string "ab012") w'.
Proof.
  destruct (get_random_bytes_fallback (replicate 5 "z"%char) demo_world [] eq_refl)
    as (Hcollect & _ & _).
  apply (Hcollect (reads demo_world) []); [reflexivity| |vm_compute; lia].
  by repeat constructor.
Defined.

Lemma empty_string_cases_witness :
  ∃ w', generate_random_string Linux 0 CHARSET_FULL demo_world = Done (Some [NUL]) w'.
Proof.
  destruct (empty_string_cases (D := Symbolic) Linux CHARSET_FULL demo_world)
    as (_ & Hgranted & _).
  eapply (Hgranted []); [reflexivity|]. vm_compute. reflexivity.
Defined.

Lemma calculate_shannon_entropy_permutation_witness :
  calculate_shannon_entropy (D := Symbolic) (literal "aab")
  = calculate_shannon_entropy (D := Symbolic) (literal "aba").
Proof.
  apply calculate_shannon_entropy_permutation. vm_compute. apply perm_skip, perm_swap.
Defined.

Lemma length_argument_accepted_forms_witness :
  ∃ w', main (D := Symbolic) (P := SymbolicPrint) Linux
             [literal "randstr"; literal "+5"; literal "num"] demo_world = Done 0 w' ∧
        stdout w' = list_ascii_of_string "78890" ++ [LF].
Proof.
  destruct (length_argument_accepted_forms (D := Symbolic) (P := SymbolicPrint) Linux
              (literal "randstr") (literal "+5") [literal "num"] demo_world)
    as (_ & _ & Hrun & _).
  apply (Hrun 5 CHARSET_NUM).
  - exists [], ["+"%char], ["5"%char]. repeat split; try done; by repeat constructor.
  - right. left. split; reflexivity.
Defined.

Lemma main_exit_status_witness :
  ∃ w', main (D := Symbolic) (P := SymbolicPrint) Linux
             [literal "randstr"; literal "1000001"] demo_world = Done 1 w' ∧
        untouched demo_world w'.
Proof.
  destruct (main_exit_status (D := Symbolic) (P := SymbolicPrint) Linux
              (literal "randstr") (literal "1000001") [] demo_world)
    as (_ & Hnumeral & _).
  apply (Hnumeral [] (list_ascii_of_string "1000001") 1000001).
  - reflexivity.
  - by repeat constructor.
  - left. split; reflexivity.
  - vm_compute. intros [_ Hle]. by apply Hle.
Defined.

Lemma main_all_or_nothing_witness :
  all_or_nothing [literal "randstr"; literal "5"] demo_world
    (main (D := Symbolic) (P := SymbolicPrint) Linux
          [literal "randstr"; literal "5"] demo_world) ∧
  ∃ w', main (D := Symbolic) (P := SymbolicPrint) Linux
             [literal "randstr"; literal "5"] (set_heap [true; false] demo_world)
        = Done 1 w' ∧
        stdout w' = stdout (set_heap [true; false] demo_world).
Proof.
  split.
  - apply (main_all_or_nothing (D := Symbolic) (P := SymbolicPrint) Linux
             (literal "randstr") (literal "5") [] demo_world).
  - destruct (main_all_or_nothing (D := Symbolic) (P := SymbolicPrint) Linux
                (literal "randstr") (literal "5") [] (set_heap [true; false] demo_world))
      as (_ & Hfail & _).
    apply (Hfail 5 CHARSET_FULL).
    + exists [], [], ["5"%char]. repeat split; try done; try (by left); by repeat constructor.
    + reflexivity.
    + left. exact I.
Defined.

(** C5 as the specification states it fails for a run without arguments:
    the usage text goes to the primary output stream and the status is 1. *)
Lemma usage_is_primary_output :
  ¬ all_or_nothing [literal "randstr"] demo_world
      (main (D := Symbolic) (P := SymbolicPrint) Linux [literal "randstr"] demo_world).
Proof.
  assert (main (D := Symbolic) (P := SymbolicPrint) Linux [literal "randstr"] demo_world
          = Done 1 (set_stdout (stdout demo_world ++ usage (literal "randstr")) demo_world))
    as ->.
  { unfold main. change (Z.of_nat (length [literal "randstr"]) <? 2) with true.
    cbn iota. unfold bind. by rewrite print_usage_writes. }
  intros [[Hstatus _]|[_ Hout]]; [done|].
  vm_compute in Hout. discriminate.
Qed.

(** * The entropy in rounded arithmetic *)

(** The counters never pass [INT_MAX]. *)
Lemma count_all_bounded s : ∀ freq freq',
  count_all s freq = Some freq' →
  (∀ k n, freq !! k = Some n → n ≤ INT_MAX) →
  ∀ k n, freq' !! k = Some n → n ≤ INT_MAX.
Proof.
  induction s as [|c s IH]; intros freq freq'; simpl.
  - by intros [= <-].
  - destruct (incr_count c freq) as [f1|] eqn:Hinc; [|done]. cbn [mbind option_bind].
    apply incr_count_Some in Hinc as (n0 & Hn0 & Hlt & ->).
    intros Hrun Hb. apply (IH _ _ Hrun). intros k n Hk.
    destruct (decide (k = Z.to_nat (uchar c))) as [->|Hne].
    + rewrite list_lookup_insert_eq in Hk by (by eapply lookup_lt_Some).
      injection Hk as <-. lia.
    + rewrite list_lookup_insert_ne in Hk by done. by eapply Hb.
Qed.

(** ** Real numbers near each other *)

Lemma Rabs_bounds (a b : R) : (Rabs a <= b)%R → (- b <= a <= b)%R.
Proof. unfold Rabs. destruct (Rcase_abs a); lra. Qed.

Lemma ln_2_bounds : (/ 2 <= ln 2 <= 1)%R.
Proof.
  split.
  - pose proof (ln_le_pred (/ 2) ltac:(lra)) as H. rewrite ln_Rinv in H by lra. lra.
  - pose proof (ln_le_pred 2 ltac:(lra)). lra.
Qed.

(** A relative error of [d] moves the logarithm by at most [2 d]. *)
Lemma ln_near (q x d : R) :
  (0 < q)%R → (0 <= d <= / 2)%R → (Rabs (x - q) <= d * q)%R →
  (0 < x)%R ∧ (Rabs (ln x - ln q) <= 2 * d)%R.
Proof.
  intros Hq Hd Hx. apply Rabs_bounds in Hx.
  assert (0 < x)%R as Hx0 by nra.
  split; [done|].
  assert (0 < / q)%R as Hiq by (by apply Rinv_0_lt_compat).
  assert (ln x - ln q = ln (x / q))%R as ->.
  { unfold Rdiv. rewrite ln_mult, ln_Rinv by done. lra. }
  assert (1 - d <= x / q <= 1 + d)%R as [Hlo Hhi].
  { split; apply Rmult_le_reg_r with q; try done;
      unfold Rdiv; rewrite Rmult_assoc, Rinv_l by lra; lra. }
  set (y := (x / q)%R) in *.
  assert (0 < y)%R as Hy by lra.
  apply Rabs_le. split.
  - pose proof (ln_le_pred (/ y) (Rinv_0_lt_compat _ Hy)) as Hln.
    rewrite ln_Rinv in Hln by done.
    assert (/ y <= 1 + 2 * d)%R.
    { apply Rmult_le_reg_r with y; [done|]. rewrite Rinv_l by lra. nra. }
    lra.
  - pose proof (ln_le_pred y Hy). lra.
Qed.

(** The quotient of two numbers that are near [a] and [b]. *)
Lemma quotient_near (a a' b b' da db X : R) :
  (0 < b)%R → (2 / 5 <= b')%R →
  (Rabs (a' - a) <= da)%R → (Rabs (b' - b) <= db)%R → (Rabs (a / b) <= X)%R →
  (Rabs (a' / b' - a / b) <= 5 / 2 * (da + X * db))%R.
Proof.
  intros Hb Hb' Ha Hdb HX.
  assert (0 < / b')%R as Hib by (apply Rinv_0_lt_compat; lra).
  assert (/ b' <= 5 / 2)%R as Hinv.
  { apply Rmult_le_reg_r with b'; [lra|]. rewrite Rinv_l by lra. lra. }
  replace (a' / b' - a / b)%R
    with (((a' - a) + (a / b) * (b - b')) * / b')%R by (field; lra).
  rewrite Rabs_mult, (Rabs_right (/ b')) by lra.
  assert (Rabs ((a' - a) + (a / b) * (b - b')) <= da + X * db)%R as Hnum.
  { etrans; [apply Rabs_triang|]. rewrite Rabs_mult.
    rewrite (Rabs_minus_sym b b').
    pose proof (Rabs_pos (a / b)). pose proof (Rabs_pos (b' - b)).
    assert (Rabs (a / b) * Rabs (b' - b) <= X * db)%R by (apply Rmult_le_compat; lra).
    lra. }
  pose proof (Rabs_pos ((a' - a) + (a / b) * (b - b'))).
  assert (0 <= da + X * db)%R by lra.
  rewrite (Rmult_comm (5 / 2)). apply Rmult_le_compat; lra.
Qed.

(** A probability with a denominator of at most 2^53, and its logarithm. *)
Lemma probability_lower len n :
  0 < n ≤ len → len ≤ 2 ^ 53 → (/ 2 ^ 53 <= IZR n / IZR len)%R.
Proof.
  intros [Hn Hle] Hlen.
  assert (1 <= IZR n)%R by (apply (IZR_le 1); lia).
  assert (IZR len <= 2 ^ 53)%R as Hl.
  { apply IZR_le in Hlen. change (IZR (2 ^ 53)) with 9007199254740992%R in Hlen. lra. }
  assert (0 < IZR len)%R by (apply (IZR_lt 0); lia).
  apply Rmult_le_reg_r with (IZR len); [done|].
  replace (IZR n / IZR len * IZR len)%R with (IZR n) by (field; lra).
  apply Rmult_le_reg_l with (2 ^ 53)%R; [lra|].
  rewrite <- Rmult_assoc, Rinv_r by lra. nra.
Qed.

Lemma ln_probability (q : R) :
  (/ 2 ^ 53 <= q <= 1)%R → (- (53 * ln 2) <= ln q <= 0)%R.
Proof.
  intros [Hlo Hhi]. pose proof ln_2_bounds.
  assert (0 < q)%R by lra.
  split.
  - pose proof (ln_mono (/ 2 ^ 53) q ltac:(lra) Hlo) as Hm.
    rewrite ln_Rinv, ln_pow in Hm by lra.
    replace (INR 53) with 53%R in Hm by (simpl; lra). lra.
  - apply ln_le_0. lra.
Qed.

(** No term is larger than 2. *)
Lemma term_magnitude len n : 0 < n ≤ len → (- 2 <= term len n <= 0)%R.
Proof.
  intros Hn. split; [|apply term_nonpos; lia].
  pose proof (term_bound len n 1 Hn ltac:(lra)) as Hb.
  rewrite ln_1 in Hb. pose proof (probability len n Hn).
  pose proof ln_2_bounds. pose proof (term_nonpos len n ltac:(lia)).
  nra.
Qed.

(** ** One term of the sum *)

Section RoundedEntropy.
Context {F : Type} {D : Double F} {N : Rounding F}.

Lemma rounding_units (HN : Rounded D N) :
  (0 <= u_abs <= u_rel)%R ∧ (2 ^ 53 * u_abs <= u_rel)%R ∧ (2 ^ 20 * u_rel <= 1)%R.
Proof.
  destruct (u_rel_range _ _ HN) as [H0 H1].
  destruct (u_abs_range _ _ HN) as [H2 H3]. repeat split; try done. lra.
Qed.

Lemma rnd_0 (HN : Rounded D N) : rnd 0 = 0%R.
Proof.
  destruct (of_Z_val _ _ HN 0) as [Hf Hv]; [lia|].
  rewrite <- Hv. by apply (rnd_val _ _ HN).
Qed.

Lemma rnd_1 (HN : Rounded D N) : rnd 1 = 1%R.
Proof.
  destruct (of_Z_val _ _ HN 1) as [Hf Hv]; [lia|].
  rewrite <- Hv. by apply (rnd_val _ _ HN).
Qed.

(** Line 141: the probability is rounded once; it stays positive and
    at most 1. *)
Lemma probability_rounded (HN : Rounded D N) len n :
  0 < n ≤ len → len ≤ 2 ^ 53 →
  let q := (IZR n / IZR len)%R in
  let P := fdiv (of_Z n) (of_Z len) in
  finite P ∧ (0 < val P <= 1)%R ∧ (Rabs (val P - q) <= 2 * u_rel * q)%R.
Proof.
  intros Hn Hlen q P.
  destruct (rounding_units HN) as (Habs & Hrel & Hu).
  pose proof (huge_range _ _ HN) as Hhuge.
  destruct (of_Z_val _ _ HN n) as [Fn Vn]; [lia|].
  destruct (of_Z_val _ _ HN len) as [Fl Vl]; [lia|].
  pose proof (probability len n Hn) as Hq. fold q in Hq.
  pose proof (probability_lower len n Hn Hlen) as Hlow. fold q in Hlow.
  assert (0 < IZR len)%R by (apply (IZR_lt 0); lia).
  destruct (fdiv_val _ _ HN (of_Z n) (of_Z len) Fn Fl) as [FP VP].
  { rewrite Vl. lra. }
  { rewrite Vn, Vl. fold q. rewrite Rabs_right by lra. lra. }
  fold P in FP, VP. rewrite Vn, Vl in VP. fold q in VP.
  pose proof (rnd_err _ _ HN q) as Herr. rewrite Rabs_right in Herr by lra.
  rewrite <- VP in Herr.
  assert (u_abs <= u_rel * q)%R as Hsmall.
  { apply Rle_trans with (q * (2 ^ 53 * u_abs))%R; [|nra].
    assert (1 <= q * 2 ^ 53)%R.
    { apply Rmult_le_reg_r with (/ 2 ^ 53)%R; [lra|].
      rewrite Rmult_assoc, Rinv_r by lra. lra. }
    nra. }
  assert (Rabs (val P - q) <= 2 * u_rel * q)%R as Hnear by (specialize (Herr ltac:(lra)); lra).
  split; [done|]. split; [|done].
  apply Rabs_bounds in Hnear. split; [nra|].
  rewrite VP, <- (rnd_1 HN). apply (rnd_mono _ _ HN). lra.
Qed.

(** Lines 141-142: what is subtracted for a counter [n > 0] is not
    positive and within [2^10 u_rel] of the term in exact arithmetic. *)
Lemma term_rounded (HN : Rounded D N) len n :
  0 < n ≤ len → len ≤ 2 ^ 53 →
  let P := fdiv (of_Z n) (of_Z len) in
  let m := fmul P (fdiv (flog P) (flog (of_Z 2))) in
  finite m ∧ (val m <= 0)%R ∧ (Rabs (val m - term len n) <= 2 ^ 10 * u_rel)%R.
Proof.
  intros Hn Hlen P m.
  destruct (rounding_units HN) as (Habs & Hrel & Hu).
  pose proof (huge_range _ _ HN) as Hhuge.
  pose proof ln_2_bounds as Hln2.
  destruct (probability_rounded HN len n Hn Hlen) as (FP & HP & Hnear).
  fold P in FP, HP, Hnear.
  pose proof (probability len n Hn) as Hq.
  pose proof (probability_lower len n Hn Hlen) as Hlow.
  rewrite term_pos by lia.
  set (q := (IZR n / IZR len)%R) in *. set (pv := val P) in *.
  pose proof (ln_probability q ltac:(lra)) as Hlnq.
  (* the logarithm of the rounded probability *)
  destruct (ln_near q pv (2 * u_rel)) as [_ Hlnp]; [lra|lra|lra|].
  apply Rabs_bounds in Hlnp.
  destruct (flog_val _ _ HN P FP (proj1 HP)) as [FL HL]. fold pv in HL.
  pose proof (flog_sign _ _ HN P FP HP) as HLneg.
  set (lv := val (flog P)) in *.
  assert (Rabs (ln pv) <= 54)%R as Hlnp54 by (apply Rabs_le; lra).
  assert (Rabs (lv - ln q) <= 59 * u_rel)%R as Hlv.
  { apply Rabs_bounds in HL. apply Rabs_le. nra. }
  (* log(2.0) *)
  destruct (of_Z_val _ _ HN 2) as [F2 V2]; [lia|].
  destruct (flog_val _ _ HN (of_Z 2) F2) as [FL2 HL2]; [rewrite V2; lra|].
  rewrite V2 in HL2. rewrite (Rabs_right (ln 2)) in HL2 by lra.
  set (l2 := val (flog (of_Z 2))) in *.
  assert (Rabs (l2 - ln 2) <= 2 * u_rel)%R as Hl2.
  { apply Rabs_bounds in HL2. apply Rabs_le. nra. }
  assert (2 / 5 <= l2)%R as Hl2pos by (apply Rabs_bounds in Hl2; lra).
  (* the quotient of the logarithms *)
  assert (Rabs (ln q / ln 2) <= 53)%R as Hx.
  { apply Rabs_le. split.
    - apply Rmult_le_reg_r with (ln 2); [lra|].
      replace (ln q / ln 2 * ln 2)%R with (ln q) by (field; lra). lra.
    - apply Rmult_le_reg_r with (ln 2); [lra|].
      replace (ln q / ln 2 * ln 2)%R with (ln q) by (field; lra). lra. }
  assert (0 < ln 2)%R as Hln2pos by lra.
  pose proof (quotient_near (ln q) lv (ln 2) l2 _ _ _ Hln2pos Hl2pos Hlv Hl2 Hx)
    as Hquot.
  set (x := (ln q / ln 2)%R) in *.
  assert (Rabs (lv / l2 - x) <= 413 * u_rel)%R as Hquot' by lra. clear Hquot.
  apply Rabs_bounds in Hx.
  assert (Rabs (lv / l2) <= 54)%R as Hmag.
  { apply Rabs_bounds in Hquot'. apply Rabs_le. lra. }
  assert (lv / l2 <= 0)%R as Hneg.
  { apply Rmult_le_reg_r with l2; [lra|].
    replace (lv / l2 * l2)%R with lv by (field; lra). lra. }
  destruct (fdiv_val _ _ HN (flog P) (flog (of_Z 2)) FL FL2) as [Fr Vr].
  { fold l2. lra. }
  { fold lv l2. lra. }
  fold lv l2 in Vr.
  pose proof (rnd_err _ _ HN (lv / l2)%R ltac:(lra)) as Hr. rewrite <- Vr in Hr.
  set (rv := val (fdiv (flog P) (flog (of_Z 2)))) in *.
  assert (rv <= 0)%R as Hrneg.
  { rewrite Vr, <- (rnd_0 HN). by apply (rnd_mono _ _ HN). }
  assert (Rabs (rv - x) <= 468 * u_rel)%R as Hrx.
  { apply Rabs_bounds in Hr, Hquot'. apply Rabs_le. nra. }
  (* the product *)
  apply Rabs_bounds in Hrx, Hnear.
  assert (Rabs (pv * rv) <= 54)%R as Hprod.
  { apply Rabs_le. nra. }
  destruct (fmul_val _ _ HN P (fdiv (flog P) (flog (of_Z 2))) FP Fr) as [Fm Vm].
  { fold pv rv. lra. }
  fold pv rv m in Fm, Vm.
  pose proof (rnd_err _ _ HN (pv * rv)%R ltac:(lra)) as Hm. rewrite <- Vm in Hm.
  split; [done|]. split.
  { rewrite Vm, <- (rnd_0 HN). apply (rnd_mono _ _ HN). nra. }
  apply Rabs_bounds in Hm. fold x.
  assert (- (574 * u_rel) <= pv * rv - q * x <= 574 * u_rel)%R as Hpx.
  { replace (pv * rv - q * x)%R with (pv * (rv - x) + x * (pv - q))%R by ring.
    assert (- (468 * u_rel) <= pv * (rv - x) <= 468 * u_rel)%R by nra.
    assert (- (106 * u_rel) <= x * (pv - q) <= 106 * u_rel)%R by nra.
    lra. }
  assert (u_rel * Rabs (pv * rv) <= 54 * u_rel)%R by nra.
  apply Rabs_le. lra.
Qed.

(** ** The loop of lines 139-144 *)

(** One iteration: [s] is the sum in exact arithmetic so far. *)
Lemma add_term_rounded (HN : Rounded D N) freq len (i : Z) n (e : F) (s : R) :
  freq !! Z.to_nat i = Some n → 0 ≤ n ≤ len → len ≤ 2 ^ 53 → 0 ≤ i < 256 →
  finite e → (0 <= val e)%R → (0 <= s <= 2 * IZR i)%R →
  (Rabs (val e - s) <= IZR i * (2 ^ 11 * u_rel))%R →
  ∃ e', add_term freq len i e = Some e' ∧
        finite e' ∧ (0 <= val e')%R ∧
        (0 <= s - term len n <= 2 * IZR (i + 1))%R ∧
        (Rabs (val e' - (s - term len n)) <= IZR (i + 1) * (2 ^ 11 * u_rel))%R.
Proof.
  intros Hn Hrange Hlen Hi Fe He Hs Herr.
  destruct (rounding_units HN) as (Habs & Hrel & Hu).
  pose proof (huge_range _ _ HN) as Hhuge.
  assert (0 <= IZR i <= 255)%R as HiR by (split; apply IZR_le; lia).
  rewrite plus_IZR. apply Rabs_bounds in Herr.
  unfold add_term. rewrite Hn. cbn [mbind option_bind].
  destruct (0 <? n) eqn:Hpos; zbool.
  - destruct (term_rounded HN len n ltac:(lia) Hlen) as (Fm & Hm0 & Hm).
    pose proof (term_magnitude len n ltac:(lia)) as Ht.
    set (m := fmul _ _) in *. set (t := term len n) in *.
    apply Rabs_bounds in Hm.
    assert (IZR i * (2 ^ 11 * u_rel) <= / 2)%R as Hacc by nra.
    assert (0 <= val e - val m <= 516)%R as Hx by lra.
    destruct (fsub_val _ _ HN e m Fe Fm) as [Fe' Ve'].
    { rewrite Rabs_right by lra. lra. }
    pose proof (rnd_err _ _ HN (val e - val m)%R) as Hr.
    rewrite Rabs_right in Hr by lra. rewrite <- Ve' in Hr.
    specialize (Hr ltac:(lra)). apply Rabs_bounds in Hr.
    eexists. split; [done|]. split; [done|].
    assert (val e <= val (fsub e m))%R as Hmono.
    { rewrite Ve', <- (rnd_val _ _ HN e Fe) at 1. apply (rnd_mono _ _ HN). lra. }
    split; [lra|]. split; [lra|].
    assert (u_rel * (val e - val m) <= 516 * u_rel)%R by nra.
    apply Rabs_le. lra.
  - rewrite term_zero by lia.
    eexists. split; [done|]. split; [done|]. split; [done|].
    split; [lra|]. apply Rabs_le. replace (s - 0)%R with s by lra. nra.
Qed.

(** The loop: the errors of the iterations add up. *)
Lemma sum_loop_rounded (HN : Rounded D N) freq len :
  Forall (λ n, 0 ≤ n ≤ len) freq → len ≤ 2 ^ 53 →
  ∀ (n : nat) (i : Z) (e : F) (s : R),
    0 ≤ i → (Z.to_nat i + n ≤ length freq)%nat → i + Z.of_nat n ≤ 256 →
    finite e → (0 <= val e)%R → (0 <= s <= 2 * IZR i)%R →
    (Rabs (val e - s) <= IZR i * (2 ^ 11 * u_rel))%R →
    ∃ e', for_loop n i (add_term freq len) e = Some e' ∧
          finite e' ∧ (0 <= val e')%R ∧
          (Rabs (val e' - (s - sum_terms len (take n (drop (Z.to_nat i) freq))))
           <= IZR (i + Z.of_nat n) * (2 ^ 11 * u_rel))%R.
Proof.
  intros Hall Hlen. induction n as [|n IH]; intros i e s Hi Hfit Hend Fe He Hs Herr.
  - cbn [for_loop]. exists e. split; [done|]. split; [done|]. split; [done|].
    rewrite take_0, Z.add_0_r. simpl. by replace (s - 0)%R with s by lra.
  - cbn [for_loop].
    destruct (lookup_lt_is_Some_2 freq (Z.to_nat i)) as [m Hm]; [lia|].
    pose proof (proj1 (Forall_lookup _ _) Hall _ _ Hm) as Hrange. simpl in Hrange.
    destruct (add_term_rounded HN freq len i m e s Hm Hrange Hlen ltac:(lia) Fe He Hs Herr)
      as (e1 & -> & Fe1 & He1 & Hs1 & Herr1).
    cbn [mbind option_bind].
    destruct (IH (i + 1) e1 (s - term len m)%R) as (e' & Hrun & Fe' & He' & Herr');
      [lia|lia|lia|done..|].
    exists e'. split; [done|]. split; [done|]. split; [done|].
    rewrite (drop_S _ _ _ Hm). cbn [take sum_terms].
    replace (Z.to_nat (i + 1)) with (S (Z.to_nat i)) in Herr' by lia.
    replace (i + 1 + Z.of_nat n) with (i + Z.of_nat (S n)) in Herr' by lia.
    by replace (s - (term len m + sum_terms len (take n (drop (S (Z.to_nat i)) freq))))%R
      with (s - term len m - sum_terms len (take n (drop (S (Z.to_nat i)) freq)))%R
      by lra.
Qed.

Lemma total_bounded (freq : list Z) (M : Z) :
  Forall (λ n, n ≤ M) freq → total freq ≤ Z.of_nat (length freq) * M.
Proof.
  induction 1 as [|n freq Hn _ IH]; [done|].
  change (total (n :: freq)) with (n + total freq). simpl length. lia.
Qed.

(** The entropy that [calculate_shannon_entropy] returns in a rounded
    arithmetic is a finite number, not negative, and within the
    tolerance of the entropy in exact arithmetic. *)
Lemma calculate_shannon_entropy_rounded (HN : Rounded D N) (p : list ascii) (e : F) :
  calculate_shannon_entropy p = Some e →
  finite e ∧ (0 <= val e)%R ∧
  (Rabs (val e - exact_entropy (c_str p)) <= entropy_tolerance N)%R.
Proof.
  unfold calculate_shannon_entropy. rewrite count_loop_is_count_all.
  destruct (count_all (c_str p) (replicate 256 0)) as [freq|] eqn:Hfreq; [|done].
  cbn [mbind option_bind]. intros Hrun.
  assert (∀ k n, freq !! k = Some n → n ≤ INT_MAX) as Hmax.
  { apply (count_all_bounded _ _ _ Hfreq). intros k n Hk.
    apply lookup_replicate in Hk as [-> _]. done. }
  apply count_all_counters in Hfreq as ->.
  assert (strlen p ≤ 2 ^ 53) as Hlen.
  { unfold strlen. rewrite <- total_counters.
    etrans; [apply (total_bounded _ INT_MAX)|].
    - apply Forall_lookup. intros k n Hk. by eapply Hmax.
    - unfold counters. rewrite length_fmap, length_seqZ. by vm_compute. }
  destruct (of_Z_val _ _ HN 0) as [F0 V0]; [lia|].
  destruct (sum_loop_rounded HN (counters (c_str p)) (strlen p) (counters_range _) Hlen
              256 0 (of_Z 0) 0%R) as (e' & Hrun' & Fe & He & Herr).
  - done.
  - unfold counters. rewrite length_fmap, length_seqZ. simpl. lia.
  - done.
  - done.
  - rewrite V0. lra.
  - simpl. lra.
  - rewrite V0. replace (0 - 0)%R with 0%R by lra. rewrite Rabs_R0. simpl. lra.
  - rewrite Hrun in Hrun'. injection Hrun' as <-.
    split; [done|]. split; [done|].
    rewrite drop_0, take_ge in Herr
      by (unfold counters; rewrite length_fmap, length_seqZ; simpl; lia).
    unfold exact_entropy, entropy_tolerance. unfold strlen in Herr.
    replace (0 - sum_terms (Z.of_nat (length (c_str p))) (counters (c_str p)))%R
      with (- sum_terms (Z.of_nat (length (c_str p))) (counters (c_str p)))%R
      in Herr by lra.
    change (IZR (0 + Z.of_nat 256)) with 256%R in Herr. lra.
Qed.
End RoundedEntropy.

(** ** Two rounded arithmetics *)

(** Exact arithmetic is the rounded arithmetic whose rounding does
    nothing. *)
Lemma Real_rounded : Rounded Real RealRounding.
Proof.
  split; simpl.
  - lra.
  - lra.
  - lra.
  - done.
  - done.
  - intros x _. replace (x - x)%R with 0%R by lra. rewrite Rabs_R0. lra.
  - done.
  - done.
  - done.
  - done.
  - intros a _ Ha. split; [done|].
    replace (ln a - ln a)%R with 0%R by lra. rewrite Rabs_R0. lra.
  - intros a _ Ha. by apply ln_le_0.
Qed.

Lemma round_down_bounds (x : R) : (x - / 2 ^ 100 <= round_down x <= x)%R.
Proof.
  unfold round_down. pose proof (Zfloor_bound (x * 2 ^ 100)) as [Hlo Hhi].
  assert (0 < 2 ^ 100)%R as Hpos by (apply pow_lt; lra).
  set (k := IZR (Zfloor (x * 2 ^ 100))) in *.
  split.
  - apply Rmult_le_reg_r with (2 ^ 100)%R; [done|].
    replace (k / 2 ^ 100 * 2 ^ 100)%R with k by (field; lra).
    replace ((x - / 2 ^ 100) * 2 ^ 100)%R with (x * 2 ^ 100 - 1)%R by (field; lra).
    lra.
  - apply Rmult_le_reg_r with (2 ^ 100)%R; [done|].
    replace (k / 2 ^ 100 * 2 ^ 100)%R with k by (field; lra). done.
Qed.

Lemma round_down_mono (x y : R) : (x <= y)%R → (round_down x <= round_down y)%R.
Proof.
  intros Hxy. unfold round_down.
  assert (0 < 2 ^ 100)%R as Hpos by (apply pow_lt; lra).
  apply Rmult_le_compat_r; [left; by apply Rinv_0_lt_compat|].
  apply IZR_le, Zfloor_le. by apply Rmult_le_compat_r; [lra|].
Qed.

Lemma round_down_grid (k : Z) : round_down (IZR k / 2 ^ 100) = (IZR k / 2 ^ 100)%R.
Proof.
  unfold round_down.
  assert (0 < 2 ^ 100)%R as Hpos by (apply pow_lt; lra).
  replace (IZR k / 2 ^ 100 * 2 ^ 100)%R with (IZR k) by (field; lra).
  by rewrite ZfloorZ.
Qed.

Lemma round_down_twice (x : R) : round_down (round_down x) = round_down x.
Proof. unfold round_down at 2 3. apply round_down_grid. Qed.

Lemma round_down_integer (z : Z) : round_down (IZR z) = IZR z.
Proof.
  assert (0 < 2 ^ 100)%R as Hpos by (apply pow_lt; lra).
  replace (IZR z) with (IZR (z * 2 ^ 100) / 2 ^ 100)%R at 1 2.
  - apply round_down_grid.
  - rewrite mult_IZR. change (2 ^ 100) with (2 ^ Z.of_nat 100).
    rewrite <- pow_IZR. field.
Qed.

Lemma round_down_err (x : R) :
  (Rabs (round_down x - x) <= / 2 ^ 47 * Rabs x + / 2 ^ 100)%R.
Proof.
  pose proof (round_down_bounds x). pose proof (Rabs_pos x).
  assert (0 < / 2 ^ 47)%R by (apply Rinv_0_lt_compat, pow_lt; lra).
  assert (0 <= / 2 ^ 47 * Rabs x)%R by nra.
  apply Rabs_le. lra.
Qed.

(** Fixed-point arithmetic that rounds down is a rounded arithmetic. *)
Lemma FixedPoint_rounded : Rounded FixedPoint FixedPointRounding.
Proof.
  split; cbn [finite val rnd u_rel u_abs huge FixedPointRounding FixedPoint
              of_Z fsub fmul fdiv flog].
  - split; [left; apply Rinv_0_lt_compat, pow_lt; lra|].
    apply Rmult_le_reg_r with (2 ^ 47)%R; [apply pow_lt; lra|].
    rewrite Rmult_assoc, Rinv_l by (apply pow_nonzero; lra). lra.
  - split; [left; apply Rinv_0_lt_compat, pow_lt; lra|].
    replace (2 ^ 100)%R with (2 ^ 53 * 2 ^ 47)%R by (rewrite <- pow_add; done).
    rewrite Rinv_mult, <- Rmult_assoc, Rinv_r by (apply pow_nonzero; lra). lra.
  - lra.
  - apply round_down_mono.
  - done.
  - intros x _. apply round_down_err.
  - intros z _. split; [apply round_down_integer|done].
  - intros a b _ _ _. split; [apply round_down_twice|done].
  - intros a b _ _ _. split; [apply round_down_twice|done].
  - intros a b _ _ _ _. split; [apply round_down_twice|done].
  - intros a _ _. split; [apply round_down_twice|apply round_down_err].
  - intros a _ Ha. pose proof (round_down_bounds (ln a)). pose proof (ln_le_0 a Ha). lra.
Qed.

(** ** The bounds of the entropy *)

(** C9, as amended: whatever the string, as long as no counter overflows
    (which fewer than 2^31 characters ensure), and in every rounded
    arithmetic, the entropy that [calculate_shannon_entropy] returns is a
    finite number that is not negative; it is 0 for the empty string; for
    a non-empty string it exceeds [log2] of the number of distinct byte
    values by no more than the rounding of the computation, which is at
    most [2^19 u_rel], and so it is at most 8 plus that tolerance.  In
    exact arithmetic, where [u_rel] is 0, the bounds hold as stated. *)
Theorem calculate_shannon_entropy_bounds {F : Type} (D : Double F) (N : Rounding F)
    (p : list ascii) :
  Rounded D N →
  (strlen p ≤ INT_MAX → is_Some (calculate_shannon_entropy p)) ∧
  ∀ e : F, calculate_shannon_entropy p = Some e →
    finite e ∧
    (0 <= val e <= 8 + entropy_tolerance N)%R ∧
    (c_str p = [] → val e = 0%R) ∧
    (c_str p ≠ [] →
       (val e <= log2 (INR (distinct (c_str p))) + entropy_tolerance N)%R ∧
       (log2 (INR (distinct (c_str p))) <= 8)%R).
Proof.
  intros HN. split; [apply calculate_shannon_entropy_defined|].
  intros e He.
  destruct (calculate_shannon_entropy_rounded HN p e He) as (Fe & H0 & Hacc).
  apply Rabs_bounds in Hacc.
  assert (0 <= entropy_tolerance N)%R as Htol.
  { unfold entropy_tolerance. destruct (u_rel_range _ _ HN). lra. }
  split; [done|].
  destruct (decide (c_str p = [])) as [Hnil|Hne].
  - assert (strlen p = 0) as Hlen by (unfold strlen; by rewrite Hnil).
    rewrite (entropy_of_empty p Hlen) in He. injection He as <-.
    destruct (of_Z_val _ _ HN 0) as [_ V0]; [lia|]. rewrite V0.
    repeat split; try done; lra.
  - destruct (entropy_real_bounds (c_str p) Hne) as [_ Hub]. cbn zeta in Hub.
    fold (exact_entropy (c_str p)) in Hub.
    pose proof ln_2_pos as Hln2. pose proof (distinct_pos _ Hne) as Hk.
    pose proof (distinct_le_256 (c_str p)) as Hk256.
    set (k := distinct (c_str p)) in *.
    assert (1 <= INR k)%R as Hc by (change 1%R with (INR 1); by apply le_INR).
    assert (INR k <= 256)%R as Hc256.
    { replace 256%R with (INR 256) by (simpl; lra). by apply le_INR. }
    assert (ln (INR k) <= 8 * ln 2)%R as Hln.
    { rewrite <- ln_256. apply ln_mono; lra. }
    assert (exact_entropy (c_str p) <= log2 (INR k))%R as Hlog.
    { unfold log2. apply Rmult_le_reg_r with (ln 2); [done|].
      replace (ln (INR k) / ln 2 * ln 2)%R with (ln (INR k)) by (field; lra). done. }
    assert (log2 (INR k) <= 8)%R as Hlog8.
    { unfold log2. apply Rmult_le_reg_r with (ln 2); [done|].
      replace (ln (INR k) / ln 2 * ln 2)%R with (ln (INR k)) by (field; lra). done. }
    repeat split; try done; lra.
Qed.

(** The bounds at a string of three characters, two of them equal: in
    exact arithmetic, and in the fixed-point arithmetic that rounds. *)
Lemma calculate_shannon_entropy_bounds_witness :
  (∃ e : R, calculate_shannon_entropy (D := Real) (literal "aab") = Some e ∧
            (0 <= e <= 8 + 2 ^ 19 * 0)%R ∧ (e <= log2 (INR 2) + 2 ^ 19 * 0)%R) ∧
  (∃ e : R, calculate_shannon_entropy (D := FixedPoint) (literal "aab") = Some e ∧
            (0 <= e <= 8 + 2 ^ 19 * / 2 ^ 47)%R ∧
            (e <= log2 (INR 2) + 2 ^ 19 * / 2 ^ 47)%R).
Proof.
  split.
  - destruct (calculate_shannon_entropy_bounds Real RealRounding (literal "aab")
                Real_rounded) as [Hdef Hb].
    destruct Hdef as [e He]; [by vm_compute|].
    exists e. split; [done|].
    destruct (Hb e He) as (_ & H08 & _ & Hne). split; [exact H08|].
    destruct Hne as [Hlog _]; [by vm_compute|]. exact Hlog.
  - destruct (calculate_shannon_entropy_bounds FixedPoint FixedPointRounding
                (literal "aab") FixedPoint_rounded) as [Hdef Hb].
    destruct Hdef as [e He]; [by vm_compute|].
    exists e. split; [done|].
    destruct (Hb e He) as (_ & H08 & _ & Hne). split; [exact H08|].
    destruct Hne as [Hlog _]; [by vm_compute|]. exact Hlog.
Defined.

(** * Further properties of the code *)

(** ** get_random_bytes: descriptors, status and diagnostics *)

(** What the read loop leaves behind: the allocator is not called; when
    the loop completes the descriptor is still open and nothing was
    reported; when it returns, the descriptor is closed and [perror] has
    reported the error of the failed [read]. *)
Lemma read_loop_effects fuel : ∀ fd buf br len w ex buf' w',
  read_loop fuel fd buf br len w = Done (ex, buf') w' →
  heap w' = heap w ∧ strerror w' = strerror w ∧
  match ex with
  | Completed _ => fds w' = fds w ∧ stderr w' = stderr w
  | Returned rc =>
      rc = -1 ∧ fds w' = pred (fds w) ∧
      stderr w' = stderr w ++ list_ascii_of_string "Failed to read from /dev/urandom"
                  ++ list_ascii_of_string ": " ++ strerror w (errno w') ++ [LF]
  end.
Proof.
  induction fuel as [|fuel IH]; intros fd buf br len w ex buf' w'; cbn [read_loop].
  - destruct (br <? len); [done|]. by intros [= <- <- <-].
  - destruct (br <? len); [|by intros [= <- <- <-]].
    unfold bind at 1, read. destruct (reads w) as [|[bs|e] r]; [done| |].
    + destruct (Z.of_nat _ <? 0) eqn:Hneg; [zbool; lia|].
      intros Hrun. by apply IH in Hrun.
    + change (-1 <? 0) with true. cbn iota. unfold bind at 1. cbn [errno set_errno].
      destruct (e =? EINTR).
      * intros Hrun. by apply IH in Hrun.
      * intros [= <- <- <-]. done.
Qed.

(** The same for the whole fallback. *)
Lemma urandom_fallback_effects buf len w rc buf' w' :
  urandom_fallback buf len w = Done (rc, buf') w' →
  heap w' = heap w ∧ fds w' = fds w ∧
  (rc = 0 ∧ stderr w' = stderr w ∨
   rc = -1 ∧ ∃ msg, msg ≠ [] ∧ stderr w' = stderr w ++ msg).
Proof.
  unfold urandom_fallback, bind at 1, open_urandom.
  destruct (opens w) as [|[|e] o].
  - intros [= <- <- <-]. repeat split; try done. right. split; [done|].
    eexists. split; [|reflexivity]. done.
  - change (3 <? 0) with false. cbn iota. unfold bind at 1.
    destruct (read_loop _ _ _ _ _ _) as [[[rc0|n] b] w2|w2|] eqn:Hloop; [| |done|done];
      apply read_loop_effects in Hloop as (Hheap & _ & Hex).
    + intros [= <- <- <-]. destruct Hex as (-> & Hfds & Herr).
      repeat split; [done|by rewrite Hfds|]. right. split; [done|].
      eexists. split; [|exact Herr]. done.
    + intros [= <- <- <-]. destruct Hex as (Hfds & Herr).
      repeat split; [done|cbn [fds set_fds]; by rewrite Hfds|]. by left.
  - intros [= <- <- <-]. repeat split; try done. right. split; [done|].
    eexists. split; [|reflexivity]. done.
Qed.

(** X1: on every build target, when [get_random_bytes] returns, its status
    is 0 or -1, the buffer has kept its length, every descriptor it opened
    is closed again, the allocator was not called and nothing was written
    to the primary output stream. *)
Theorem get_random_bytes_returns plat buf len w rc buf' w' :
  get_random_bytes plat buf len w = Done (rc, buf') w' →
  (rc = 0 ∨ rc = -1) ∧ length buf' = length buf ∧
  fds w' = fds w ∧ heap w' = heap w ∧ stdout w' = stdout w.
Proof.
  intros Hrun.
  pose proof (tame_get_random_bytes plat buf len w) as Htame.
  rewrite Hrun in Htame. destruct Htame as [Hlen Hout]. simpl in Hlen.
  assert ((rc = 0 ∨ rc = -1) ∧ fds w' = fds w ∧ heap w' = heap w) as (? & ? & ?);
    [|done].
  destruct plat; unfold get_random_bytes in Hrun.
  - unfold bind, BCryptGenRandom in Hrun.
    destruct (bcrypt w) as [|[g|] b]; injection Hrun as <- _ <-; auto.
  - unfold bind at 1, getrandom in Hrun.
    destruct (getrandoms w) as [|[bs|] g];
      (destruct (_ =? to_ssize len);
       [injection Hrun as <- _ <-; auto
       |apply urandom_fallback_effects in Hrun as (? & ? & [[-> _]|[-> _]]); auto]).
  - apply urandom_fallback_effects in Hrun as (? & ? & [[-> _]|[-> _]]); auto.
Qed.

(** X2: on Linux and on the other Unix targets [get_random_bytes] reports
    on the diagnostic stream exactly when it fails: a successful call
    leaves the stream as it was, a failing call appends a message.  On
    Windows it never writes to the stream. *)
Theorem get_random_bytes_reports plat buf len w rc buf' w' :
  get_random_bytes plat buf len w = Done (rc, buf') w' →
  match plat with
  | Win32 => stderr w' = stderr w
  | _ => (rc = 0 ∧ stderr w' = stderr w) ∨
         (rc = -1 ∧ ∃ msg, msg ≠ [] ∧ stderr w' = stderr w ++ msg)
  end.
Proof.
  intros Hrun. destruct plat; unfold get_random_bytes in Hrun.
  - unfold bind, BCryptGenRandom in Hrun.
    destruct (bcrypt w) as [|[g|] b]; by injection Hrun as _ _ <-.
  - unfold bind at 1, getrandom in Hrun.
    destruct (getrandoms w) as [|[bs|] g];
      (destruct (_ =? to_ssize len);
       [injection Hrun as <- _ <-; by left
       |by apply urandom_fallback_effects in Hrun as (_ & _ & Hcases)]).
  - by apply urandom_fallback_effects in Hrun as (_ & _ & Hcases).
Qed.

(** X3: on Windows the count handed to [BCryptGenRandom] is the low 32 bits
    of the length.  When the generator reports success the call returns 0,
    the first [length mod 2^32] bytes of the buffer are the generator's and
    every later byte is what the buffer held before; when it reports an
    error the call returns -1 and the buffer is as before. *)
Theorem get_random_bytes_win32 buf len w :
  (∀ g b, bcrypt w = Some g :: b →
     ∃ buf', get_random_bytes Win32 buf len w = Done (0, buf') (set_bcrypt b w) ∧
             length buf' = length buf ∧
             ∀ i : nat,
               buf' !! i = if decide (i < Z.to_nat (len mod 2 ^ 32) ∧ i < length buf)%nat
                           then Some (g i) else buf !! i) ∧
  (∀ b, bcrypt w = None :: b →
     get_random_bytes Win32 buf len w = Done (-1, buf) (set_bcrypt b w)).
Proof.
  split.
  - intros g b Hb. unfold get_random_bytes, bind, BCryptGenRandom. rewrite Hb.
    eexists. split; [reflexivity|]. split; [apply length_inserts|].
    intros i. set (n := Z.to_nat (len mod 2 ^ 32)).
    case_decide as Hi.
    + rewrite list_lookup_inserts by (rewrite ?length_fmap, ?length_seq; lia).
      rewrite Nat.sub_0_r, list_lookup_fmap, lookup_seq_lt by lia. done.
    + destruct (decide (i < length buf)%nat) as [Hlt|Hge].
      * apply list_lookup_inserts_ge. rewrite length_fmap, length_seq. lia.
      * rewrite !lookup_ge_None_2; [done|lia|rewrite length_inserts; lia].
  - intros b Hb. unfold get_random_bytes, bind, BCryptGenRandom. by rewrite Hb.
Qed.

Lemma urandom_fallback_collects buf w o used rest :
  opens w = OpenOk :: o →
  reads w = used ++ rest →
  Forall (λ r, read_failed r = false) used →
  (length buf ≤ length (delivered used))%nat →
  ∃ w', urandom_fallback buf (Z.of_nat (length buf)) w
        = Done (0, take (length buf) (delivered used)) w'.
Proof.
  intros Ho Hr Hok Hneed. rewrite (urandom_fallback_opened _ _ _ o Ho). cbn zeta.
  change 0 with (Z.of_nat 0).
  destruct (read_loop_collects used (length (reads w)) rest 3 buf 0%nat
              (set_fds (S (fds w)) (set_opens o w)))
    as (w' & Hrun & _); [done|done|lia|lia|rewrite Hr, length_app; lia|].
  rewrite Hrun. rewrite take_0, Nat.sub_0_r. simpl. by eexists.
Qed.

(** X4: on Linux, for a buffer of [count] bytes, one source fills the
    buffer.  When [getrandom] supplies the whole count the call succeeds
    with these bytes and /dev/urandom is not opened.  When [getrandom]
    fails or supplies fewer bytes, and /dev/urandom opens and offers enough
    bytes, the call succeeds and the buffer holds the first [count] bytes
    read from /dev/urandom: nothing of what [getrandom] wrote remains. *)
Theorem get_random_bytes_linux buf w :
  let count := length buf in
  Z.of_nat count ≤ SSIZE_MAX →
  (∀ bs g, getrandoms w = Some bs :: g → (count ≤ length bs)%nat →
     get_random_bytes Linux buf (Z.of_nat count) w
     = Done (0, take count bs) (set_getrandoms g w)) ∧
  (∀ o used rest,
     match getrandoms w with
     | Some bs :: _ => (length bs < count)%nat
     | _ => True
     end →
     opens w = OpenOk :: o → reads w = used ++ rest →
     Forall (λ r, read_failed r = false) used →
     (count ≤ length (delivered used))%nat →
     ∃ w', get_random_bytes Linux buf (Z.of_nat count) w
           = Done (0, take count (delivered used)) w').
Proof.
  intros count Hmax. split.
  - intros bs g Hg Hlen. by apply get_random_bytes_getrandom.
  - intros o used rest Hshort Ho Hr Hok Hneed.
    assert (to_ssize (Z.of_nat count) = Z.of_nat count) as Hcast.
    { unfold to_ssize. by rewrite (proj2 (Z.leb_le _ _) Hmax). }
    unfold get_random_bytes, bind at 1, getrandom.
    destruct (getrandoms w) as [|[bs|] g] eqn:Hg.
    + rewrite Hcast, (proj2 (Z.eqb_neq (-1) (Z.of_nat count))) by lia.
      by apply (urandom_fallback_collects buf w o used rest).
    + cbn zeta. rewrite Hcast, Nat2Z.id, length_take, Nat.min_r by lia.
      rewrite (proj2 (Z.eqb_neq (Z.of_nat (length bs)) (Z.of_nat count))) by lia.
      rewrite take_ge by lia.
      destruct (urandom_fallback_collects (list_inserts 0 bs buf) (set_getrandoms g w)
                  o used rest) as (w' & Hrun); [done|done|done| |].
      { rewrite length_inserts. done. }
      rewrite length_inserts in Hrun. by exists w'.
    + rewrite Hcast, (proj2 (Z.eqb_neq (-1) (Z.of_nat count))) by lia.
      by apply (urandom_fallback_collects buf (set_getrandoms g w) o used rest).
Qed.

(** ** generate_random_string: success, failure and diagnostics *)

Lemma generate_random_string_granted plat len charset w h :
  heap w = true :: true :: h →
  generate_random_string plat len charset w =
  match get_random_bytes plat (replicate (Z.to_nat len) (junk w)) len (set_heap h w) with
  | Done (rc, random_bytes) w1 =>
      if negb (rc =? 0) then
        Done None (set_stderr (stderr w1 ++ line "Failed to generate random bytes") w1)
      else
        match for_loop (Z.to_nat len) 0
                (convert_byte charset random_bytes (strlen charset))
                (replicate (Z.to_nat ((len + 1) mod SIZE_MOD)) (junk w)) with
        | Some result =>
            match store result len NUL with
            | Some result => Done (Some result) w1
            | None => Undef
            end
        | None => Undef
        end
  | Hang w1 => Hang w1
  | Undef => Undef
  end.
Proof.
  intros Hh. unfold generate_random_string.
  unfold bind at 1, malloc at 1. rewrite Hh.
  unfold bind at 1, malloc at 1. cbn [heap set_heap junk]. unfold bind at 1.
  change (set_heap h (set_heap (true :: h) w)) with (set_heap h w).
  destruct (get_random_bytes _ _ _ _) as [[rc bytes] w1|w1|]; [|done|done].
  destruct (negb (rc =? 0)); [done|].
  unfold bind at 1, defined at 1. destruct (for_loop _ _ _ _); [|done].
  unfold bind at 1, defined at 1. by destruct (store _ _ _).
Qed.

(** X5: when both allocations are granted and the random source reports
    success, a request for [len] characters (less than [SIZE_MAX]) over a
    non-empty character set returns the characters selected for the bytes
    of the source, in their order, followed by the terminator. *)
Theorem generate_random_string_succeeds plat len charset w h bytes w' :
  heap w = true :: true :: h →
  get_random_bytes plat (replicate (Z.to_nat len) (junk w)) len (set_heap h w)
    = Done (0, bytes) w' →
  0 ≤ len < SIZE_MOD - 1 → 0 < strlen charset →
  generate_random_string plat len charset w
  = Done (Some ((pick charset <$> bytes) ++ [NUL])) w'.
Proof.
  intros Hh Hrand Hlen Hsize.
  rewrite (generate_random_string_granted _ _ _ _ h Hh), Hrand.
  change (negb (0 =? 0)) with false. cbn iota.
  pose proof (tame_get_random_bytes plat (replicate (Z.to_nat len) (junk w)) len
                (set_heap h w)) as Htame.
  rewrite Hrand in Htame. destruct Htame as [Hbytes _].
  simpl in Hbytes. rewrite length_replicate in Hbytes.
  rewrite Z.mod_small by lia.
  set (result0 := replicate (Z.to_nat (len + 1)) (junk w)).
  assert (length result0 = S (Z.to_nat len)) as Hres0
    by (unfold result0; rewrite length_replicate; lia).
  destruct (convert_loop_defined charset bytes (Z.to_nat len) 0%nat result0)
    as [r Hr]; [done|lia|lia|].
  change (Z.of_nat 0) with 0 in Hr. rewrite Hr.
  apply (convert_loop_spec _ _ _ _ 0%nat) in Hr as (Hrlen & _ & Hin).
  unfold store. rewrite (proj2 (Z.leb_le 0 len)) by lia.
  rewrite (proj2 (Z.ltb_lt len (Z.of_nat (length r)))) by lia. cbn [andb].
  do 2 f_equal. apply list_eq. intros j.
  destruct (decide (j < Z.to_nat len)%nat) as [Hlt|Hge].
  - rewrite list_lookup_insert_ne by lia.
    destruct (Hin j) as (b & c & Hb & _ & Hc & ->); [lia|].
    rewrite lookup_app_l by (rewrite length_fmap; lia).
    rewrite list_lookup_fmap, Hb. simpl. unfold pick. by rewrite Hc.
  - destruct (decide (j = Z.to_nat len)) as [->|Hne].
    + rewrite list_lookup_insert_eq by lia.
      rewrite lookup_app_r by (rewrite length_fmap; lia).
      by rewrite length_fmap, Hbytes, Nat.sub_diag.
    + rewrite !lookup_ge_None_2; [done| |].
      * rewrite length_app, length_fmap. simpl. lia.
      * rewrite length_insert. lia.
Qed.

Lemma get_random_bytes_stderr plat buf len w rc buf' w' :
  get_random_bytes plat buf len w = Done (rc, buf') w' →
  (rc = 0 → stderr w' = stderr w) ∧ ∃ msg, stderr w' = stderr w ++ msg.
Proof.
  intros Hrun.
  assert (stderr w' = stderr w ∨
          rc = -1 ∧ ∃ msg, msg ≠ [] ∧ stderr w' = stderr w ++ msg) as Hcases.
  { destruct plat; unfold get_random_bytes in Hrun.
    - unfold bind, BCryptGenRandom in Hrun.
      destruct (bcrypt w) as [|[g|] b]; injection Hrun as _ _ <-; by left.
    - unfold bind at 1, getrandom in Hrun.
      destruct (getrandoms w) as [|[bs|] g];
        (destruct (_ =? to_ssize len);
         [injection Hrun as <- _ <-; by left
         |apply urandom_fallback_effects in Hrun as (_ & _ & [[_ ?]|?]); auto]).
    - apply urandom_fallback_effects in Hrun as (_ & _ & [[_ ?]|?]); auto. }
  destruct Hcases as [Hsame|(-> & msg & _ & Hmsg)].
  - split; [done|]. exists []. by rewrite app_nil_r.
  - split; [done|]. by exists msg.
Qed.

(** X6: [generate_random_string] never writes to the primary output
    stream, and it writes to the diagnostic stream exactly when it returns
    NULL: a successful call leaves the stream as it was, a failing call
    ends it with one of its two messages. *)
Theorem generate_random_string_reports plat len charset w r w' :
  generate_random_string plat len charset w = Done r w' →
  stdout w' = stdout w ∧
  match r with
  | Some _ => stderr w' = stderr w
  | None =>
      ∃ pre, stderr w' = stderr w ++ pre ++ line "Memory allocation failed" ∨
             stderr w' = stderr w ++ pre ++ line "Failed to generate random bytes"
  end.
Proof.
  destruct (heap w) as [|[] [|[] h]] eqn:Hh.
  3: { rewrite (generate_random_string_granted _ _ _ _ h Hh).
       destruct (get_random_bytes _ _ _ _) as [[rc bytes] w1|w1|] eqn:Hrand; [|done|done].
       pose proof (tame_get_random_bytes plat (replicate (Z.to_nat len) (junk w)) len
                     (set_heap h w)) as Htame.
       rewrite Hrand in Htame. destruct Htame as [_ Hout].
       destruct (get_random_bytes_stderr _ _ _ _ _ _ _ Hrand) as [Hquiet [msg Hmsg]].
       destruct (negb (rc =? 0)) eqn:Hrc.
       - intros [= <- <-]. split; [done|].
         exists msg. right. cbn [stderr set_stderr]. by rewrite Hmsg, <- app_assoc.
       - apply negb_false_iff in Hrc. zbool. subst rc.
         destruct (for_loop _ _ _ _); [|done]. destruct (store _ _ _); [|done].
         intros [= <- <-]. split; [done|]. by apply Hquiet. }
  all: unfold generate_random_string, bind, malloc; rewrite Hh; cbn [heap set_heap];
    try rewrite Hh; intros [= <- <-]; (split; [done|]); exists []; by left.
Qed.

(** X7: [generate_random_string] returns NULL exactly when one of its two
    allocations is refused or, both being granted, [get_random_bytes]
    reports failure. *)
Theorem generate_random_string_null plat len charset w :
  (∃ w', generate_random_string plat len charset w = Done None w') ↔
  allocation_fails w ∨ random_source_fails plat len w.
Proof.
  split; [|apply generate_random_string_fails].
  intros [w' Hrun]. unfold allocation_fails, random_source_fails.
  destruct (heap w) as [|[] [|[] h]] eqn:Hh; try by left.
  right. rewrite (generate_random_string_granted _ _ _ _ h Hh) in Hrun.
  destruct (get_random_bytes _ _ _ _) as [[rc bytes] w1|w1|] eqn:Hrand; [|done|done].
  exists h, rc, bytes, w1. repeat split; [done|].
  intros ->. change (negb (0 =? 0)) with false in Hrun. cbn iota in Hrun.
  destruct (for_loop _ _ _ _); [|done]. by destruct (store _ _ _).
Qed.

(** ** The bias of the byte-to-character mapping *)

(** Among the numbers below [N], those congruent to [i] modulo [n]. *)
Lemma count_residues (n i : Z) (N : nat) :
  0 ≤ i < n →
  Z.of_nat (length (filter (λ b, b mod n = i) (seqZ 0 (Z.of_nat N))))
  = Z.of_nat N / n + (if i <? Z.of_nat N mod n then 1 else 0).
Proof.
  intros Hi. induction N as [|N IH].
  - simpl. rewrite Z.div_0_l, Z.mod_0_l by lia.
    destruct (i <? 0) eqn:H0; zbool; lia.
  - rewrite seqZ_S, filter_app, length_app, Nat2Z.inj_add, IH. clear IH.
    rewrite Z.add_0_l, Nat2Z.inj_succ.
    set (m := Z.of_nat N). assert (0 ≤ m) by lia.
    pose proof (Z.div_mod m n ltac:(lia)) as Hdm.
    pose proof (Z.mod_pos_bound m n ltac:(lia)) as Hr.
    destruct (decide (m mod n = n - 1)) as [Hlast|Hnot].
    + assert (Z.succ m / n = m / n + 1) as Hq
        by (symmetry; apply (Z.div_unique _ _ _ 0); lia).
      assert (Z.succ m mod n = 0) as Hm
        by (symmetry; apply (Z.mod_unique _ _ (m / n + 1)); lia).
      rewrite Hq, Hm. rewrite filter_cons, filter_nil.
      destruct (i <? m mod n) eqn:H1; destruct (i <? 0) eqn:H2; zbool;
        case_decide; simpl; lia.
    + assert (Z.succ m / n = m / n) as Hq
        by (symmetry; apply (Z.div_unique _ _ _ (m mod n + 1)); lia).
      assert (Z.succ m mod n = m mod n + 1) as Hm
        by (symmetry; apply (Z.mod_unique _ _ (m / n)); lia).
      rewrite Hq, Hm. rewrite filter_cons, filter_nil.
      destruct (i <? m mod n) eqn:H1; destruct (i <? m mod n + 1) eqn:H2; zbool;
        case_decide; simpl; lia.
Qed.

(** X8: the mapping of line 119 is biased as the remainder of 256 by the
    size of the character set says.  For a character set of [n] distinct
    characters, the character at index [i] is selected for [256 / n] byte
    values, and for one more when [i] is below [256 mod n]. *)
Theorem modulo_bias charset i c :
  NoDup (c_str charset) →
  0 ≤ i < strlen charset → load charset i = Some c →
  Z.of_nat (byte_values_for charset c)
  = 256 / strlen charset + (if i <? 256 mod strlen charset then 1 else 0).
Proof.
  intros Hnodup Hi Hc. unfold byte_values_for.
  change 256 with (Z.of_nat 256).
  rewrite <- (count_residues (strlen charset) i 256) by done.
  do 2 f_equal. apply list_filter_iff. intros b.
  pose proof (Z.mod_pos_bound b (strlen charset) ltac:(lia)) as Hb.
  split.
  - intros Hload. unfold load, strlen in *.
    destruct (0 <=? i) eqn:H0; zbool; [|lia].
    destruct (0 <=? b mod _) eqn:H1; zbool; [|lia].
    rewrite lookup_c_str in Hc, Hload by lia.
    pose proof (NoDup_lookup _ _ _ _ Hnodup Hload Hc). lia.
  - by intros ->.
Qed.

(** ** calculate_shannon_entropy: when it is defined and what it attains *)

Lemma occurrences_out_of_range k s : ¬ (0 ≤ k < 256) → occurrences k s = 0.
Proof.
  intros Hk. induction s as [|c s IH]; simpl; [done|].
  pose proof (uchar_range c). destruct (uchar c =? k) eqn:Hc; zbool; lia.
Qed.

Lemma count_all_fits s : ∀ freq,
  length freq = 256%nat →
  (∀ k n, freq !! k = Some n → n + occurrences (Z.of_nat k) s ≤ INT_MAX) →
  is_Some (count_all s freq).
Proof.
  induction s as [|c s IH]; intros freq Hlen Hroom; simpl; [done|].
  pose proof (uchar_range c).
  destruct (lookup_lt_is_Some_2 freq (Z.to_nat (uchar c))) as [n Hn]; [lia|].
  unfold incr_count. rewrite Hn. cbn [mbind option_bind].
  pose proof (Hroom _ _ Hn) as Hr. simpl in Hr.
  rewrite Z2Nat.id, Z.eqb_refl in Hr by lia.
  pose proof (occurrences_nonneg (uchar c) s).
  rewrite (proj2 (Z.ltb_lt n INT_MAX)) by lia. cbn [mbind option_bind].
  apply IH; [by rewrite length_insert|].
  intros k m Hm. destruct (decide (k = Z.to_nat (uchar c))) as [->|Hne].
  - rewrite list_lookup_insert_eq in Hm by lia. injection Hm as <-.
    rewrite Z2Nat.id by lia. lia.
  - rewrite list_lookup_insert_ne in Hm by done. apply Hroom in Hm. simpl in Hm.
    destruct (uchar c =? Z.of_nat k) eqn:Heq; zbool; lia.
Qed.

Section Definedness.
Context {F : Type} {D : Double F}.

(** X9: whatever the arithmetic of [double], the behaviour of
    [calculate_shannon_entropy] is defined exactly when no byte value
    occurs more than [INT_MAX] times in the string; the length of the
    string itself does not matter. *)
Theorem calculate_shannon_entropy_defined_iff (p : list ascii) :
  is_Some (calculate_shannon_entropy p) ↔
  ∀ k, occurrences k (c_str p) ≤ INT_MAX.
Proof.
  unfold calculate_shannon_entropy. rewrite count_loop_is_count_all. split.
  - intros [e He] k.
    destruct (count_all (c_str p) (replicate 256 0)) as [freq|] eqn:Hfreq; [|done].
    destruct (decide (0 ≤ k < 256)) as [Hk|Hk];
      [|by rewrite occurrences_out_of_range].
    pose proof (count_all_bounded _ _ _ Hfreq) as Hb.
    apply count_all_Some in Hfreq as [_ Hocc].
    specialize (Hocc (Z.to_nat k)).
    rewrite lookup_replicate_2, Z2Nat.id in Hocc by lia. simpl in Hocc.
    apply (Hb ltac:(by intros ? ? [-> _]%lookup_replicate) _ _ Hocc).
  - intros Hfit.
    destruct (count_all_fits (c_str p) (replicate 256 0)) as [freq Hfreq].
    + done.
    + intros k n [-> _]%lookup_replicate. apply Hfit.
    + rewrite Hfreq. cbn [mbind option_bind].
      apply count_all_Some in Hfreq as [Hl _].
      apply sum_loop_defined; [|done]. rewrite Hl, length_replicate. simpl. lia.
Qed.
End Definedness.

(** ** The entropy: the maximum and repetition *)

(** Counters that are all 0 or [m]. *)
Lemma sum_terms_equal_counters len m freq :
  Forall (λ n, n = 0 ∨ n = m) freq → 0 < m →
  sum_terms len freq = (INR (positives freq) * term len m)%R ∧
  total freq = Z.of_nat (positives freq) * m.
Proof.
  intros Hall Hm. induction Hall as [|n freq Hn _ [IHs IHt]].
  - unfold total, positives. simpl. split; [lra|lia].
  - cbn [sum_terms]. rewrite positives_cons.
    change (total (n :: freq)) with (n + total freq). rewrite IHs, IHt.
    destruct Hn as [-> | ->].
    + rewrite term_zero by lia. change (0 <? 0) with false. cbn iota.
      rewrite Nat.add_0_l. split; [lra|lia].
    + rewrite (proj2 (Z.ltb_lt 0 m)) by lia. rewrite plus_INR. simpl INR.
      split; [lra|lia].
Qed.

Lemma counters_equal_frequencies s m :
  (∀ c, c ∈ s → occurrences (uchar c) s = m) →
  Forall (λ n, n = 0 ∨ n = m) (counters s).
Proof.
  intros Hm. unfold counters. apply Forall_fmap, Forall_forall. intros k _. simpl.
  pose proof (occurrences_nonneg k s).
  destruct (decide (occurrences k s = 0)) as [|Hpos]; [by left|]. right.
  destruct (proj1 (occurrences_pos k s)) as (c & Hc & <-); [lia|]. by apply Hm.
Qed.

(** In exact arithmetic the bound of the entropy is attained when every
    byte value that occurs in the string occurs equally often. *)
Lemma exact_entropy_equal_frequencies (s : list ascii) m :
  s ≠ [] →
  (∀ c, c ∈ s → occurrences (uchar c) s = m) →
  exact_entropy s = log2 (INR (distinct s)).
Proof.
  intros Hne Hm. unfold exact_entropy.
  assert (0 < m) as Hmpos.
  { destruct s as [|c s'] eqn:Hs; [done|].
    rewrite <- (Hm c) by left. apply occurrences_pos. exists c. split; [left|done]. }
  destruct (sum_terms_equal_counters (Z.of_nat (length s)) m (counters s)
              (counters_equal_frequencies s m Hm) Hmpos) as [Hsum Htotal].
  rewrite total_counters, positives_counters in Htotal.
  rewrite positives_counters in Hsum. rewrite Hsum.
  pose proof (distinct_pos s Hne) as Hk.
  set (k := distinct s) in *.
  assert (1 <= INR k)%R as Hc by (change 1%R with (INR 1); by apply le_INR).
  assert (0 < IZR m)%R as HmR by (by apply IZR_lt).
  rewrite Htotal.
  rewrite term_pos by nia.
  rewrite mult_IZR, <- INR_IZR_INZ.
  replace (IZR m / (INR k * IZR m))%R with (/ INR k)%R by (field; lra).
  rewrite ln_Rinv by lra. unfold log2. pose proof ln_2_pos. field. lra.
Qed.

(** X10: the bound of the entropy is attained, up to rounding: when every
    byte value that occurs in a non-empty string occurs equally often, the
    entropy that [calculate_shannon_entropy] returns in a rounded
    arithmetic is within [2^19 u_rel] of [log2] of the number of distinct
    byte values.  In exact arithmetic, where [u_rel] is 0, it is that
    number. *)
Theorem calculate_shannon_entropy_equal_frequencies {F : Type} (D : Double F)
    (N : Rounding F) (p : list ascii) m (e : F) :
  Rounded D N →
  c_str p ≠ [] →
  (∀ c, c ∈ c_str p → occurrences (uchar c) (c_str p) = m) →
  calculate_shannon_entropy p = Some e →
  finite e ∧
  (Rabs (val e - log2 (INR (distinct (c_str p)))) <= entropy_tolerance N)%R.
Proof.
  intros HN Hne Hm He.
  destruct (calculate_shannon_entropy_rounded HN p e He) as (Fe & _ & Hacc).
  split; [done|]. by rewrite <- (exact_entropy_equal_frequencies _ m Hne Hm).
Qed.






(** ** main: which arguments matter, and what a successful run prints *)

Section MainArguments.
Context {F : Type} {D : Double F} {P : DoublePrint F}.

(** X12: once there is a length argument, [main] looks at the length and
    the mode only: the program name and any argument after the mode have
    no influence, and naming the mode "full" is the same as naming none. *)
Theorem main_arguments plat prog prog' arg mode extra w :
  main plat (prog :: arg :: mode :: extra) w = main plat [prog'; arg; mode] w ∧
  main plat [prog; arg] w = main plat [prog'; arg; literal "full"] w.
Proof.
  split.
  - unfold main. rewrite !argc_ge_2.
    rewrite (proj2 (Z.leb_le 3 (Z.of_nat (length (prog :: arg :: mode :: extra)))))
      by (simpl length; lia).
    reflexivity.
  - reflexivity.
Qed.

(** X13: a run that returns 0 has written to the primary output stream
    exactly one line: a string of the requested length, all of whose
    characters belong to the character set the mode selects. *)
Theorem main_output plat prog arg rest w w' :
  main plat (prog :: arg :: rest) w = Done 0 w' →
  ∃ v C s,
    denotes_length (c_str arg) v ∧ mode_selects rest C ∧
    stdout w' = stdout w ++ s ++ [LF] ∧
    Z.of_nat (length s) = v ∧ ∀ c, c ∈ s → c ∈ c_str C.
Proof.
  intros Hrun.
  destruct (main_cases plat prog arg rest w) as [(w1 & Hrej & _)|(v & C & Hv & HC & Hgen)].
  { rewrite Hrej in Hrun. done. }
  destruct (generate_random_string plat v C w) as [[p|] w1|w1|] eqn:Hrand; [| | |done].
  - destruct Hgen as (w2 & Hmain & Hout & Hlen).
    rewrite Hmain in Hrun. injection Hrun as <-.
    exists v, C, (c_str p). repeat split; [done..|].
    pose proof (generate_random_string_chars _ _ _ _ _ _ Hrand) as Hmem.
    apply generate_random_string_shape in Hrand as (_ & Hstr & _).
    intros c Hc. rewrite Hstr in Hc.
    apply list_elem_of_lookup in Hc as [j Hj].
    apply lookup_take_Some in Hj as [Hj Hlt]. by eapply Hmem.
  - destruct Hgen as [Hmain _]. rewrite Hmain in Hrun. done.
  - destruct Hgen as [Hmain _]. by rewrite Hmain in Hrun.
Qed.
End MainArguments.

(** ** The read loop never gives up *)

Lemma read_loop_starved script : ∀ fuel fd buf br len w,
  reads w = script →
  Forall (λ r, r = ReadData [] ∨ r = ReadErr EINTR) script →
  br < len → (length script ≤ fuel)%nat →
  ∃ w', read_loop fuel fd buf br len w = Hang w' ∧
        stdout w' = stdout w ∧ stderr w' = stderr w ∧ fds w' = fds w.
Proof.
  induction script as [|r script IH]; intros fuel fd buf br len w Hr Hall Hlt Hfuel.
  - destruct fuel; cbn [read_loop]; rewrite (proj2 (Z.ltb_lt _ _) Hlt).
    + by exists w.
    + unfold bind at 1, read. rewrite Hr. by exists w.
  - destruct fuel as [|fuel]; [simpl in Hfuel; lia|]. simpl in Hfuel.
    apply Forall_cons in Hall as [[-> | ->] Hall].
    + rewrite (read_loop_data _ _ _ _ _ [] script) by done. cbn zeta.
      rewrite take_nil. cbn [length list_inserts]. rewrite Z.add_0_r.
      destruct (IH fuel fd buf br len (set_reads script w)) as (w' & Hrun & Hout);
        [done|done|done|lia|].
      by exists w'.
    + rewrite (read_loop_eintr _ _ _ _ _ script) by done.
      destruct (IH fuel fd buf br len (set_errno EINTR (set_reads script w)))
        as (w' & Hrun & Hout); [done|done|done|lia|].
      by exists w'.
Qed.

(** X14: the loop has no limit on retries and does not take a read of 0
    bytes for the end of the file: as long as every [read] is interrupted
    or hands over nothing, a call for at least one byte does not return,
    however many reads are made; it writes no diagnostic while it waits. *)
Theorem get_random_bytes_keeps_reading buf len w o :
  opens w = OpenOk :: o →
  Forall (λ r, r = ReadData [] ∨ r = ReadErr EINTR) (reads w) →
  0 < len →
  ∃ w', get_random_bytes Unix buf len w = Hang w' ∧
        stdout w' = stdout w ∧ stderr w' = stderr w.
Proof.
  intros Ho Hall Hlen.
  change (get_random_bytes Unix buf len) with (urandom_fallback buf len).
  rewrite (urandom_fallback_opened _ _ _ o Ho). cbn zeta.
  destruct (read_loop_starved (reads w) (length (reads w)) 3 buf 0 len
              (set_fds (S (fds w)) (set_opens o w)))
    as (w' & Hrun & Hout & Herr & _); [done|done|done|done|].
  rewrite Hrun. by exists w'.
Qed.

(** ** The efficiency that main reports *)

Lemma distinct_subset (s t : list ascii) :
  (∀ c, c ∈ s → c ∈ t) → (distinct s ≤ length t)%nat.
Proof.
  intros Hsub. unfold distinct. apply submseteq_length, NoDup_submseteq.
  - apply NoDup_remove_dups.
  - intros c Hc. apply Hsub. by apply elem_of_remove_dups.
Qed.

Section Maximum.
Context {F : Type} {D : Double F} {N : Rounding F}.

(** Line 201: the maximum that [main] computes for a character set of
    [n] characters is within [2^9 u_rel] of [log2 n]. *)
Lemma max_entropy_rounded (HN : Rounded D N) (n : Z) :
  1 ≤ n ≤ 2 ^ 53 →
  let max_entropy := fdiv (flog (of_Z n)) (flog (of_Z 2)) in
  finite max_entropy ∧
  (Rabs (val max_entropy - log2 (IZR n)) <= 2 ^ 9 * u_rel)%R.
Proof.
  intros Hn max_entropy.
  destruct (rounding_units HN) as (Habs & Hrel & Hu).
  pose proof (huge_range _ _ HN) as Hhuge.
  pose proof ln_2_bounds as Hln2.
  assert (1 <= IZR n <= 2 ^ 53)%R as HnR.
  { split; [apply (IZR_le 1); lia|].
    destruct Hn as [_ Hn]. apply IZR_le in Hn.
    change (IZR (2 ^ 53)) with 9007199254740992%R in Hn. lra. }
  assert (0 <= ln (IZR n) <= 53 * ln 2)%R as Hlnn.
  { split.
    - rewrite <- ln_1. apply ln_mono; lra.
    - pose proof (ln_mono (IZR n) (2 ^ 53) ltac:(lra) ltac:(lra)) as Hm.
      rewrite ln_pow in Hm by lra.
      replace (INR 53) with 53%R in Hm by (simpl; lra). done. }
  (* log(strlen(charset)) *)
  destruct (of_Z_val _ _ HN n) as [Fn Vn]; [lia|].
  destruct (flog_val _ _ HN (of_Z n) Fn) as [FL HL]; [rewrite Vn; lra|].
  rewrite Vn in HL. rewrite (Rabs_right (ln (IZR n))) in HL by lra.
  set (lv := val (flog (of_Z n))) in *.
  assert (Rabs (lv - ln (IZR n)) <= 54 * u_rel)%R as Hlv.
  { apply Rabs_bounds in HL. apply Rabs_le. nra. }
  (* log(2.0) *)
  destruct (of_Z_val _ _ HN 2) as [F2 V2]; [lia|].
  destruct (flog_val _ _ HN (of_Z 2) F2) as [FL2 HL2]; [rewrite V2; lra|].
  rewrite V2 in HL2. rewrite (Rabs_right (ln 2)) in HL2 by lra.
  set (l2 := val (flog (of_Z 2))) in *.
  assert (Rabs (l2 - ln 2) <= 2 * u_rel)%R as Hl2.
  { apply Rabs_bounds in HL2. apply Rabs_le. nra. }
  assert (2 / 5 <= l2)%R as Hl2pos by (apply Rabs_bounds in Hl2; lra).
  (* the quotient *)
  assert (Rabs (ln (IZR n) / ln 2) <= 53)%R as Hx.
  { apply Rabs_le. split.
    - apply Rmult_le_reg_r with (ln 2); [lra|].
      replace (ln (IZR n) / ln 2 * ln 2)%R with (ln (IZR n)) by (field; lra). lra.
    - apply Rmult_le_reg_r with (ln 2); [lra|].
      replace (ln (IZR n) / ln 2 * ln 2)%R with (ln (IZR n)) by (field; lra). lra. }
  assert (0 < ln 2)%R as Hln2pos by lra.
  pose proof (quotient_near (ln (IZR n)) lv (ln 2) l2 _ _ _ Hln2pos Hl2pos Hlv Hl2 Hx)
    as Hquot.
  fold (log2 (IZR n)) in Hquot, Hx.
  assert (Rabs (lv / l2 - log2 (IZR n)) <= 400 * u_rel)%R as Hquot' by lra.
  clear Hquot. apply Rabs_bounds in Hx, Hquot'.
  assert (Rabs (lv / l2) <= 54)%R as Hmag by (apply Rabs_le; lra).
  destruct (fdiv_val _ _ HN (flog (of_Z n)) (flog (of_Z 2)) FL FL2) as [Fr Vr].
  { fold l2. lra. }
  { fold lv l2. lra. }
  fold lv l2 max_entropy in Fr, Vr.
  pose proof (rnd_err _ _ HN (lv / l2)%R ltac:(lra)) as Hr. rewrite <- Vr in Hr.
  split; [done|].
  apply Rabs_bounds in Hr.
  assert (u_rel * Rabs (lv / l2) <= 54 * u_rel)%R by nra.
  apply Rabs_le. lra.
Qed.
End Maximum.

(** X15: the entropy of a non-empty string whose characters all belong to
    a character set exceeds the maximum that [main] computes for that set
    on line 201, [log(strlen(charset)) / log(2.0)], by no more than the
    rounding of the two computations, at most [(2^19 + 2^9) u_rel] in a
    rounded arithmetic: rounding alone can take the efficiency that [main]
    reports above 100%.  In exact arithmetic, where [u_rel] is 0, the
    entropy is at most the maximum. *)
Theorem entropy_at_most_maximum {F : Type} (D : Double F) (N : Rounding F)
    (p charset : list ascii) (e : F) :
  Rounded D N →
  c_str p ≠ [] →
  (∀ c, c ∈ c_str p → c ∈ c_str charset) →
  strlen charset ≤ 2 ^ 53 →
  calculate_shannon_entropy p = Some e →
  let max_entropy := fdiv (flog (of_Z (strlen charset))) (flog (of_Z 2)) in
  finite e ∧ finite max_entropy ∧
  (val e <= val max_entropy + (entropy_tolerance N + 2 ^ 9 * u_rel))%R.
Proof.
  intros HN Hne Hsub Hsize He max_entropy.
  destruct (calculate_shannon_entropy_rounded HN p e He) as (Fe & _ & Hacc).
  apply Rabs_bounds in Hacc.
  destruct (entropy_real_bounds (c_str p) Hne) as [_ Hub]. cbn zeta in Hub.
  fold (exact_entropy (c_str p)) in Hub.
  pose proof ln_2_pos as Hln2. pose proof (distinct_pos _ Hne) as Hk.
  pose proof (distinct_subset _ _ Hsub) as Hle.
  assert (1 <= INR (distinct (c_str p)))%R
    by (change 1%R with (INR 1); by apply le_INR).
  assert (ln (INR (distinct (c_str p))) <= ln (IZR (strlen charset)))%R as Hmono.
  { apply ln_mono; [lra|]. unfold strlen. rewrite <- INR_IZR_INZ. by apply le_INR. }
  assert (exact_entropy (c_str p) <= log2 (IZR (strlen charset)))%R as Hlog.
  { unfold log2. apply Rmult_le_reg_r with (ln 2); [done|].
    replace (ln (IZR (strlen charset)) / ln 2 * ln 2)%R
      with (ln (IZR (strlen charset))) by (field; lra).
    lra. }
  destruct (max_entropy_rounded HN (strlen charset)) as [Fm Hm].
  { unfold strlen in *. lia. }
  fold max_entropy in Fm, Hm. apply Rabs_bounds in Hm.
  split; [done|]. split; [done|]. lra.
Qed.

(** ** The further properties at concrete inputs *)

Lemma get_random_bytes_returns_witness :
  ∃ w', get_random_bytes Unix (replicate 5 "z"%char) 5 demo_world
        = Done (0, list_ascii_of_string "ab012") w' ∧
        (0 = 0 ∨ 0 = -1) ∧
        length (list_ascii_of_string "ab012") = length (replicate 5 "z"%char) ∧
        fds w' = fds demo_world ∧ heap w' = heap demo_world ∧
        stdout w' = stdout demo_world.
Proof.
  eexists. split; [vm_compute; reflexivity|].
  apply (get_random_bytes_returns Unix (replicate 5 "z"%char) 5 demo_world).
  vm_compute. reflexivity.
Defined.

Lemma get_random_bytes_reports_witness :
  ∃ w', get_random_bytes Unix (replicate 5 "z"%char) 5 demo_world
        = Done (0, list_ascii_of_string "ab012") w' ∧
        ((0 = 0 ∧ stderr w' = stderr demo_world) ∨
         (0 = -1 ∧ ∃ msg, msg ≠ [] ∧ stderr w' = stderr demo_world ++ msg)).
Proof.
  eexists. split; [vm_compute; reflexivity|].
  apply (get_random_bytes_reports Unix (replicate 5 "z"%char) 5 demo_world 0
           (list_ascii_of_string "ab012")).
  vm_compute. reflexivity.
Defined.

Lemma get_random_bytes_win32_witness :
  ∃ buf', get_random_bytes Win32 (replicate 3 "z"%char) 3 windows_world
          = Done (0, buf') (set_bcrypt [] windows_world) ∧
          length buf' = 3%nat ∧
          ∀ i : nat, buf' !! i = if decide (i < 3 ∧ i < 3)%nat
                                 then Some (ascii_of_nat (65 + i))
                                 else replicate 3 "z"%char !! i.
Proof.
  destruct (get_random_bytes_win32 (replicate 3 "z"%char) 3 windows_world)
    as [Hok _].
  apply (Hok (λ i, ascii_of_nat (65 + i)) []). reflexivity.
Defined.

Lemma get_random_bytes_linux_witness :
  get_random_bytes Linux (replicate 5 "z"%char) 5
    (set_getrandoms [Some (list_ascii_of_string "hello!")] demo_world)
  = Done (0, list_ascii_of_string "hello")
         (set_getrandoms [] (set_getrandoms [Some (list_ascii_of_string "hello!")]
                               demo_world)) ∧
  ∃ w', get_random_bytes Linux (replicate 5 "z"%char) 5 demo_world
        = Done (0, list_ascii_of_string "ab012") w'.
Proof.
  split.
  - destruct (get_random_bytes_linux (replicate 5 "z"%char)
                (set_getrandoms [Some (list_ascii_of_string "hello!")] demo_world))
      as [Hprimary _]; [by vm_compute|].
    apply (Hprimary (list_ascii_of_string "hello!") []); [reflexivity|simpl; lia].
  - destruct (get_random_bytes_linux (replicate 5 "z"%char) demo_world)
      as [_ Hfallback]; [by vm_compute|].
    apply (Hfallback [] (reads demo_world) []);
      [exact I|reflexivity|reflexivity|by repeat constructor|vm_compute; lia].
Defined.

Lemma generate_random_string_succeeds_witness :
  ∃ w', generate_random_string Linux 5 CHARSET_NUM demo_world
        = Done (Some ((pick CHARSET_NUM <$> list_ascii_of_string "ab012") ++ [NUL])) w'.
Proof.
  eexists.
  eapply (generate_random_string_succeeds Linux 5 CHARSET_NUM demo_world []).
  - reflexivity.
  - vm_compute. reflexivity.
  - by vm_compute.
  - by vm_compute.
Defined.

Lemma generate_random_string_reports_witness :
  ∃ w', generate_random_string Linux 5 CHARSET_NUM demo_world
        = Done (Some (literal "78890")) w' ∧
        stdout w' = stdout demo_world ∧ stderr w' = stderr demo_world.
Proof.
  eexists. split; [vm_compute; reflexivity|].
  apply (generate_random_string_reports Linux 5 CHARSET_NUM demo_world
           (Some (literal "78890"))).
  vm_compute. reflexivity.
Defined.

Lemma generate_random_string_null_witness :
  ∃ w', generate_random_string Linux 5 CHARSET_NUM (set_heap [true; false] demo_world)
        = Done None w'.
Proof.
  apply (generate_random_string_null Linux 5 CHARSET_NUM
           (set_heap [true; false] demo_world)).
  left. exact I.
Defined.

Lemma modulo_bias_witness :
  Z.of_nat (byte_values_for CHARSET_NUM "0"%char) = 26 ∧
  Z.of_nat (byte_values_for CHARSET_NUM "9"%char) = 25.
Proof.
  assert (NoDup (c_str CHARSET_NUM)) as Hnodup
    by (apply (bool_decide_unpack _); vm_compute; exact I).
  split.
  - apply (modulo_bias CHARSET_NUM 0 "0"%char Hnodup); [by vm_compute|reflexivity].
  - apply (modulo_bias CHARSET_NUM 9 "9"%char Hnodup); [by vm_compute|reflexivity].
Defined.

Lemma calculate_shannon_entropy_defined_iff_witness :
  is_Some (calculate_shannon_entropy (D := Symbolic) (literal "aab")) ∧
  ∀ k, occurrences k (c_str (literal "aab")) ≤ INT_MAX.
Proof.
  assert (is_Some (calculate_shannon_entropy (D := Symbolic) (literal "aab"))) as Hdef
    by (eexists; vm_compute; reflexivity).
  split; [done|].
  by apply (calculate_shannon_entropy_defined_iff (D := Symbolic) (literal "aab")).
Defined.

Lemma calculate_shannon_entropy_equal_frequencies_witness :
  ∃ e : R, calculate_shannon_entropy (D := FixedPoint) (literal "abab") = Some e ∧
           (Rabs (e - log2 (INR 2)) <= 2 ^ 19 * / 2 ^ 47)%R.
Proof.
  destruct (calculate_shannon_entropy_defined (D := FixedPoint) (literal "abab"))
    as [e He]; [by vm_compute|].
  exists e. split; [done|].
  destruct (calculate_shannon_entropy_equal_frequencies FixedPoint FixedPointRounding
              (literal "abab") 2 e FixedPoint_rounded) as [_ Hnear];
    [by vm_compute| |done|exact Hnear].
  intros c Hc. vm_compute in Hc.
  repeat (apply elem_of_cons in Hc as [->|Hc]; [vm_compute; reflexivity|]).
  by apply elem_of_nil in Hc.
Defined.


Lemma main_output_witness :
  ∃ w', main (D := Symbolic) (P := SymbolicPrint) Linux
             [literal "randstr"; literal "5"; literal "num"] demo_world = Done 0 w' ∧
        ∃ v C s,
          denotes_length (c_str (literal "5")) v ∧ mode_selects [literal "num"] C ∧
          stdout w' = stdout demo_world ++ s ++ [LF] ∧
          Z.of_nat (length s) = v ∧ ∀ c, c ∈ s → c ∈ c_str C.
Proof.
  eexists. split; [vm_compute; reflexivity|].
  apply (main_output (D := Symbolic) (P := SymbolicPrint) Linux
           (literal "randstr") (literal "5") [literal "num"] demo_world).
  vm_compute. reflexivity.
Defined.

Lemma get_random_bytes_keeps_reading_witness :
  ∃ w', get_random_bytes Unix (replicate 5 "z"%char) 5
          (set_reads [ReadData []; ReadErr EINTR; ReadData []] demo_world) = Hang w' ∧
        stdout w' = stdout (set_reads [ReadData []; ReadErr EINTR; ReadData []] demo_world) ∧
        stderr w' = stderr (set_reads [ReadData []; ReadErr EINTR; ReadData []] demo_world).
Proof.
  apply (get_random_bytes_keeps_reading (replicate 5 "z"%char) 5
           (set_reads [ReadData []; ReadErr EINTR; ReadData []] demo_world) []).
  - reflexivity.
  - by repeat (apply Forall_cons; split; [auto|]).
  - lia.
Defined.

Lemma entropy_at_most_maximum_witness :
  ∃ e : R, calculate_shannon_entropy (D := FixedPoint) (literal "7889") = Some e ∧
           (e <= round_down (round_down (ln (IZR 10)) / round_down (ln (IZR 2)))
                 + (2 ^ 19 * / 2 ^ 47 + 2 ^ 9 * / 2 ^ 47))%R.
Proof.
  destruct (calculate_shannon_entropy_defined (D := FixedPoint) (literal "7889"))
    as [e He]; [by vm_compute|].
  exists e. split; [done|].
  destruct (entropy_at_most_maximum FixedPoint FixedPointRounding
              (literal "7889") CHARSET_NUM e FixedPoint_rounded) as (_ & _ & Hmax);
    [by vm_compute| |by vm_compute|done|exact Hmax].
  intros c Hc. vm_compute in Hc.
  repeat (apply elem_of_cons in Hc as [->|Hc];
          [apply (bool_decide_unpack _); vm_compute; exact I|]).
  by apply elem_of_nil in Hc.
Defined.
